(** * Stackmate: service definitions and the provisioning-graph engine

    A shallow embedding of the TypeScript sources of the engine (the
    operation class with its recursive [register], the association resolver
    [setupProvisionables], the validation helpers, the schema merge, the
    content hash and the attribute generator) together with the properties
    the specification states about them. *)

From Stdlib Require Import List String Ascii ZArith Bool Lia Arith DecimalString
  Permutation DecimalPos DecimalZ.
Import ListNotations.
Open Scope string_scope.
Set Warnings "-register-all".

(* ================================================================== *)
(** * JavaScript values and insertion-ordered objects *)
(* ================================================================== *)

Module JS.

(** The values that flow through configurations, schemas and handler
    outputs.  Numbers are the integers the configurations use; objects keep
    their keys in insertion order, as [Object.entries] and [JSON.stringify]
    observe it. *)
Inductive value : Type :=
| VUndefined
| VNull
| VBool (b : bool)
| VNum (n : Z)
| VStr (s : string)
| VArr (items : list value)
| VObj (props : list (string * value)).

Definition obj : Type := list (string * value).

(** [!!v] *)
Definition truthy (v : value) : bool :=
  match v with
  | VUndefined | VNull => false
  | VBool b => b
  | VNum n => negb (n =? 0)%Z
  | VStr s => negb (s =? "")
  | VArr _ | VObj _ => true
  end.

(** [a || b] *)
Definition or_else (a b : value) : value := if truthy a then a else b.

(** Own-property lookup in an insertion-ordered key/value list; the same
    structure models a [Map] keyed by strings. *)
Fixpoint get {A : Type} (k : string) (o : list (string * A)) : option A :=
  match o with
  | [] => None
  | (k', v) :: o' => if k =? k' then Some v else get k o'
  end.

(** [o[k] = v] / [map.set(k, v)]: an existing key keeps its position, a
    new key goes last. *)
Fixpoint set {A : Type} (k : string) (v : A) (o : list (string * A))
  : list (string * A) :=
  match o with
  | [] => [(k, v)]
  | (k', v') :: o' =>
      if k =? k' then (k, v) :: o' else (k', v') :: set k v o'
  end.

Definition has {A : Type} (k : string) (o : list (string * A)) : bool :=
  match get k o with Some _ => true | None => false end.

(** [v[k]] on a value: [undefined] when the property is missing or [v] is
    no object. *)
Definition prop (k : string) (v : value) : value :=
  match v with
  | VObj o => match get k o with Some x => x | None => VUndefined end
  | _ => VUndefined
  end.

(** [o[k]] on an object, [undefined] when missing. *)
Definition field (k : string) (o : obj) : value :=
  match get k o with Some x => x | None => VUndefined end.

(** [Object.assign(target, source)] *)
Definition assign (target source : obj) : obj :=
  fold_left (fun acc kv => set (fst kv) (snd kv) acc) source target.

(** lodash [uniq] on strings: first occurrences, in order. *)
Fixpoint uniq_from (seen : list string) (l : list string) : list string :=
  match l with
  | [] => []
  | x :: l' =>
      if existsb (String.eqb x) seen then uniq_from seen l'
      else x :: uniq_from (x :: seen) l'
  end.

Definition uniq (l : list string) : list string := uniq_from [] l.

(** lodash [uniqBy(l, key)]: the first element of every key, in order. *)
Fixpoint uniqBy_from {A : Type} (key : A -> string) (seen : list string)
  (l : list A) : list A :=
  match l with
  | [] => []
  | x :: l' =>
      if existsb (String.eqb (key x)) seen then uniqBy_from key seen l'
      else x :: uniqBy_from key (key x :: seen) l'
  end.

Definition uniqBy {A : Type} (l : list A) (key : A -> string) : list A :=
  uniqBy_from key [] l.

(** Decimal digits of an integer, as [String(n)] prints it. *)
Definition string_of_Z (n : Z) : string :=
  NilZero.string_of_int (Z.to_int n).

(** [String(v)], as a template literal applies it. *)
Fixpoint toString (v : value) : string :=
  match v with
  | VUndefined => "undefined"
  | VNull => "null"
  | VBool true => "true"
  | VBool false => "false"
  | VNum n => string_of_Z n
  | VStr s => s
  | VArr items =>
      (fix commas (l : list value) : string :=
         match l with
         | [] => ""
         | x :: rest =>
             let here :=
               match x with
               | VUndefined | VNull => ""
               | _ => toString x
               end in
             match rest with
             | [] => here
             | _ => here ++ "," ++ commas rest
             end
         end) items
  | VObj _ => "[object Object]"
  end.

(** [parts.join(sep)] *)
Fixpoint join (sep : string) (parts : list string) : string :=
  match parts with
  | [] => ""
  | [x] => x
  | x :: rest => x ++ sep ++ join sep rest
  end.

End JS.


(* ================================================================== *)
(** * Errors and outcomes *)
(* ================================================================== *)

Module Errors.

Record ValidationErrorDescriptor : Type := {
  path : string;
  message : string
}.

(** Errors as the source throws them: a plain [Error] with its message,
    a [ValidationError] with its descriptors, an
    [EnvironmentValidationError] with the missing names. *)
Inductive Error : Type :=
| Err (msg : string)
| ValidationError (msg : string) (errors : list ValidationErrorDescriptor)
| EnvironmentValidationError (msg : string) (vars : list string).

(** The result of running a piece of the engine: a value, a thrown error,
    or no answer within the recursion budget (the source recurses without
    a bound). *)
Inductive Outcome (A : Type) : Type :=
| Ok (a : A)
| Throw (e : Error)
| Diverge.
Arguments Ok {A} a.
Arguments Throw {A} e.
Arguments Diverge {A}.

Definition is_ok {A : Type} (o : Outcome A) : bool :=
  match o with Ok _ => true | _ => false end.

End Errors.

(* ================================================================== *)
(** * Service definitions and provisionables (core/service) *)
(* ================================================================== *)

Module Service.
Import JS Errors.

Inductive ServiceScopeChoice : Type := deployable | preparable | destroyable.

(** The backend handle: the construction context handlers declare
    resources into.  The engine threads it through and never looks inside. *)
Definition Stack : Type := list value.

Record ServiceEnvironment : Type := {
  env_name : string;
  env_required : bool;
  env_description : option string
}.

(** What a handler can read from a provisionable: every data field of the
    node and of its service.  (The handler and association tables of the
    service are functions over this very record, so they stay out of it.) *)
Record ProvisionableData : Type := {
  d_id : string;
  d_config : obj;
  d_provider : string;
  d_type : string;
  d_schemaId : string;
  d_requirements : obj;
  d_provisions : value;
  d_sideEffects : obj;
  d_registered : bool;
  d_resourceId : string
}.

(** [ProvisionHandler]: [(provisionable, stack) => provisions], declaring
    resources into the stack on the way. *)
Definition ProvisionHandler : Type :=
  ProvisionableData -> Stack -> value * Stack.

(** The association handler as [registerAssociated] calls it:
    [handler(linked, stack, owner)]. *)
Definition AnyAssociationHandler : Type :=
  ProvisionableData -> Stack -> ProvisionableData -> value * Stack.

(** [with] is the target-type filter, [where] the predicate over the two
    configurations; both are optional in the source.  An absent
    [requirement] is [false]. *)
Record Association : Type := {
  a_with : option string;
  a_where : option (obj -> obj -> bool);
  a_requirement : bool;
  a_handler : AnyAssociationHandler
}.

(** A scope without an association table reads as the empty table in both
    places that look it up ([get(assocs, scope, {})] and the early return
    of [assertRequirementsSatisfied]); the list is in [Object.entries]
    order, names being own keys of the table. *)
Record Service : Type := {
  provider : string;
  type : string;
  schemaId : string;
  environment : list ServiceEnvironment;
  handlers : ServiceScopeChoice -> option ProvisionHandler;
  associations : ServiceScopeChoice -> list (string * Association)
}.

Record Provisionable : Type := {
  id : string;
  config : obj;
  service : Service;
  requirements : obj;
  provisions : value;
  sideEffects : obj;
  registered : bool;
  resourceId : string
}.

Definition view (p : Provisionable) : ProvisionableData :=
  {| d_id := id p; d_config := config p;
     d_provider := provider (service p); d_type := type (service p);
     d_schemaId := schemaId (service p);
     d_requirements := requirements p; d_provisions := provisions p;
     d_sideEffects := sideEffects p; d_registered := registered p;
     d_resourceId := resourceId p |}.

(** [Object.assign(provisionable, { requirements })] *)
Definition with_requirements (r : obj) (p : Provisionable) : Provisionable :=
  {| id := id p; config := config p; service := service p;
     requirements := r; provisions := provisions p;
     sideEffects := sideEffects p; registered := registered p;
     resourceId := resourceId p |}.

(** [{ ...target, provisions }] *)
Definition with_provisions (v : value) (p : Provisionable) : Provisionable :=
  {| id := id p; config := config p; service := service p;
     requirements := requirements p; provisions := v;
     sideEffects := sideEffects p; registered := registered p;
     resourceId := resourceId p |}.

(** [Object.assign(provisionable, { provisions, registered: true })] *)
Definition with_registered (v : value) (p : Provisionable) : Provisionable :=
  {| id := id p; config := config p; service := service p;
     requirements := requirements p; provisions := v;
     sideEffects := sideEffects p; registered := true;
     resourceId := resourceId p |}.

(** [Object.assign(provisionable, { sideEffects })] *)
Definition with_sideEffects (r : obj) (p : Provisionable) : Provisionable :=
  {| id := id p; config := config p; service := service p;
     requirements := requirements p; provisions := provisions p;
     sideEffects := r; registered := registered p;
     resourceId := resourceId p |}.

Definition requirement_message (name type : string) : string :=
  "Requirement " ++ name ++ " for service " ++ type ++ " is not satisfied".

(** The loop of [assertRequirementsSatisfied] over the entries of the
    scope's association table: the first requirement whose slot in
    [requirements] is falsy throws. *)
Fixpoint check_requirements (type : string) (requirements : obj)
  (entries : list (string * Association)) : Outcome unit :=
  match entries with
  | [] => Ok tt
  | (name, assoc) :: rest =>
      if negb (a_requirement assoc) then
        check_requirements type requirements rest
      else if negb (truthy (field name requirements)) then
        Throw (Err (requirement_message name type))
      else check_requirements type requirements rest
  end.

Definition assertRequirementsSatisfied (provisionable : Provisionable)
  (scope : ServiceScopeChoice) : Outcome unit :=
  check_requirements (type (service provisionable))
    (requirements provisionable)
    (associations (service provisionable) scope).

End Service.

(* ================================================================== *)
(** * Validation (core/validation) *)
(* ================================================================== *)

Module Validation.
Import JS Errors Service.

(** An error object as Ajv reports it. *)
Record AjvErrorObject : Type := {
  keyword : string;
  instancePath : string;
  ajv_message : option string
}.

(** What a compiled schema leaves behind when run on some data: its
    verdict, the data as Ajv rewrote it (defaults filled in, additional
    properties removed, types coerced) and [validateData.errors]. *)
Record Validated : Type := {
  valid : bool;
  validData : value;
  ajv_errors : option (list AjvErrorObject)
}.

(** The Ajv instance [getAjv] builds with [AJV_OPTIONS] (all errors,
    defaults) and the project schema loaded: [ajv.getSchema(id)]. *)
Definition Ajv : Type := string -> option (value -> Validated).

(** Every slash becomes a dot (the first [replace] of [parseErrors]). *)
Fixpoint slashes_to_dots (s : string) : string :=
  match s with
  | EmptyString => EmptyString
  | String c s' =>
      String (if Ascii.eqb c "/"%char then "."%char else c) (slashes_to_dots s')
  end.

(** A leading dot is dropped (the second [replace]). *)
Definition strip_leading_dot (s : string) : string :=
  match s with
  | String c s' => if Ascii.eqb c "."%char then s' else s
  | EmptyString => s
  end.

Definition error_path (instancePath : string) : string :=
  strip_leading_dot (slashes_to_dots instancePath).

Definition descriptor_of (e : AjvErrorObject) : ValidationErrorDescriptor :=
  let path := error_path (instancePath e) in
  let defaultMessage := "Property " ++ path ++ " is invalid" in
  {| path := path;
     message := match ajv_message e with
                | Some m => if m =? "" then defaultMessage else m
                | None => defaultMessage
                end |}.

Definition descriptor_key (d : ValidationErrorDescriptor) : string :=
  path d ++ "-" ++ message d.

Definition parseErrors (errors : list AjvErrorObject)
  : list ValidationErrorDescriptor :=
  let errs :=
    map descriptor_of
      (filter (fun e => negb (existsb (String.eqb (keyword e)) ["if"; "then"]))
         errors) in
  uniqBy errs descriptor_key.

(** [validate(schemaId, data, { useDefaults })].  The second component is
    the caller's [data] after the call: the validator runs on a deep copy
    when [useDefaults] is set and on the data itself otherwise. *)
Definition validate (ajv : Ajv) (schemaId : string) (data : value)
  (useDefaults : bool) : Outcome value * value :=
  if schemaId =? "" then (Throw (Err "A schema ID should be provided"), data)
  else
    match ajv schemaId with
    | None => (Throw (Err ("Invalid schema definition " ++ schemaId)), data)
    | Some validateData =>
        let r := validateData data in
        let data' := if useDefaults then data else validData r in
        let errors := match ajv_errors r with Some l => l | None => [] end in
        if negb (valid r) && negb (match errors with [] => true | _ => false end)
        then (Throw (ValidationError
                       ("Error while validating schema " ++ schemaId)
                       (parseErrors errors)), data')
        else (Ok (validData r), data')
    end.

(** [validateEnvironment(required, env = process.env)] *)
Definition missing_variables (required : list ServiceEnvironment)
  (env : list (string * string)) : list string :=
  map env_name
    (filter (fun envVar => env_required envVar && negb (has (env_name envVar) env))
       required).

Definition validateEnvironment (required : list ServiceEnvironment)
  (env : list (string * string)) : Outcome unit :=
  let missing := missing_variables required env in
  match missing with
  | [] => Ok tt
  | _ =>
      Throw (EnvironmentValidationError
               ("Your environment is missing some variables: "
                  ++ join ", " missing) missing)
  end.

End Validation.

(* ================================================================== *)
(** * Content hash (lib/hash) *)
(* ================================================================== *)

Module Hash.
Import JS.
Local Open Scope Z_scope.

(** ** MD5, the digest [crypto.createHash('md5')] computes (RFC 1321),
    on 32-bit words kept in [Z] with the wrap-around written out. *)

Definition w32 (x : Z) : Z := x mod 0x100000000.

Definition rotl (x n : Z) : Z :=
  w32 (Z.lor (Z.shiftl x n) (Z.shiftr x (32 - n))).

Definition not32 (x : Z) : Z := Z.lxor x 0xffffffff.

Definition shifts : list Z :=
  [7; 12; 17; 22; 7; 12; 17; 22; 7; 12; 17; 22; 7; 12; 17; 22;
   5; 9; 14; 20; 5; 9; 14; 20; 5; 9; 14; 20; 5; 9; 14; 20;
   4; 11; 16; 23; 4; 11; 16; 23; 4; 11; 16; 23; 4; 11; 16; 23;
   6; 10; 15; 21; 6; 10; 15; 21; 6; 10; 15; 21; 6; 10; 15; 21].

Definition sines : list Z :=
  [
    0xd76aa478; 0xe8c7b756; 0x242070db; 0xc1bdceee;
    0xf57c0faf; 0x4787c62a; 0xa8304613; 0xfd469501;
    0x698098d8; 0x8b44f7af; 0xffff5bb1; 0x895cd7be;
    0x6b901122; 0xfd987193; 0xa679438e; 0x49b40821;
    0xf61e2562; 0xc040b340; 0x265e5a51; 0xe9b6c7aa;
    0xd62f105d; 0x02441453; 0xd8a1e681; 0xe7d3fbc8;
    0x21e1cde6; 0xc33707d6; 0xf4d50d87; 0x455a14ed;
    0xa9e3e905; 0xfcefa3f8; 0x676f02d9; 0x8d2a4c8a;
    0xfffa3942; 0x8771f681; 0x6d9d6122; 0xfde5380c;
    0xa4beea44; 0x4bdecfa9; 0xf6bb4b60; 0xbebfbc70;
    0x289b7ec6; 0xeaa127fa; 0xd4ef3085; 0x04881d05;
    0xd9d4d039; 0xe6db99e5; 0x1fa27cf8; 0xc4ac5665;
    0xf4292244; 0x432aff97; 0xab9423a7; 0xfc93a039;
    0x655b59c3; 0x8f0ccc92; 0xffeff47d; 0x85845dd1;
    0x6fa87e4f; 0xfe2ce6e0; 0xa3014314; 0x4e0811a1;
    0xf7537e82; 0xbd3af235; 0x2ad7d2bb; 0xeb86d391
  ].

Definition bytes_of_string (s : string) : list Z :=
  map (fun c => Z.of_N (N_of_ascii c)) (list_ascii_of_string s).

(** The message, a [0x80] byte, zeros up to 56 modulo 64, and the bit
    length as 8 little-endian bytes. *)
Definition pad (msg : list Z) : list Z :=
  let len := Z.of_nat (List.length msg) in
  let zeros := Z.to_nat ((55 - len) mod 64) in
  let bits := len * 8 in
  (msg ++ [0x80] ++ repeat 0 zeros
       ++ map (fun i => Z.shiftr bits (8 * i) mod 256) [0; 1; 2; 3; 4; 5; 6; 7])%list.

Fixpoint words (bytes : list Z) : list Z :=
  match bytes with
  | b0 :: b1 :: b2 :: b3 :: rest =>
      (b0 + Z.shiftl b1 8 + Z.shiftl b2 16 + Z.shiftl b3 24) :: words rest
  | _ => []
  end.

Fixpoint chunks (fuel : nat) (ws : list Z) : list (list Z) :=
  match fuel, ws with
  | S fuel', _ :: _ => firstn 16 ws :: chunks fuel' (skipn 16 ws)
  | _, _ => []
  end.

Definition round (M : list Z) (st : Z * Z * Z * Z) (i : nat)
  : Z * Z * Z * Z :=
  let '(A, B, C, D) := st in
  let iz := Z.of_nat i in
  let '(F, g) :=
    if iz <? 16 then (Z.lor (Z.land B C) (Z.land (not32 B) D), iz)
    else if iz <? 32 then
      (Z.lor (Z.land D B) (Z.land (not32 D) C), (5 * iz + 1) mod 16)
    else if iz <? 48 then (Z.lxor (Z.lxor B C) D, (3 * iz + 5) mod 16)
    else (Z.lxor C (Z.lor B (not32 D)), (7 * iz) mod 16) in
  let F' := w32 (F + A + nth i sines 0 + nth (Z.to_nat g) M 0) in
  (D, w32 (B + rotl F' (nth i shifts 0)), B, C).

Definition process_chunk (st : Z * Z * Z * Z) (M : list Z) : Z * Z * Z * Z :=
  let '(a0, b0, c0, d0) := st in
  let '(A, B, C, D) := fold_left (round M) (seq 0 64) st in
  (w32 (a0 + A), w32 (b0 + B), w32 (c0 + C), w32 (d0 + D)).

Definition hex_digit (n : Z) : ascii :=
  nth (Z.to_nat n) (list_ascii_of_string "0123456789abcdef") "0"%char.

Definition hex_byte (b : Z) : string :=
  String (hex_digit (b / 16)) (String (hex_digit (b mod 16)) EmptyString).

Definition hex_word_le (w : Z) : string :=
  (hex_byte (w mod 256) ++ hex_byte (Z.shiftr w 8 mod 256)
     ++ hex_byte (Z.shiftr w 16 mod 256) ++ hex_byte (Z.shiftr w 24 mod 256))%string.

Definition md5 (msg : list Z) : string :=
  let ws := words (pad msg) in
  let '(a, b, c, d) :=
    fold_left process_chunk (chunks (List.length ws) ws)
      (0x67452301, 0xefcdab89, 0x98badcfe, 0x10325476) in
  (hex_word_le a ++ hex_word_le b ++ hex_word_le c ++ hex_word_le d)%string.

(** [hashString]: the hex MD5 digest of the string. *)
Definition hashString (str : string) : string := md5 (bytes_of_string str).

(** ** [JSON.stringify] *)

Definition dquote : ascii := "034"%char.
Definition backslash : ascii := "092"%char.

Local Open Scope string_scope.

(** The escapes of [JSON.stringify]: the quote, the backslash and the
    control characters. *)
Definition escape_char (c : ascii) : string :=
  let n := Z.of_N (N_of_ascii c) in
  if (n =? 34)%Z then String backslash (String dquote EmptyString)
  else if (n =? 92)%Z then String backslash (String backslash EmptyString)
  else if (n =? 8)%Z then String backslash "b"
  else if (n =? 9)%Z then String backslash "t"
  else if (n =? 10)%Z then String backslash "n"
  else if (n =? 12)%Z then String backslash "f"
  else if (n =? 13)%Z then String backslash "r"
  else if (n <? 32)%Z then String backslash ("u00" ++ hex_byte n)
  else String c EmptyString.

Fixpoint escape (s : string) : string :=
  match s with
  | EmptyString => EmptyString
  | String c s' => escape_char c ++ escape s'
  end.

Definition quote (s : string) : string :=
  String dquote (escape s ++ String dquote EmptyString).

(** [JSON.stringify(v)]; [None] is [undefined].  Object members appear in
    property order, members whose value is [undefined] are left out, and an
    [undefined] array element prints as [null]. *)
Fixpoint stringify (v : value) : option string :=
  match v with
  | VUndefined => None
  | VNull => Some "null"
  | VBool b => Some (if b then "true" else "false")
  | VNum n => Some (string_of_Z n)
  | VStr s => Some (quote s)
  | VArr items =>
      Some ("[" ++ join ","
              ((fix elems (l : list value) : list string :=
                  match l with
                  | [] => []
                  | x :: r =>
                      match stringify x with
                      | Some s => s
                      | None => "null"
                      end :: elems r
                  end) items) ++ "]")
  | VObj props =>
      Some ("{" ++ join ","
              ((fix members (l : list (string * value)) : list string :=
                  match l with
                  | [] => []
                  | (k, x) :: r =>
                      match stringify x with
                      | Some s => (quote k ++ ":" ++ s) :: members r
                      | None => members r
                      end
                  end) props) ++ "}")
  end.

(** [JSON.stringify] of an object always is a string. *)
Definition stringify_object (o : obj) : string :=
  match stringify (VObj o) with
  | Some s => s
  | None => EmptyString
  end.

(** [hashObject]: the MD5 of the JSON text of the object. *)
Definition hashObject (o : obj) : string := hashString (stringify_object o).

End Hash.

(* ================================================================== *)
(** * Schema composition (lib/util) *)
(* ================================================================== *)

Module Schema.
Import JS.

(** lodash [merge], one property at a time: the value [object[key]] holds
    once [source[key]] has been merged into it ([objValue] is [None] when
    the key is not in the object).  A scalar of the source replaces what is
    there; [undefined] only fills a missing key; an array is merged index
    by index into an array (or into a fresh one); a plain object is merged
    key by key into an object (or into a fresh one).  A plain object merged
    into an array would set named properties on the array, which [value]
    cannot hold: the array is kept there, and nothing below relies on that
    case. *)
Fixpoint mergeValue (objValue : option value) (srcValue : value) : value :=
  match srcValue with
  | VUndefined =>
      match objValue with
      | Some x => x
      | None => VUndefined
      end
  | VArr src =>
      let base := match objValue with Some (VArr a) => a | _ => [] end in
      VArr ((fix mergeItems (base src : list value) : list value :=
               match src with
               | [] => base
               | x :: src' =>
                   match base with
                   | b :: base' => mergeValue (Some b) x :: mergeItems base' src'
                   | [] => mergeValue None x :: mergeItems [] src'
                   end
               end) base src)
  | VObj src =>
      match objValue with
      | Some (VArr a) => VArr a
      | _ =>
          let base := match objValue with Some (VObj o) => o | _ => [] end in
          VObj ((fix mergeProps (base : obj) (src : list (string * value)) : obj :=
                   match src with
                   | [] => base
                   | (k, x) :: src' =>
                       mergeProps (set k (mergeValue (get k base) x) base) src'
                   end) base src)
      end
  | scalar => scalar
  end.

(** [baseMerge(object, source)] on two objects. *)
Fixpoint baseMerge (object : obj) (source : obj) : obj :=
  match source with
  | [] => object
  | (k, x) :: source' =>
      baseMerge (set k (mergeValue (get k object) x) object) source'
  end.

(** [merge({}, a, b)]; a source that is [undefined] is skipped. *)
Definition merge (a b : option obj) : obj :=
  let first := match a with Some o => baseMerge [] o | None => [] end in
  match b with Some o => baseMerge first o | None => first end.

(** A schema split the way [mergeJsonSchemas] destructures it: the
    [properties], the [required] list, and every other keyword. *)
Record JsonSchema : Type := {
  properties : option obj;
  required : option (list string);
  keywords : obj
}.

Definition mergeJsonSchemas (source target : JsonSchema) : JsonSchema :=
  let sourceRequired := match required source with Some l => l | None => [] end in
  let targetRequired := match required target with Some l => l | None => [] end in
  {| keywords := merge (Some (keywords source)) (Some (keywords target));
     properties := Some (merge (properties source) (properties target));
     required := Some (uniq (sourceRequired ++ targetRequired)%list) |}.

End Schema.

(* ================================================================== *)
(** * Automatically generated attributes (project/utils) *)
(* ================================================================== *)

Module Project.
Import JS.

Definition DNS : string := "dns".
Definition SSL : string := "ssl".
Definition STATE : string := "state".

(** What the generators take from outside this file: the constants of
    [project/constants], the [cluster] service type, lodash [kebabCase],
    [getTopLevelDomain] and [path.basename(process.cwd())]. *)
Record Library : Type := {
  DEFAULT_PROVIDER : string;
  DEFAULT_REGION : string -> value;
  CLUSTER : string;
  kebabCase : string -> string;
  getTopLevelDomain : string -> string;
  cwd_basename : string
}.

(** The fields of [ProjectConfiguration] the generators read; the [state]
    block is mandatory in that type. *)
Record ProjectConfiguration : Type := {
  p_name : value;
  p_provider : value;
  p_region : value;
  p_state : obj
}.

(** An object literal: the members in order, later ones overwriting. *)
Definition literal (members : list (string * value)) : obj := assign [] members.

(** [associated?.key] *)
Definition opt_prop (key : string) (associated : option obj) : value :=
  match associated with
  | Some o => field key o
  | None => VUndefined
  end.

(** [hasDomain]: a config with a non-empty string [domain]. *)
Definition hasDomain (config : option obj) : option string :=
  match config with
  | Some o =>
      match get "domain" o with
      | Some (VStr d) => if d =? "" then None else Some d
      | _ => None
      end
  | None => None
  end.

Definition default_provider (lib : Library) (project : ProjectConfiguration)
  (associated : option obj) : value :=
  or_else (opt_prop "provider" associated)
    (or_else (p_provider project) (VStr (DEFAULT_PROVIDER lib))).

Definition default_region (project : ProjectConfiguration) (associated : option obj) : value :=
  or_else (opt_prop "region" associated) (p_region project).

Definition project_or_cwd_name (lib : Library) (project : ProjectConfiguration)
  (environment : string) : string :=
  toString (or_else (p_name project)
              (or_else (VStr (cwd_basename lib)) (VStr "stackmate-app")))
    ++ "-" ++ environment.

(** The fallback attributes both revisions compute. *)
Definition fallback (lib : Library) (type : string) (project : ProjectConfiguration)
  (associated : option obj) : obj :=
  let provider := default_provider lib project associated in
  let region := default_region project associated in
  let requiredServiceName := toString provider ++ "-" ++ type ++ "-service" in
  literal [("name", VStr requiredServiceName); ("provider", provider);
           ("type", VStr type); ("region", region)].

(** ** The revision that returns the generator's result as it is *)
Module Returning.

Definition dns (lib : Library) (project : ProjectConfiguration) (environment : string)
  (associated : option obj) : option obj :=
  match hasDomain associated with
  | None => None
  | Some domain =>
      let tld := getTopLevelDomain lib domain in
      Some (literal
              [("type", VStr DNS);
               ("provider", default_provider lib project associated);
               ("region", default_region project associated);
               ("domain", VStr tld);
               ("name", VStr (kebabCase lib (tld ++ "-dns")))])
  end.

Definition ssl (lib : Library) (project : ProjectConfiguration) (environment : string)
  (associated : option obj) : option obj :=
  match hasDomain associated with
  | None => None
  | Some domain =>
      Some (literal
              [("type", VStr SSL);
               ("provider", default_provider lib project associated);
               ("domain", VStr domain);
               ("name", VStr (kebabCase lib
                                (toString (opt_prop "name" associated)
                                   ++ "-ssl-certificate")))])
  end.

Definition state (lib : Library) (project : ProjectConfiguration) (environment : string)
  (associated : option obj) : option obj :=
  let st := p_state project in
  let provider :=
    or_else (field "provider" st)
      (or_else (p_provider project) (VStr (DEFAULT_PROVIDER lib))) in
  Some (assign (assign [] st)
          [("type", VStr STATE); ("provider", provider);
           ("name", VStr "project-state");
           ("region", or_else (field "region" st)
                        (or_else (p_region project)
                           (DEFAULT_REGION lib (toString provider))))]).

Definition cluster (lib : Library) (project : ProjectConfiguration) (environment : string)
  (associated : option obj) : option obj :=
  let provider := default_provider lib project associated in
  let region := default_region project associated in
  Some (literal
          [("name", VStr (kebabCase lib
                            ("app-" ++ toString provider ++ "-"
                               ++ (if truthy region
                                   then toString region ++ "-" else "")
                               ++ "cluster")));
           ("type", VStr (CLUSTER lib));
           ("provider", provider);
           ("region", region);
           ("clusterName",
             VStr (kebabCase lib (project_or_cwd_name lib project environment)))]).

Definition ATTRIBUTE_GENERATOR (lib : Library) (type : string)
  : option (ProjectConfiguration -> string -> option obj -> option obj) :=
  if type =? DNS then Some (dns lib)
  else if type =? SSL then Some (ssl lib)
  else if type =? STATE then Some (state lib)
  else if type =? CLUSTER lib then Some (cluster lib)
  else None.

(** [None] is the [null] of a generator that does not apply. *)
Definition getAutoGeneratedAttributes (lib : Library) (type : string)
  (project : ProjectConfiguration) (environment : string)
  (associatedServiceConfig : option obj) : option obj :=
  match ATTRIBUTE_GENERATOR lib type with
  | Some generator => generator project environment associatedServiceConfig
  | None => Some (fallback lib type project associatedServiceConfig)
  end.

End Returning.

(** ** The revision that spreads the generator's result over the fallback *)
Module Spreading.

Definition domainCopy (lib : Library) (project : ProjectConfiguration) (environment : string)
  (associated : option obj) : option obj :=
  match hasDomain associated with
  | None => None
  | Some domain =>
      Some (literal
              [("type", VStr DNS);
               ("provider", default_provider lib project associated);
               ("region", default_region project associated);
               ("domain", VStr (getTopLevelDomain lib domain));
               ("name", VStr (kebabCase lib
                                (project_or_cwd_name lib project environment)))])
  end.

Definition state (lib : Library) (project : ProjectConfiguration) (environment : string)
  (associated : option obj) : option obj :=
  let st := p_state project in
  Some (assign (assign [] st)
          [("type", VStr STATE);
           ("provider",
             or_else (field "provider" st)
               (or_else (p_provider project)
                  (VStr (DEFAULT_PROVIDER lib))));
           ("name", VStr "project-state")]).

Definition cluster (lib : Library) (project : ProjectConfiguration) (environment : string)
  (associated : option obj) : option obj :=
  Some (literal
          [("type", VStr (CLUSTER lib));
           ("provider", default_provider lib project associated);
           ("region", default_region project associated);
           ("name", VStr (kebabCase lib
                            (project_or_cwd_name lib project environment)))]).

Definition ATTRIBUTE_GENERATOR (lib : Library) (type : string)
  : option (ProjectConfiguration -> string -> option obj -> option obj) :=
  if type =? DNS then Some (domainCopy lib)
  else if type =? SSL then Some (domainCopy lib)
  else if type =? STATE then Some (state lib)
  else if type =? CLUSTER lib then Some (cluster lib)
  else None.

(** [{ name, provider, type, region, ...generated }]; spreading [null]
    adds nothing. *)
Definition getAutoGeneratedAttributes (lib : Library) (type : string)
  (project : ProjectConfiguration) (environment : string)
  (associatedServiceConfig : option obj) : obj :=
  let generated :=
    match ATTRIBUTE_GENERATOR lib type with
    | Some generator => generator project environment associatedServiceConfig
    | None => None
    end in
  assign (fallback lib type project associatedServiceConfig)
    (match generated with Some g => g | None => [] end).

End Spreading.

End Project.

(* ================================================================== *)
(** * The operation (core/operation) *)
(* ================================================================== *)

Module Operation.
Import JS Errors Service Validation.

(** What the operation reaches outside itself: the service registry
    ([Registry.fromConfig], [None] when it throws for an unknown provider
    and type), the Ajv instance and [process.env]. *)
Record World : Type := {
  registry : obj -> option Service;
  ajv : Ajv;
  process_env : list (string * string)
}.

(** An edge.  The source keeps a reference to the target object, which is
    the one stored in the [provisionables] map under its id; the model
    keeps the id and reads the object from the map. *)
Record AssociatedProvisionable : Type := {
  l_name : string;
  l_target : string;
  l_handler : AnyAssociationHandler
}.

(** [Map<id, AssociatedProvisionable[]>], only ever read and written by
    key; a missing key reads as no links. *)
Definition AssociatedProvisionablesMapping : Type :=
  string -> list AssociatedProvisionable.

Definition mapping_set (m : AssociatedProvisionablesMapping) (k : string)
  (ls : list AssociatedProvisionable) : AssociatedProvisionablesMapping :=
  fun k' => if k' =? k then ls else m k'.

(** The two places [register] resolves links from. *)
Inductive Phase : Type := Requirements | SideEffects.

(** Handler invocations, in order: a ghost log next to the stack.  An
    association call is labelled with the phase it was made in, the owner,
    the association name and the target. *)
Inductive Event : Type :=
| ScopeCall (node : string)
| AssocCall (phase : Phase) (owner name target : string).

Definition is_scope_call (node : string) (e : Event) : bool :=
  match e with
  | ScopeCall n => n =? node
  | AssocCall _ _ _ _ => false
  end.

(** How many times the scope handler of [node] has run. *)
Definition scope_calls (node : string) (log : list Event) : nat :=
  List.length (filter (is_scope_call node) log).

(** The [StageOperation] instance. *)
Record StageOperation : Type := {
  stack : Stack;
  scope : ServiceScopeChoice;
  provisionables : list (string * Provisionable);
  requirementsMap : AssociatedProvisionablesMapping;
  sideEffectsMap : AssociatedProvisionablesMapping;
  calls : list Event
}.

Definition set_provisionables (ps : list (string * Provisionable))
  (op : StageOperation) : StageOperation :=
  {| stack := stack op; scope := scope op; provisionables := ps;
     requirementsMap := requirementsMap op;
     sideEffectsMap := sideEffectsMap op; calls := calls op |}.

Definition set_requirementsMap (m : AssociatedProvisionablesMapping)
  (op : StageOperation) : StageOperation :=
  {| stack := stack op; scope := scope op;
     provisionables := provisionables op; requirementsMap := m;
     sideEffectsMap := sideEffectsMap op; calls := calls op |}.

Definition set_sideEffectsMap (m : AssociatedProvisionablesMapping)
  (op : StageOperation) : StageOperation :=
  {| stack := stack op; scope := scope op;
     provisionables := provisionables op;
     requirementsMap := requirementsMap op; sideEffectsMap := m;
     calls := calls op |}.

(** A handler has run: the stack it left, and the log entry. *)
Definition after_call (st : Stack) (e : Event) (op : StageOperation)
  : StageOperation :=
  {| stack := st; scope := scope op; provisionables := provisionables op;
     requirementsMap := requirementsMap op;
     sideEffectsMap := sideEffectsMap op; calls := (calls op ++ [e])%list |}.

(** ** Methods: they read and mutate [this] *)

Definition M (A : Type) : Type := StageOperation -> Outcome A * StageOperation.

Definition ret {A : Type} (a : A) : M A := fun op => (Ok a, op).

Definition bind {A B : Type} (m : M A) (f : A -> M B) : M B :=
  fun op =>
    match m op with
    | (Ok a, op') => f a op'
    | (Throw e, op') => (Throw e, op')
    | (Diverge, op') => (Diverge, op')
    end.

Definition diverge {A : Type} : M A := fun op => (Diverge, op).

Definition lift {A : Type} (o : Outcome A) : M A := fun op => (o, op).

Declare Scope op_scope.
Delimit Scope op_scope with op.
Notation "x <- m ;; k" := (bind m (fun x => k))
  (at level 61, m at next level, right associativity) : op_scope.
Notation "m ;;; k" := (bind m (fun _ => k))
  (at level 61, right associativity) : op_scope.
Local Open Scope op_scope.

(** [this] *)
Definition this : M StageOperation := fun op => (Ok op, op).

(** Reading the object behind a reference.  References in the source are
    always live; an id outside the map has no counterpart there. *)
Definition deref (pid : string) : M Provisionable :=
  fun op =>
    match get pid (provisionables op) with
    | Some p => (Ok p, op)
    | None => (Throw (Err "no such provisionable"), op)
    end.

(** In-place update of the object stored under [pid]. *)
Definition update (pid : string) (f : Provisionable -> Provisionable)
  : M unit :=
  fun op =>
    match get pid (provisionables op) with
    | Some p =>
        (Ok tt, set_provisionables (set pid (f p) (provisionables op)) op)
    | None => (Throw (Err "no such provisionable"), op)
    end.

(** ** [getProvisionable] *)

Definition getProvisionableResourceId (config : obj) : string :=
  toString (or_else (field "name" config) (field "type" config))
    ++ "-" ++ toString (field "provider" config)
    ++ "-" ++ toString (or_else (field "region" config) (VStr "default")).

Definition getProvisionable (w : World) (config : obj) : Outcome Provisionable :=
  match registry w config with
  | None => Throw (Err "no service is registered for the configuration")
  | Some service =>
      Ok {| id := Hash.hashObject config;
            config := config;
            service := service;
            requirements := [];
            provisions := VObj [];
            sideEffects := [];
            registered := false;
            resourceId := getProvisionableResourceId config |}
  end.

(** ** [setupProvisionables] *)

(** The body of the innermost loop: the two [continue]s, then the append
    to the list stored under the owner's id. *)
Definition link (provisionable : Provisionable) (associationName : string)
  (association : Association) (op : StageOperation) (linked : Provisionable)
  : StageOperation :=
  if match a_with association with
     | Some associatedServiceType =>
         negb (associatedServiceType =? "")
         && negb (type (service linked) =? associatedServiceType)
     | None => false
     end
  then op
  else if match a_where association with
          | Some isAssociated =>
              negb (isAssociated (config provisionable) (config linked))
          | None => false
          end
  then op
  else
    let edge := {| l_target := id linked; l_name := associationName;
                   l_handler := a_handler association |} in
    if a_requirement association then
      set_requirementsMap
        (mapping_set (requirementsMap op) (id provisionable)
           (requirementsMap op (id provisionable) ++ [edge])%list) op
    else
      set_sideEffectsMap
        (mapping_set (sideEffectsMap op) (id provisionable)
           (sideEffectsMap op (id provisionable) ++ [edge])%list) op.

Definition values {A : Type} (m : list (string * A)) : list A := map snd m.

(** The second half of [setupProvisionables]: for every provisionable,
    every association of the scope, every provisionable. *)
Definition setupAssociations (op : StageOperation) : StageOperation :=
  fold_left
    (fun op provisionable =>
       fold_left
         (fun op entry =>
            fold_left (link provisionable (fst entry) (snd entry))
              (values (provisionables op)) op)
         (associations (service provisionable) (scope op)) op)
    (values (provisionables op)) op.

(** The first half: one provisionable per configuration, stored by id. *)
Fixpoint addProvisionables (w : World) (services : list obj)
  (op : StageOperation) : Outcome StageOperation :=
  match services with
  | [] => Ok op
  | config :: rest =>
      match getProvisionable w config with
      | Ok provisionable =>
          addProvisionables w rest
            (set_provisionables
               (set (id provisionable) provisionable (provisionables op)) op)
      | Throw e => Throw e
      | Diverge => Diverge
      end
  end.

Definition setupProvisionables (w : World) (services : list obj)
  (op : StageOperation) : Outcome StageOperation :=
  match addProvisionables w services op with
  | Ok op' => Ok (setupAssociations op')
  | Throw e => Throw e
  | Diverge => Diverge
  end.

(** The constructor. *)
Definition new_StageOperation (w : World) (services : list obj)
  (stack : Stack) (scope : ServiceScopeChoice) : Outcome StageOperation :=
  setupProvisionables w services
    {| stack := stack; scope := scope; provisionables := [];
       requirementsMap := fun _ => []; sideEffectsMap := fun _ => [];
       calls := [] |}.

(** ** [register] and [registerAssociated] *)

(** [handler({ ...target, provisions }, this.stack, provisionable)] *)
Definition callAssociation (phase : Phase) (pid : string)
  (link : AssociatedProvisionable) (linkedProvisions : value) : M value :=
  target <- deref (l_target link) ;;
  provisionable <- deref pid ;;
  fun op =>
    let '(out, st) :=
      l_handler link (view (with_provisions linkedProvisions target))
        (stack op) (view provisionable) in
    (Ok out,
     after_call st (AssocCall phase pid (l_name link) (l_target link)) op).

(** The [links.forEach] of [registerAssociated], [output] being the object
    under construction; [register] is the recursive call.  The phase only
    labels the log entries. *)
Fixpoint registerLinks (register : string -> M value) (phase : Phase)
  (pid : string) (links : list AssociatedProvisionable) (output : obj)
  : M obj :=
  match links with
  | [] => ret output
  | link :: rest =>
      linkedProvisions <- register (l_target link) ;;
      out <- callAssociation phase pid link linkedProvisions ;;
      registerLinks register phase pid rest (set (l_name link) out output)
  end.

Definition registerAssociated (register : string -> M value) (phase : Phase)
  (pid : string) (links : list AssociatedProvisionable) : M obj :=
  registerLinks register phase pid links [].

(** [registrationHandler(provisionable, this.stack)] *)
Definition callHandler (pid : string) (handler : ProvisionHandler) : M value :=
  provisionable <- deref pid ;;
  fun op =>
    let '(out, st) := handler (view provisionable) (stack op) in
    (Ok out, after_call st (ScopeCall pid) op).

(** [register(provisionable)], the provisionable being the object stored
    under [pid].  The budget bounds the depth of the recursion. *)
Fixpoint register (w : World) (fuel : nat) (pid : string) : M value :=
  match fuel with
  | O => diverge
  | S fuel' =>
      provisionable <- deref pid ;;
      if registered provisionable then ret (provisions provisionable)
      else
        let service := Service.service provisionable in
        lift (fst (validate (ajv w) (schemaId service)
                     (VObj (config provisionable)) true)) ;;;
        (self <- this ;;
         reqs <- registerAssociated (register w fuel') Requirements pid
                   (requirementsMap self pid) ;;
         update pid (with_requirements reqs) ;;;
         self <- this ;;
         current <- deref pid ;;
         lift (assertRequirementsSatisfied current (scope self)) ;;;
         provs <- match handlers service (scope self) with
                  | Some registrationHandler =>
                      callHandler pid registrationHandler
                  | None => ret (VObj [])
                  end ;;
         update pid (with_registered provs) ;;;
         self <- this ;;
         effects <- registerAssociated (register w fuel') SideEffects pid
                      (sideEffectsMap self pid) ;;
         update pid (with_sideEffects effects) ;;;
         final <- deref pid ;;
         ret (provisions final))
  end.

(** ** [environment] and [process] *)

Definition environment (op : StageOperation) : list ServiceEnvironment :=
  let envVariables :=
    List.concat
      (filter (fun e => match e with [] => false | _ => true end)
         (map (fun p => Service.environment (service p))
            (values (provisionables op)))) in
  uniqBy envVariables env_name.

(** [this.provisionables.forEach(p => this.register(p))] *)
Fixpoint registerAll (w : World) (fuel : nat) (pids : list string) : M unit :=
  match pids with
  | [] => ret tt
  | pid :: rest => register w fuel pid ;;; registerAll w fuel rest
  end.

(** [process()]; the result is the stack the backend then serialises. *)
Definition process (w : World) (fuel : nat) : M Stack :=
  self <- this ;;
  lift (validateEnvironment (environment self) (process_env w)) ;;;
  registerAll w fuel (map fst (provisionables self)) ;;;
  (fun op => (Ok (stack op), op)).

End Operation.


(* ================================================================== *)
(** * Validation of service lists and profiles (core/validation) *)
(* ================================================================== *)

Module Checks.
Import JS Errors Service Validation Operation.

(** [validateServiceConfig(cfg)]: the configuration is validated against
    the schema of the service the registry has for it, defaults on; the
    validated copy is the result. *)
Definition validateServiceConfig (w : World) (cfg : obj) : Outcome value :=
  match registry w cfg with
  | None => Throw (Err "no service is registered for the configuration")
  | Some service => fst (validate (ajv w) (schemaId service) (VObj cfg) true)
  end.

(** [validateServices()(services)]:
    [services.map((srv) => validateServiceConfig(srv))]. *)
Fixpoint validateServices (w : World) (services : list obj)
  : Outcome (list value) :=
  match services with
  | [] => Ok []
  | srv :: rest =>
      match validateServiceConfig w srv with
      | Ok v =>
          match validateServices w rest with
          | Ok vs => Ok (v :: vs)
          | Throw e => Throw e
          | Diverge => Diverge
          end
      | Throw e => Throw e
      | Diverge => Diverge
      end
  end.

(** The part of Ajv's [DataValidationCxt] the keyword functions read. *)
Record DataValidationCxt : Type := {
  parentData : value;
  rootData : value
}.

(** lodash [get(object, key, defaultValue)] for a key that is a plain
    property name: the property, or the default when the object is nullish
    or the property [undefined]. *)
Definition get_or (object : value) (key : string) (defaultValue : value)
  : value :=
  match prop key object with
  | VUndefined => defaultValue
  | x => x
  end.

(** [dataCxt?.parentData] and [dataCxt?.rootData] *)
Definition parent_of (dataCxt : option DataValidationCxt) : value :=
  match dataCxt with Some cxt => parentData cxt | None => VUndefined end.

Definition root_of (dataCxt : option DataValidationCxt) : value :=
  match dataCxt with Some cxt => rootData cxt | None => VUndefined end.

Definition DEFAULT_PROFILE_NAME : string := "default".

(** [Object.keys(v)]: [None] is the [TypeError] on [undefined] and [null];
    an array or a string has its indices, a number or a boolean nothing. *)
Definition own_keys (v : value) : option (list string) :=
  match v with
  | VUndefined | VNull => None
  | VBool _ | VNum _ => Some []
  | VStr s =>
      Some (map (fun i => string_of_Z (Z.of_nat i)) (seq 0 (String.length s)))
  | VArr items =>
      Some (map (fun i => string_of_Z (Z.of_nat i)) (seq 0 (List.length items)))
  | VObj o => Some (map fst o)
  end.

(** lodash [difference] on strings. *)
Definition difference (l excluded : list string) : list string :=
  filter (fun x => negb (existsb (String.eqb x) excluded)) l.

Section Profiles.

(** [getServiceProfile(provider, type, profile)] of [core/profile]: the
    attributes of the profile, [None] when it throws. *)
Variable getServiceProfile : value -> value -> value -> option obj.

Definition validateServiceProfile (profile : value)
  (dataCxt : option DataValidationCxt) : bool :=
  let type := get_or (parent_of dataCxt) "type" VUndefined in
  let provider :=
    get_or (parent_of dataCxt) "provider"
      (get_or (root_of dataCxt) "provider" VNull) in
  if negb (truthy provider) || negb (truthy type) then false
  else
    match getServiceProfile provider type profile with
    | Some _ => true
    | None => false
    end.

Definition validateServiceProfileOverrides (overrides : value)
  (dataCxt : option DataValidationCxt) : bool :=
  let type := get_or (parent_of dataCxt) "type" VUndefined in
  let profile :=
    get_or (parent_of dataCxt) "profile" (VStr DEFAULT_PROFILE_NAME) in
  let provider :=
    get_or (parent_of dataCxt) "provider"
      (get_or (root_of dataCxt) "provider" VNull) in
  if negb (truthy provider) || negb (truthy type) then false
  else
    match getServiceProfile provider type profile with
    | None => false
    | Some serviceOverrides =>
        match own_keys overrides with
        | None => false
        | Some keys =>
            match difference keys (map fst serviceOverrides) with
            | [] => true
            | _ => false
            end
        end
    end.

End Profiles.

End Checks.

(* ================================================================== *)
(** * Building a service (core/service) *)
(* ================================================================== *)

Module Builders.
Import JS Errors Service.

Definition scope_name (scope : ServiceScopeChoice) : string :=
  match scope with
  | deployable => "deployable"
  | preparable => "preparable"
  | destroyable => "destroyable"
  end.

Definition scope_eqb (a b : ServiceScopeChoice) : bool :=
  scope_name a =? scope_name b.

(** [withHandler(scope, handler)(service)]; the handlers are a [Map] only
    ever read by key. *)
Definition withHandler (scope : ServiceScopeChoice) (handler : ProvisionHandler)
  (service : Service) : Outcome Service :=
  match handlers service scope with
  | Some _ =>
      Throw (Err ("There already is a handler for the “" ++ scope_name scope
                    ++ "” scope for the “" ++ type service ++ "” "
                    ++ provider service ++ " service"))
  | None =>
      Ok {| provider := provider service; type := type service;
            schemaId := schemaId service;
            environment := environment service;
            handlers := fun s => if scope_eqb s scope then Some handler
                                 else handlers service s;
            associations := associations service |}
  end.

End Builders.
(* ================================================================== *)
(** * Concrete services and operations used as test inputs *)
(* ================================================================== *)

Module Examples.
Import JS Errors Service Validation Operation.

(** A validator that accepts everything and changes nothing. *)
Definition accepting : Ajv :=
  fun _ => Some (fun data =>
                   {| valid := true; validData := data; ajv_errors := None |}).

(** A scope handler that declares one resource, named [tag], and reports
    how many resources the stack held before. *)
Definition declare (tag : string) : ProvisionHandler :=
  fun _ st =>
    (VObj [("resource", VStr tag); ("position", VNum (Z.of_nat (List.length st)))],
     (st ++ [VStr tag])%list).

(** An association handler that hands over the provisions of the linked
    node. *)
Definition provisions_of_linked : AnyAssociationHandler :=
  fun linked st _ => (VObj [("linked", d_provisions linked)], st).

Definition service_of (type : string)
  (associations : list (string * Association)) : Service :=
  {| provider := "aws"; type := type;
     schemaId := "services/aws/" ++ type;
     Service.environment := [];
     handlers := fun _ => Some (declare type);
     associations := fun _ => associations |}.

Definition requires (target : string) : Association :=
  {| a_with := Some target; a_where := None; a_requirement := true;
     a_handler := provisions_of_linked |}.

Definition affects (target : string) : Association :=
  {| a_with := Some target; a_where := None; a_requirement := false;
     a_handler := provisions_of_linked |}.

Definition config_of (name type : string) : obj :=
  [("name", VStr name); ("type", VStr type); ("provider", VStr "aws")].

Definition registry_of (services : list Service) (config : obj)
  : option Service :=
  find (fun s => match field "type" config with
                 | VStr t => t =? type s
                 | _ => false
                 end) services.

Definition world_of (services : list Service) : World :=
  {| registry := registry_of services; ajv := accepting; process_env := [] |}.

Definition operation_of (w : World) (configs : list obj) : StageOperation :=
  match new_StageOperation w configs [] deployable with
  | Ok op => op
  | _ => {| stack := []; scope := deployable; provisionables := [];
            requirementsMap := fun _ => []; sideEffectsMap := fun _ => [];
            calls := [] |}
  end.

Definition id_of (name type : string) : string :=
  Hash.hashObject (config_of name type).

(** The ids of the nodes used below, computed once. *)
Definition web_id : string := Eval vm_compute in id_of "web" "app".
Definition db1_id : string := Eval vm_compute in id_of "db1" "db".
Definition db2_id : string := Eval vm_compute in id_of "db2" "db".
Definition redis_id : string := Eval vm_compute in id_of "redis" "cache".
Definition aws_id : string := Eval vm_compute in id_of "aws" "provider".
Definition watch_id : string := Eval vm_compute in id_of "watch" "monitoring".
Definition state_id : string :=
  Eval vm_compute in id_of "project-state" "state".

(** The rank of a node, read off the type of its service. *)
Definition rank_by_type (op : StageOperation) (ranks : list (string * nat))
  (pid : string) : nat :=
  match get pid (provisionables op) with
  | Some p => match get (type (service p)) ranks with
              | Some n => n
              | None => 0
              end
  | None => 0
  end.

(** ** An application that requires a database whose side effect points
    back at the application *)

Definition looping_services : list Service :=
  [service_of "app" [("database", requires "db")];
   service_of "db" [("clients", affects "app")]].


Definition looping_configs : list obj :=
  [config_of "web" "app"; config_of "db1" "db"].


(** ** A diamond: the application requires a database and a cache, and
    both require the provider *)

Definition diamond_services : list Service :=
  [service_of "app" [("database", requires "db"); ("cache", requires "cache")];
   service_of "db" [("provider", requires "provider")];
   service_of "cache" [("provider", requires "provider")];
   service_of "provider" []].

Definition diamond_world : World := world_of diamond_services.

Definition diamond_configs : list obj :=
  [config_of "web" "app"; config_of "db1" "db"; config_of "redis" "cache";
   config_of "aws" "provider"].

Definition diamond : StageOperation :=
  Eval vm_compute in operation_of diamond_world diamond_configs.

Definition diamond_rank : string -> nat :=
  rank_by_type diamond [("app", 2); ("db", 1); ("cache", 1); ("provider", 0)].

(** ** A database that requires a provider, in a set without one *)





(** ** A monitoring service whose side effect matches two databases *)

Definition fanout_services : list Service :=
  [service_of "monitoring" [("alerts", affects "db")];
   service_of "db" []].

Definition fanout_world : World := world_of fanout_services.

Definition fanout_configs : list obj :=
  [config_of "watch" "monitoring"; config_of "db1" "db";
   config_of "db2" "db"].

Definition fanout : StageOperation :=
  Eval vm_compute in operation_of fanout_world fanout_configs.

Definition alert_on (target : string) : AssociatedProvisionable :=
  {| l_name := "alerts"; l_target := target;
     l_handler := provisions_of_linked |}.

(** ** A schema with a default region, and a handler that reports the
    configuration it is given *)








(** ** A schema that rejects everything with two errors *)

Definition two_errors : list AjvErrorObject :=
  [{| keyword := "minLength"; instancePath := "/name";
      ajv_message := Some "The name is too short" |};
   {| keyword := "enum"; instancePath := "/region"; ajv_message := None |}].





(** ** Two services that declare environment variables *)






(** ** An application that requires a state service which has no handler
    for the scope *)

Definition silent_state : Service :=
  {| provider := "aws"; type := "state"; schemaId := "services/aws/state";
     Service.environment := [];
     handlers := fun _ => None;
     associations := fun _ => [] |}.

Definition silent_world : World :=
  {| registry := registry_of [service_of "app" [("state", requires "state")];
                              silent_state];
     ajv := accepting; process_env := [] |}.

Definition silent_configs : list obj :=
  [config_of "web" "app"; config_of "project-state" "state"].

Definition silent : StageOperation :=
  Eval vm_compute in operation_of silent_world silent_configs.

(** ** The same configuration with two keys in the other order, and with
    a member that is [undefined] *)

Definition reordered : obj :=
  [("type", VStr "db"); ("name", VStr "db1"); ("provider", VStr "aws")].

Definition with_undefined_region : obj :=
  [("name", VStr "db1"); ("type", VStr "db"); ("region", VUndefined);
   ("provider", VStr "aws")].

Definition plain_world : World := world_of [service_of "db" []].

(** ** A project with a domain: what the attribute generators read *)

(** The library the generators call, on the strings of this example: every
    domain is under [example.com], and the names handed to [kebabCase]
    are lower-case words joined by dashes or dots. *)
Fixpoint dashed (s : string) : string :=
  match s with
  | EmptyString => EmptyString
  | String c s' => String (if Ascii.eqb c "."%char then "-"%char else c) (dashed s')
  end.

Definition library : Project.Library :=
  {| Project.DEFAULT_PROVIDER := "aws";
     Project.DEFAULT_REGION :=
       fun provider => if provider =? "aws" then VStr "eu-central-1" else VUndefined;
     Project.CLUSTER := "cluster";
     Project.kebabCase := dashed;
     Project.getTopLevelDomain := fun _ => "example.com";
     Project.cwd_basename := "shop" |}.

Definition shop : Project.ProjectConfiguration :=
  {| Project.p_name := VStr "shop";
     Project.p_provider := VStr "aws";
     Project.p_region := VStr "eu-central-1";
     Project.p_state := [("type", VStr "state"); ("bucket", VStr "shop-state")] |}.

Definition web_with_domain : obj :=
  [("name", VStr "web"); ("type", VStr "application"); ("provider", VStr "aws");
   ("region", VStr "eu-west-1"); ("domain", VStr "app.example.com")].

(** ** Two schema fragments that define the same properties *)

Definition base_schema : Schema.JsonSchema :=
  {| Schema.properties :=
       Some [("size", VObj [("type", VStr "string");
                            ("enum", VArr [VStr "small"; VStr "large"]);
                            ("default", VStr "small")]);
             ("links", VObj [("type", VStr "array");
                             ("default", VArr [VStr "db"; VStr "cache"])]);
             ("nodes", VObj [("type", VStr "number"); ("default", VNum 1)])];
     Schema.required := Some ["size"; "nodes"];
     Schema.keywords := [("type", VStr "object")] |}.

Definition addition_schema : Schema.JsonSchema :=
  {| Schema.properties :=
       Some [("size", VObj [("default", VStr "large")]);
             ("links", VObj [("default", VArr [VStr "queue"])]);
             ("engine", VObj [("type", VStr "string")])];
     Schema.required := Some ["engine"; "size"];
     Schema.keywords := [("additionalProperties", VBool false)] |}.

(** ** A validator that rejects the databases only *)

Definition picky_ajv : Ajv :=
  fun schemaId =>
    Some (fun data =>
            if schemaId =? "services/aws/db" then
              {| valid := false; validData := data; ajv_errors := Some two_errors |}
            else {| valid := true; validData := data; ajv_errors := None |}).

(** The monitoring service and its databases again, the databases now
    invalid: the side effect of the monitoring service fails. *)
Definition brittle_world : World :=
  {| registry := registry_of fanout_services; ajv := picky_ajv;
     process_env := [] |}.

Definition brittle : StageOperation :=
  Eval vm_compute in operation_of brittle_world fanout_configs.

(** The application and its database again, the database now invalid: the
    requirement of the application fails. *)
Definition fragile_world : World :=
  {| registry := registry_of looping_services; ajv := picky_ajv;
     process_env := [] |}.

Definition fragile : StageOperation :=
  Eval vm_compute in operation_of fragile_world looping_configs.

Definition two_descriptors : list ValidationErrorDescriptor :=
  [{| path := "name"; message := "The name is too short" |};
   {| path := "region"; message := "Property region is invalid" |}].

(** ** A profile table with one profile, and a database block *)

Definition profiles (provider type profile : value) : option obj :=
  match provider, type, profile with
  | VStr "aws", VStr "db", VStr "default" =>
      Some [("size", VStr "db.t3.micro"); ("storage", VNum 30)]
  | _, _, _ => None
  end.

Definition db_block : Checks.DataValidationCxt :=
  {| Checks.parentData := VObj (config_of "db1" "db");
     Checks.rootData := VObj [("provider", VStr "aws")] |}.

Definition conditional_error : AjvErrorObject :=
  {| keyword := "if"; instancePath := "/size";
     ajv_message := Some "must match then schema" |}.

(** ** An application and a database that require each other *)




End Examples.
(* ================================================================== *)
(** * Vocabulary of the statements *)
(* ================================================================== *)

Module Spec.
Import JS Errors Service Validation Operation.

(** The state a call may leave behind, seen from the state it started in:
    scope and edges are those of the start, the log has only grown, the
    map has the same keys, every object keeps its identity, configuration
    and service, and an object that was registered at the start is
    untouched. *)
Definition evolves (a b : StageOperation) : Prop :=
  scope b = scope a
  /\ requirementsMap b = requirementsMap a
  /\ sideEffectsMap b = sideEffectsMap a
  /\ (exists l, calls b = (calls a ++ l)%list)
  /\ map fst (provisionables b) = map fst (provisionables a)
  /\ forall pid p,
      get pid (provisionables a) = Some p ->
      exists p',
        get pid (provisionables b) = Some p'
        /\ service p' = service p /\ config p' = config p
        /\ id p' = id p /\ resourceId p' = resourceId p
        /\ (registered p = true -> p' = p).

(** An update that leaves identity, configuration and service alone. *)
Definition static (f : Provisionable -> Provisionable) : Prop :=
  forall p, service (f p) = service p /\ config (f p) = config p
            /\ id (f p) = id p /\ resourceId (f p) = resourceId p.

(** [Object.assign(provisionable, ...)] on the object under [pid]. *)
Definition assigned (pid : string) (f : Provisionable -> Provisionable)
  (op : StageOperation) : StageOperation :=
  match get pid (provisionables op) with
  | Some p => set_provisionables (set pid (f p) (provisionables op)) op
  | None => op
  end.

(** The node's own provisioning: the result of its scope handler and the
    state it leaves, or the empty output when the scope has no handler. *)
Definition provisioned (pid : string) (handler : option ProvisionHandler)
  (op : StageOperation) : value * StageOperation :=
  match handler, get pid (provisionables op) with
  | Some h, Some p =>
      (fst (h (view p) (stack op)),
       after_call (snd (h (view p) (stack op))) (ScopeCall pid) op)
  | _, _ => (VObj [], op)
  end.

(** [r] is the failure [r1] passed on. *)
Definition failed {A B : Type} (r1 : Outcome A) (r : Outcome B) : Prop :=
  match r1 with
  | Ok _ => False
  | Throw e => r = Throw e
  | Diverge => r = Diverge
  end.

(** The ways a call [register w (S fuel) pid] can go, with the states in
    between. *)
Inductive register_run (w : World) (fuel : nat) (pid : string)
  (op : StageOperation) : Outcome value -> StageOperation -> Prop :=
| run_unknown :
    get pid (provisionables op) = None ->
    register_run w fuel pid op (Throw (Err "no such provisionable")) op
| run_memo p :
    get pid (provisionables op) = Some p -> registered p = true ->
    register_run w fuel pid op (Ok (provisions p)) op
| run_invalid p r :
    get pid (provisionables op) = Some p -> registered p = false ->
    failed (fst (validate (ajv w) (schemaId (service p))
                   (VObj (config p)) true)) r ->
    register_run w fuel pid op r op
| run_requirements_failed p v r1 op1 r :
    get pid (provisionables op) = Some p -> registered p = false ->
    fst (validate (ajv w) (schemaId (service p)) (VObj (config p)) true)
    = Ok v ->
    registerAssociated (register w fuel) Requirements pid
      (requirementsMap op pid) op = (r1, op1) ->
    failed r1 r ->
    register_run w fuel pid op r op1
| run_gate p v reqs op1 r :
    get pid (provisionables op) = Some p -> registered p = false ->
    fst (validate (ajv w) (schemaId (service p)) (VObj (config p)) true)
    = Ok v ->
    registerAssociated (register w fuel) Requirements pid
      (requirementsMap op pid) op = (Ok reqs, op1) ->
    failed (check_requirements (type (service p)) reqs
              (associations (service p) (scope op))) r ->
    register_run w fuel pid op r (assigned pid (with_requirements reqs) op1)
| run_effects_failed p v reqs op1 provs op3 r5 op5 r :
    get pid (provisionables op) = Some p -> registered p = false ->
    fst (validate (ajv w) (schemaId (service p)) (VObj (config p)) true)
    = Ok v ->
    registerAssociated (register w fuel) Requirements pid
      (requirementsMap op pid) op = (Ok reqs, op1) ->
    check_requirements (type (service p)) reqs
      (associations (service p) (scope op)) = Ok tt ->
    provisioned pid (handlers (service p) (scope op))
      (assigned pid (with_requirements reqs) op1) = (provs, op3) ->
    registerAssociated (register w fuel) SideEffects pid
      (sideEffectsMap op pid) (assigned pid (with_registered provs) op3)
    = (r5, op5) ->
    failed r5 r ->
    register_run w fuel pid op r op5
| run_done p v reqs op1 provs op3 effects op5 final :
    get pid (provisionables op) = Some p -> registered p = false ->
    fst (validate (ajv w) (schemaId (service p)) (VObj (config p)) true)
    = Ok v ->
    registerAssociated (register w fuel) Requirements pid
      (requirementsMap op pid) op = (Ok reqs, op1) ->
    check_requirements (type (service p)) reqs
      (associations (service p) (scope op)) = Ok tt ->
    provisioned pid (handlers (service p) (scope op))
      (assigned pid (with_requirements reqs) op1) = (provs, op3) ->
    registerAssociated (register w fuel) SideEffects pid
      (sideEffectsMap op pid) (assigned pid (with_registered provs) op3)
    = (Ok effects, op5) ->
    get pid (provisionables (assigned pid (with_sideEffects effects) op5))
    = Some final ->
    register_run w fuel pid op (Ok (provisions final))
      (assigned pid (with_sideEffects effects) op5).

(** A rank that decreases along every edge, requirement or side effect,
    out of every node of the operation: the association graph has no cycle. *)
Definition acyclicb (rank : string -> nat) (op : StageOperation) : bool :=
  forallb
    (fun pid =>
       forallb (fun link => Nat.ltb (rank (l_target link)) (rank pid))
         (requirementsMap op pid ++ sideEffectsMap op pid)%list)
    (map fst (provisionables op)).

(** How often the scope handler of a registered node should have run. *)
Definition handled (p : Provisionable) (sc : ServiceScopeChoice) : nat :=
  match handlers (service p) sc with
  | Some _ => 1
  | None => 0
  end.

(** The log agrees with the flags: the scope handler of a node has run
    once if the node is registered and has one, and not at all otherwise. *)
Definition once (op : StageOperation) : Prop :=
  forall pid p,
    get pid (provisionables op) = Some p ->
    scope_calls pid (calls op)
    = if registered p then handled p (scope op) else 0.

(** Nodes of rank [k] and above are where they were, and their scope
    handlers have not run in between. *)
Definition untouched_from (rank : string -> nat) (k : nat)
  (a b : StageOperation) : Prop :=
  forall q, k <= rank q ->
            get q (provisionables b) = get q (provisionables a)
            /\ scope_calls q (calls b) = scope_calls q (calls a).

(** The same for every node but [pid]. *)
Definition untouched_but (rank : string -> nat) (pid : string)
  (a b : StageOperation) : Prop :=
  forall q, q <> pid -> rank pid <= rank q ->
            get q (provisionables b) = get q (provisionables a)
            /\ scope_calls q (calls b) = scope_calls q (calls a).

(** A freshly constructed operation: nothing registered, nothing logged. *)
Definition fresh (op : StageOperation) : Prop :=
  calls op = []
  /\ forallb (fun entry => negb (registered (snd entry))) (provisionables op)
     = true.

(** What a call on a node of rank below [k] does to an acyclic operation. *)
Definition respects rank k (a b : StageOperation) : Prop :=
  acyclicb rank a = true ->
  evolves a b /\ untouched_from rank k a b /\ (once a -> once b).





(** The association [a] of [owner] applies to [linked]: the type filter is
    unset (or empty) or is the type of the linked service, and the
    predicate, when there is one, holds of the two configurations. *)
Definition applies (owner : Provisionable) (a : Association)
  (linked : Provisionable) : bool :=
  match a_with a with
  | Some t => (t =? "") || (type (service linked) =? t)
  | None => true
  end
  && match a_where a with
     | Some isAssociated => isAssociated (config owner) (config linked)
     | None => true
     end.

(** The triples the three nested loops of [setupProvisionables] visit, in
    the order they visit them. *)
Definition candidates (nodes : list Provisionable) (sc : ServiceScopeChoice)
  : list (Provisionable * (string * Association) * Provisionable) :=
  flat_map
    (fun owner =>
       flat_map (fun entry => map (fun linked => (owner, entry, linked)) nodes)
         (associations (service owner) sc))
    nodes.

Definition edge_of
  (c : Provisionable * (string * Association) * Provisionable)
  : AssociatedProvisionable :=
  let '(_, entry, linked) := c in
  {| l_name := fst entry; l_target := id linked;
     l_handler := a_handler (snd entry) |}.

(** The candidates that become edges of [pid], requirements or side
    effects. *)
Definition selected (requirement : bool) (pid : string)
  (c : Provisionable * (string * Association) * Provisionable) : bool :=
  let '(owner, entry, linked) := c in
  (id owner =? pid) && applies owner (snd entry) linked
  && Bool.eqb (a_requirement (snd entry)) requirement.

(** The body of the innermost loop, on a candidate. *)
Definition link_candidate (op : StageOperation)
  (c : Provisionable * (string * Association) * Provisionable) : StageOperation :=
  let '(owner, entry, linked) := c in
  link owner (fst entry) (snd entry) op linked.

(** The map the first half of [setupProvisionables] builds: distinct keys,
    every object stored under its own id, nothing registered. *)
Definition keyed (ps : list (string * Provisionable)) : Prop :=
  NoDup (map fst ps)
  /\ forall k p, In (k, p) ps -> k = id p /\ registered p = false.

(** The members [JSON.stringify] prints: those whose value is not
    [undefined]. *)
Definition printed (o : obj) : obj :=
  filter (fun member => match snd member with
                        | VUndefined => false
                        | _ => true
                        end) o.

(** ** Schemas *)

(** The values lodash [merge] assigns as they are. *)
Definition scalar (v : value) : bool :=
  match v with
  | VNull | VBool _ | VNum _ | VStr _ => true
  | _ => false
  end.

Fixpoint distinct (keys : list string) : bool :=
  match keys with
  | [] => true
  | k :: keys' => negb (existsb (String.eqb k) keys') && distinct keys'
  end.

(** A value as JavaScript holds it: no object, at any depth, has a key
    twice. *)
Fixpoint wellformed (v : value) : bool :=
  match v with
  | VArr items => forallb wellformed items
  | VObj props =>
      distinct (map fst props)
      && forallb (fun member => wellformed (snd member)) props
  | _ => true
  end.

Definition properties_of (schema : Schema.JsonSchema) : obj :=
  match Schema.properties schema with Some o => o | None => [] end.

Definition required_of (schema : Schema.JsonSchema) : list string :=
  match Schema.required schema with Some l => l | None => [] end.

(** ** Order of provisioning *)


(** The edges of [owner] in one of the two sets: association by
    association in declaration order and, for each, the nodes it applies
    to in the order of the node set. *)
Definition links_of (nodes : list Provisionable) (sc : ServiceScopeChoice)
  (requirement : bool) (owner : Provisionable) : list AssociatedProvisionable :=
  flat_map
    (fun entry =>
       map (fun linked => edge_of (owner, entry, linked))
         (filter (applies owner (snd entry)) nodes))
    (filter (fun entry => Bool.eqb (a_requirement (snd entry)) requirement)
       (associations (service owner) sc)).

(** ** Error paths *)

Definition slashless (s : string) : bool :=
  forallb (fun c => negb (Ascii.eqb c "/"%char)) (list_ascii_of_string s).

(** The JSON pointer of a list of property names, as Ajv writes an
    [instancePath]. *)
Fixpoint pointer (segments : list string) : string :=
  match segments with
  | [] => ""
  | s :: rest => "/" ++ s ++ pointer rest
  end.

Definition conditional (e : AjvErrorObject) : bool :=
  existsb (String.eqb (keyword e)) ["if"; "then"].

(** ** Digests *)

Definition hex_char (c : ascii) : bool :=
  existsb (Ascii.eqb c) (list_ascii_of_string "0123456789abcdef").

Definition hex_string (s : string) : bool :=
  forallb hex_char (list_ascii_of_string s).

(** The schema [{}]. *)
Definition empty_schema : Schema.JsonSchema :=
  {| Schema.properties := None; Schema.required := None; Schema.keywords := [] |}.

(** A schema with its properties spelled out and its [required] list
    without repetition. *)
Definition normalised (schema : Schema.JsonSchema) : Schema.JsonSchema :=
  {| Schema.properties := Some (properties_of schema);
     Schema.required := Some (uniq (required_of schema));
     Schema.keywords := Schema.keywords schema |}.

(** ** JSON texts *)













(** ** Association handlers in the log *)

Definition is_owned (pid : string) (e : Event) : bool :=
  match e with
  | AssocCall _ owner _ _ => owner =? pid
  | ScopeCall _ => false
  end.

(** The calls of association handlers made for the node [pid], in order. *)
Definition owned (pid : string) (log : list Event) : list Event :=
  filter (is_owned pid) log.

Definition edge_event (phase : Phase) (pid : string)
  (link : AssociatedProvisionable) : Event :=
  AssocCall phase pid (l_name link) (l_target link).

(** One call per edge of the node: the requirement edges in order, then
    the side-effect edges in order. *)
Definition edge_events (op : StageOperation) (pid : string) : list Event :=
  (map (edge_event Requirements pid) (requirementsMap op pid)
     ++ map (edge_event SideEffects pid) (sideEffectsMap op pid))%list.

(** Below rank [k] the log agrees with the flags: a registered node has
    had one call per edge, an unregistered node none. *)
Definition tidy (rank : string -> nat) (k : nat) (op : StageOperation) : Prop :=
  forall pid p,
    rank pid < k -> get pid (provisionables op) = Some p ->
    owned pid (calls op) = if registered p then edge_events op pid else [].

(** No association handler has been called for a node of rank [k] or
    above, [pid] apart. *)
Definition calm (rank : string -> nat) (k : nat) (pid : string)
  (a b : StageOperation) : Prop :=
  forall q, q <> pid -> k <= rank q -> owned q (calls b) = owned q (calls a).

End Spec.
(* ================================================================== *)
(** * Properties *)
(* ================================================================== *)

(** ** Insertion-ordered objects *)

Section ObjectFacts.
Import JS.
Context {A : Type}.
Implicit Types (k : string) (o : list (string * A)).

Lemma get_set_same k (v : A) o : get k (set k v o) = Some v.
Proof.
  induction o as [|[k' v'] o IH]; simpl.
  - now rewrite String.eqb_refl.
  - destruct (k =? k') eqn:E; simpl; rewrite ?String.eqb_refl, ?E; auto.
Qed.

Lemma get_set_other k k' (v : A) o : k <> k' -> get k (set k' v o) = get k o.
Proof.
  intros Hne. apply String.eqb_neq in Hne.
  induction o as [|[k2 v2] o IH]; simpl.
  - now rewrite Hne.
  - destruct (k' =? k2) eqn:E; simpl.
    + apply String.eqb_eq in E; subst. now rewrite Hne.
    + destruct (k =? k2); auto.
Qed.

Lemma get_set k k' (v : A) o :
  get k (set k' v o) = if k =? k' then Some v else get k o.
Proof.
  destruct (k =? k') eqn:E.
  - apply String.eqb_eq in E; subst. apply get_set_same.
  - apply String.eqb_neq in E. now apply get_set_other.
Qed.

Lemma keys_set_present k (v v' : A) o :
  get k o = Some v' -> map fst (set k v o) = map fst o.
Proof.
  induction o as [|[k' x] o IH]; simpl; [discriminate|].
  destruct (k =? k') eqn:E; simpl.
  - apply String.eqb_eq in E; now subst.
  - intros H. now rewrite IH.
Qed.

Lemma get_In k (v : A) o : get k o = Some v -> In (k, v) o.
Proof.
  induction o as [|[k' x] o IH]; simpl; [discriminate|].
  destruct (k =? k') eqn:E.
  - apply String.eqb_eq in E. intros [= ->]. left. now subst.
  - auto.
Qed.

Lemma get_None_notin k o : get k o = None <-> ~ In k (map fst o).
Proof.
  induction o as [|[k' x] o IH]; simpl.
  - tauto.
  - destruct (k =? k') eqn:E.
    + apply String.eqb_eq in E. subst. split; [discriminate|]. tauto.
    + apply String.eqb_neq in E. rewrite IH. split.
      * intros H [H1|H1]; [now apply E|tauto].
      * tauto.
Qed.

Lemma get_Some_in_keys k (v : A) o : get k o = Some v -> In k (map fst o).
Proof.
  intros H. apply get_In in H. now apply (in_map fst) in H.
Qed.

Lemma in_keys_get k o : In k (map fst o) -> exists v, get k o = Some v.
Proof.
  intros H. destruct (get k o) eqn:E; [eauto|].
  now apply get_None_notin in E.
Qed.

Lemma NoDup_get k (v : A) o :
  NoDup (map fst o) -> In (k, v) o -> get k o = Some v.
Proof.
  induction o as [|[k' x] o IH]; simpl; [tauto|].
  intros Hnd [H|H].
  - inversion H; subst. now rewrite String.eqb_refl.
  - inversion Hnd; subst. destruct (k =? k') eqn:E.
    + apply String.eqb_eq in E. subst. exfalso. apply H2.
      now apply (in_map fst) in H.
    + auto.
Qed.

End ObjectFacts.

Import JS.

(** ** lodash [uniqBy] and [uniq] *)

Section UniqBy.
Context {A : Type} (key : A -> string).

Lemma existsb_eqb_In (k : string) (seen : list string) :
  existsb (String.eqb k) seen = true <-> In k seen.
Proof.
  rewrite existsb_exists. split.
  - intros (y & Hy & E). apply String.eqb_eq in E. now subst.
  - intros H. exists k. split; [exact H|apply String.eqb_refl].
Qed.

Lemma uniqBy_from_In seen l x :
  In x (uniqBy_from key seen l) -> In x l /\ ~ In (key x) seen.
Proof.
  revert seen. induction l as [|y l IH]; intros seen; simpl; [tauto|].
  destruct (existsb (String.eqb (key y)) seen) eqn:E.
  - intros H. destruct (IH _ H). auto.
  - intros [<-|H].
    + split; [now left|]. intros Hin. apply existsb_eqb_In in Hin. congruence.
    + destruct (IH _ H) as [H1 H2]. split; [now right|].
      intros Hin. apply H2. now right.
Qed.

Lemma uniqBy_from_complete seen l x :
  In x l -> In (key x) seen
            \/ exists y, In y (uniqBy_from key seen l) /\ key y = key x.
Proof.
  revert seen. induction l as [|y l IH]; intros seen; simpl; [tauto|].
  intros [->|H].
  - destruct (existsb (String.eqb (key x)) seen) eqn:E.
    + left. now apply existsb_eqb_In.
    + right. exists x. split; [now left|reflexivity].
  - destruct (existsb (String.eqb (key y)) seen) eqn:E.
    + now apply IH.
    + destruct (IH (key y :: seen) H) as [[Hk|Hk]|(z & Hz & Hk)].
      * right. exists y. split; [now left|exact Hk].
      * now left.
      * right. exists z. split; [now right|exact Hk].
Qed.

Lemma uniqBy_from_NoDup seen l : NoDup (map key (uniqBy_from key seen l)).
Proof.
  revert seen. induction l as [|y l IH]; intros seen; simpl; [constructor|].
  destruct (existsb (String.eqb (key y)) seen) eqn:E; [apply IH|].
  simpl. constructor; [|apply IH].
  intros Hin. apply in_map_iff in Hin as (z & Hz & Hin).
  apply uniqBy_from_In in Hin as [_ Hn]. apply Hn. left. congruence.
Qed.


End UniqBy.

Lemma uniqBy_In {A : Type} (l : list A) key x : In x (uniqBy l key) -> In x l.
Proof. intros H. now apply uniqBy_from_In in H. Qed.



Lemma uniq_from_uniqBy seen l : uniq_from seen l = uniqBy_from (fun x => x) seen l.
Proof.
  revert seen. induction l as [|x l IH]; intros seen; simpl; [reflexivity|].
  now rewrite !IH.
Qed.

Lemma uniq_In l x : In x (uniq l) <-> In x l.
Proof.
  unfold uniq. rewrite uniq_from_uniqBy. split.
  - intros H. now apply uniqBy_from_In in H.
  - intros H. destruct (uniqBy_from_complete (fun x => x) [] l x H)
      as [[]|(y & Hy & ->)]. exact Hy.
Qed.

Lemma uniq_NoDup l : NoDup (uniq l).
Proof.
  unfold uniq. rewrite uniq_from_uniqBy.
  rewrite <- (map_id (uniqBy_from _ _ _)). apply uniqBy_from_NoDup.
Qed.


(** ** The recursive registration: what every call preserves *)

Import JS Errors Service Validation Operation Spec Examples.
Local Open Scope op_scope.

Lemma bind_inv {A B : Type} (m : M A) (f : A -> M B) op r op' :
  bind m f op = (r, op') ->
  (exists a op1, m op = (Ok a, op1) /\ f a op1 = (r, op'))
  \/ (exists e, m op = (Throw e, op') /\ r = Throw e)
  \/ (m op = (Diverge, op') /\ r = Diverge).
Proof.
  unfold bind. destruct (m op) as [[a|e|] op1]; intros H.
  - left; eauto.
  - right; left. inversion H; subst; eauto.
  - right; right. inversion H; subst; eauto.
Qed.

Lemma bind_ok {A B : Type} (m : M A) (f : A -> M B) op a op1 :
  m op = (Ok a, op1) -> bind m f op = f a op1.
Proof. unfold bind. now intros ->. Qed.

Lemma bind_throw {A B : Type} (m : M A) (f : A -> M B) op e op1 :
  m op = (Throw e, op1) -> bind m f op = (Throw e, op1).
Proof. unfold bind. now intros ->. Qed.

Lemma bind_diverge {A B : Type} (m : M A) (f : A -> M B) op op1 :
  m op = (Diverge, op1) -> bind m f op = (Diverge, op1).
Proof. unfold bind. now intros ->. Qed.

Lemma evolves_refl a : evolves a a.
Proof.
  repeat split; auto.
  - exists []. now rewrite app_nil_r.
  - intros pid p H. exists p. repeat split; auto.
Qed.

Lemma evolves_trans a b c : evolves a b -> evolves b c -> evolves a c.
Proof.
  intros (S1 & R1 & E1 & [l1 L1] & K1 & P1) (S2 & R2 & E2 & [l2 L2] & K2 & P2).
  repeat split; try congruence.
  - exists (l1 ++ l2)%list. rewrite L2, L1. now rewrite app_assoc.
  - intros pid p H. destruct (P1 _ _ H) as (p1 & G1 & A1 & B1 & C1 & D1 & F1).
    destruct (P2 _ _ G1) as (p2 & G2 & A2 & B2 & C2 & D2 & F2).
    exists p2. repeat split; try congruence.
    intros Hr. specialize (F1 Hr). subst p1. now apply F2.
Qed.

Lemma evolves_after_call a b st e :
  evolves a b -> evolves a (after_call st e b).
Proof.
  intros H. apply (evolves_trans _ _ _ H).
  repeat split; auto.
  - simpl. now exists [e].
  - intros pid p Hg. exists p. repeat split; auto.
Qed.

(** An [Object.assign] on an object that was not registered when the call
    started. *)
Lemma evolves_update a b pid p0 p f :
  evolves a b ->
  get pid (provisionables a) = Some p0 -> registered p0 = false ->
  get pid (provisionables b) = Some p ->
  service (f p) = service p -> config (f p) = config p ->
  id (f p) = id p -> resourceId (f p) = resourceId p ->
  evolves a (set_provisionables (set pid (f p) (provisionables b)) b).
Proof.
  intros (S1 & R1 & E1 & L1 & K1 & P1) H0 Hr Hb Hs Hc Hi Hri.
  repeat split; simpl; auto.
  - rewrite <- K1. eapply keys_set_present; eauto.
  - intros q pq Hq. rewrite get_set. destruct (q =? pid) eqn:E.
    + apply String.eqb_eq in E. subst q.
      rewrite H0 in Hq. inversion Hq; subst pq.
      destruct (P1 _ _ H0) as (p' & G & A1 & B1 & C1 & D1 & _).
      rewrite Hb in G. inversion G; subst p'.
      exists (f p). repeat split; try congruence.
    + destruct (P1 _ _ Hq) as (p' & G & A1 & B1 & C1 & D1 & F1).
      exists p'. repeat split; auto.
Qed.

Lemma this_inv op r op' : this op = (r, op') -> r = Ok op /\ op' = op.
Proof. unfold this. intros H; inversion H; auto. Qed.

Lemma ret_inv {A : Type} (a : A) op r op' :
  ret a op = (r, op') -> r = Ok a /\ op' = op.
Proof. unfold ret. intros H; inversion H; auto. Qed.

Lemma lift_inv {A : Type} (o : Outcome A) op r op' :
  lift o op = (r, op') -> r = o /\ op' = op.
Proof. unfold lift. intros H; inversion H; auto. Qed.

Lemma deref_inv pid op r op' :
  deref pid op = (r, op') ->
  op' = op
  /\ ((exists p, get pid (provisionables op) = Some p /\ r = Ok p)
      \/ (get pid (provisionables op) = None /\ exists e, r = Throw e)).
Proof.
  unfold deref. destruct (get pid (provisionables op)) eqn:E;
    intros H; inversion H; subst; split; eauto.
Qed.

Lemma update_inv pid f op r op' :
  update pid f op = (r, op') ->
  (exists p, get pid (provisionables op) = Some p /\ r = Ok tt
             /\ op' = set_provisionables (set pid (f p) (provisionables op)) op)
  \/ (get pid (provisionables op) = None /\ op' = op /\ exists e, r = Throw e).
Proof.
  unfold update. destruct (get pid (provisionables op)) eqn:E;
    intros H; inversion H; subst; eauto 6.
Qed.

Lemma callHandler_inv pid h op r op' :
  callHandler pid h op = (r, op') ->
  (exists p, get pid (provisionables op) = Some p
             /\ r = Ok (fst (h (view p) (stack op)))
             /\ op' = after_call (snd (h (view p) (stack op))) (ScopeCall pid) op)
  \/ (get pid (provisionables op) = None /\ op' = op /\ exists e, r = Throw e).
Proof.
  unfold callHandler, bind, deref.
  destruct (get pid (provisionables op)) eqn:E.
  - destruct (h (view p) (stack op)) as [out st] eqn:Eh.
    intros H; inversion H; subst. left. exists p. rewrite Eh. simpl. auto.
  - intros H; inversion H; subst. right; eauto.
Qed.

Lemma callAssociation_inv phase pid link v op r op' :
  callAssociation phase pid link v op = (r, op') ->
  (exists target owner,
      get (l_target link) (provisionables op) = Some target
      /\ get pid (provisionables op) = Some owner
      /\ r = Ok (fst (l_handler link (view (with_provisions v target))
                        (stack op) (view owner)))
      /\ op' = after_call
                 (snd (l_handler link (view (with_provisions v target))
                         (stack op) (view owner)))
                 (AssocCall phase pid (l_name link) (l_target link)) op)
  \/ (op' = op /\ exists e, r = Throw e).
Proof.
  unfold callAssociation, bind, deref.
  destruct (get (l_target link) (provisionables op)) as [t|] eqn:Et.
  - destruct (get pid (provisionables op)) as [o|] eqn:Eo.
    + destruct (l_handler link _ _ _) as [out st] eqn:Eh.
      intros H; inversion H; subst. left. exists t, o. rewrite Eh. auto.
    + intros H; inversion H; subst. right; eauto.
  - intros H; inversion H; subst. right; eauto.
Qed.

(** Whatever relation every recursive call and every association call
    respects, the loop over the links respects. *)
Lemma registerLinks_rel (R : StageOperation -> StageOperation -> Prop)
  reg phase pid :
  (forall a, R a a) ->
  (forall a b c, R a b -> R b c -> R a c) ->
  (forall a st name t, R a (after_call st (AssocCall phase pid name t) a)) ->
  forall links,
    (forall link, In link links ->
                  forall op r op', reg (l_target link) op = (r, op') -> R op op') ->
    forall out op r op',
      registerLinks reg phase pid links out op = (r, op') -> R op op'.
Proof.
  intros Hrefl Htrans Hcall links. induction links as [|link rest IH];
    intros Hreg out op r op' H; simpl in H.
  - apply ret_inv in H as [_ ->]. apply Hrefl.
  - apply bind_inv in H as [(v & op1 & H1 & H) | [(e & H1 & _) | (H1 & _)]];
      try (eapply Hreg; [left; reflexivity | exact H1]).
    assert (R op op1) by (eapply Hreg; [left; reflexivity | exact H1]).
    apply bind_inv in H as [(out1 & op2 & H2 & H) | [(e & H2 & _) | (H2 & _)]].
    + apply callAssociation_inv in H2 as [(t & o & _ & _ & _ & ->) | (-> & _)].
      * eapply Htrans; [eassumption|]. eapply Htrans; [apply Hcall|].
        eapply IH; [|exact H]. intros l Hl. apply Hreg. now right.
      * eapply Htrans; [eassumption|].
        eapply IH; [|exact H]. intros l Hl. apply Hreg. now right.
    + apply callAssociation_inv in H2 as [(t & o & _ & _ & _ & ->) | (-> & _)].
      * eapply Htrans; [eassumption|]. apply Hcall.
      * assumption.
    + apply callAssociation_inv in H2 as [(t & o & _ & _ & _ & ->) | (-> & _)].
      * eapply Htrans; [eassumption|]. apply Hcall.
      * assumption.
Qed.

(** Each primitive step of [register], as a move from a state that evolved
    from [op] to another one. *)
Lemma ev_deref op pid a r b :
  deref pid a = (r, b) -> evolves op a -> evolves op b.
Proof. intros H E. now apply deref_inv in H as [-> _]. Qed.

Lemma ev_this op a r b : this a = (r, b) -> evolves op a -> evolves op b.
Proof. intros H E. now apply this_inv in H as [_ ->]. Qed.

Lemma ev_lift {A : Type} op (o : Outcome A) a r b :
  lift o a = (r, b) -> evolves op a -> evolves op b.
Proof. intros H E. now apply lift_inv in H as [_ ->]. Qed.

Lemma ev_ret {A : Type} op (v : A) a r b :
  ret v a = (r, b) -> evolves op a -> evolves op b.
Proof. intros H E. now apply ret_inv in H as [_ ->]. Qed.

Lemma static_requirements r : static (with_requirements r).
Proof. intros p; simpl; auto. Qed.
Lemma static_registered v : static (with_registered v).
Proof. intros p; simpl; auto. Qed.
Lemma static_sideEffects r : static (with_sideEffects r).
Proof. intros p; simpl; auto. Qed.

Lemma ev_update op pid p0 f a r b :
  update pid f a = (r, b) -> evolves op a ->
  get pid (provisionables op) = Some p0 -> registered p0 = false ->
  static f -> evolves op b.
Proof.
  intros H E H0 Hr Hf.
  apply update_inv in H as [(p & Hg & _ & ->) | (_ & -> & _)]; [|exact E].
  destruct (Hf p) as (F1 & F2 & F3 & F4). eapply evolves_update; eauto.
Qed.

Lemma ev_handler op pid (h : option ProvisionHandler) v a r b :
  match h with
  | Some registrationHandler => callHandler pid registrationHandler
  | None => ret v
  end a = (r, b) ->
  evolves op a -> evolves op b.
Proof.
  intros H E. destruct h as [h|].
  - apply callHandler_inv in H as [(p & _ & _ & ->) | (_ & -> & _)]; [|exact E].
    now apply evolves_after_call.
  - now apply ret_inv in H as [_ ->].
Qed.

Lemma ev_associated op reg phase pid links a r b :
  (forall t x r' y, reg t x = (r', y) -> evolves x y) ->
  registerAssociated reg phase pid links a = (r, b) ->
  evolves op a -> evolves op b.
Proof.
  intros Hreg H E. apply (evolves_trans _ _ _ E).
  unfold registerAssociated in H.
  eapply (registerLinks_rel evolves); try exact H.
  - apply evolves_refl.
  - apply evolves_trans.
  - intros x st name t. apply evolves_after_call, evolves_refl.
  - intros link _. apply Hreg.
Qed.

Ltac ev_step H E :=
  let H1 := fresh "Hstep" in
  let E' := fresh "E" in
  apply bind_inv in H as [(?x & ?op1 & H1 & H) | [(?e & H1 & _) | (H1 & _)]];
  [ first [ pose proof (ev_deref _ _ _ _ _ H1 E) as E'
          | pose proof (ev_this _ _ _ _ H1 E) as E'
          | pose proof (ev_lift _ _ _ _ _ H1 E) as E'
          | pose proof (ev_handler _ _ _ _ _ _ _ H1 E) as E'
          | (assert (E' : evolves _ _)
              by (eapply ev_update; [exact H1 | exact E | eauto
                                     | eauto | auto using static_requirements,
                                         static_registered, static_sideEffects]))
          | (assert (E' : evolves _ _)
              by (eapply ev_associated; [|exact H1|exact E]; eauto)) ];
    clear H1 E; rename E' into E
  | solve [ eauto using ev_deref, ev_this, ev_lift, ev_handler, ev_update,
              ev_associated, static_requirements, static_registered,
              static_sideEffects ] .. ].

(** Every call of [register] leaves a state that evolved from the one it
    started in. *)
Lemma register_evolves w fuel :
  forall pid op r op', register w fuel pid op = (r, op') -> evolves op op'.
Proof.
  induction fuel as [|fuel IH]; intros pid op r op' H.
  - inversion H; subst. apply evolves_refl.
  - cbn [register] in H. pose proof (evolves_refl op) as E.
    apply bind_inv in H as [(p & op1 & H1 & H) | [(e & H1 & _) | (H1 & _)]];
      apply deref_inv in H1 as [-> H1]; try exact E.
    destruct H1 as [(p0 & Hp & [= <-]) | (_ & e & [=])].
    destruct (registered p) eqn:Hreg.
    { now apply ret_inv in H as [_ ->]. }
    repeat (ev_step H E).
    now apply ret_inv in H as [_ ->].
Qed.

Lemma registerAssociated_evolves w fuel phase pid links op r op' :
  registerAssociated (register w fuel) phase pid links op = (r, op') ->
  evolves op op'.
Proof.
  intros H. eapply ev_associated; [|exact H|apply evolves_refl].
  intros t x r' y. apply register_evolves.
Qed.

Lemma evolves_get a b pid p :
  evolves a b -> get pid (provisionables a) = Some p ->
  exists p', get pid (provisionables b) = Some p' /\ service p' = service p.
Proof.
  intros (_ & _ & _ & _ & _ & H) Hg.
  destruct (H _ _ Hg) as (p' & G & S & _). eauto.
Qed.

Lemma evolves_frozen a b pid p :
  evolves a b -> get pid (provisionables a) = Some p -> registered p = true ->
  get pid (provisionables b) = Some p.
Proof.
  intros (_ & _ & _ & _ & _ & H) Hg Hr.
  destruct (H _ _ Hg) as (p' & G & _ & _ & _ & _ & F). now rewrite (F Hr) in G.
Qed.

(** The primitive steps, computed. *)
Lemma deref_eq pid op :
  deref pid op =
  (match get pid (provisionables op) with
   | Some p => Ok p
   | None => Throw (Err "no such provisionable")
   end, op).
Proof. unfold deref. now destruct (get pid (provisionables op)). Qed.

Lemma update_eq pid f op p :
  get pid (provisionables op) = Some p ->
  update pid f op = (Ok tt, assigned pid f op).
Proof. unfold update, assigned. now intros ->. Qed.

Lemma assigned_self pid f op p :
  get pid (provisionables op) = Some p ->
  get pid (provisionables (assigned pid f op)) = Some (f p).
Proof. unfold assigned. intros H. rewrite H. simpl. apply get_set_same. Qed.

Lemma assigned_other pid f op q :
  q <> pid ->
  get q (provisionables (assigned pid f op)) = get q (provisionables op).
Proof.
  unfold assigned. intros H. destruct (get pid (provisionables op)); auto.
  simpl. now apply get_set_other.
Qed.

Lemma assigned_static pid f op :
  scope (assigned pid f op) = scope op
  /\ requirementsMap (assigned pid f op) = requirementsMap op
  /\ sideEffectsMap (assigned pid f op) = sideEffectsMap op
  /\ calls (assigned pid f op) = calls op
  /\ stack (assigned pid f op) = stack op.
Proof. unfold assigned. destruct (get pid (provisionables op)); simpl; auto. Qed.

Lemma own_handler_eq pid (h : option ProvisionHandler) op p :
  get pid (provisionables op) = Some p ->
  match h with
  | Some registrationHandler => callHandler pid registrationHandler
  | None => ret (VObj [])
  end op = (Ok (fst (provisioned pid h op)), snd (provisioned pid h op)).
Proof.
  intros Hg. unfold provisioned. rewrite Hg. destruct h as [h|]; [|reflexivity].
  unfold callHandler, bind. rewrite deref_eq, Hg.
  now destruct (h (view p) (stack op)).
Qed.

Lemma provisioned_static pid h op :
  provisionables (snd (provisioned pid h op)) = provisionables op
  /\ scope (snd (provisioned pid h op)) = scope op
  /\ requirementsMap (snd (provisioned pid h op)) = requirementsMap op
  /\ sideEffectsMap (snd (provisioned pid h op)) = sideEffectsMap op.
Proof.
  unfold provisioned. destruct h; destruct (get pid (provisionables op)); simpl; auto.
Qed.

Lemma register_run_sound w fuel pid op r op' :
  register w (S fuel) pid op = (r, op') -> register_run w fuel pid op r op'.
Proof.
  intros H. cbn [register] in H. unfold bind at 1 in H. rewrite deref_eq in H.
  destruct (get pid (provisionables op)) as [p|] eqn:Hp.
  2: { inversion H; subst. now apply run_unknown. }
  destruct (registered p) eqn:Hreg.
  { apply ret_inv in H as [-> ->]. now apply run_memo. }
  apply bind_inv in H as [(v & op1 & H1 & H) | [(e & H1 & ->) | (H1 & ->)]];
    apply lift_inv in H1 as [Hv ->].
  2,3: eapply run_invalid; eauto; rewrite <- Hv; simpl; auto.
  unfold bind at 1, this at 1 in H.
  apply bind_inv in H as [(reqs & op1 & H1 & H) | [(e & H1 & ->) | (H1 & ->)]].
  2,3: eapply run_requirements_failed; eauto; simpl; auto.
  pose proof (registerAssociated_evolves _ _ _ _ _ _ _ _ H1) as E1.
  destruct (evolves_get _ _ _ _ E1 Hp) as (p1 & Hg1 & Hs1).
  rewrite (bind_ok _ _ _ _ _ (update_eq _ (with_requirements reqs) _ _ Hg1)) in H.
  pose proof (assigned_self _ (with_requirements reqs) _ _ Hg1) as Hg2.
  destruct (assigned_static pid (with_requirements reqs) op1) as (S2 & R2 & F2 & _).
  destruct E1 as (S1 & R1 & F1 & _).
  remember (assigned pid (with_requirements reqs) op1) as op2 eqn:Eop2.
  unfold bind at 1, this at 1 in H. unfold bind at 1 in H.
  rewrite deref_eq, Hg2 in H.
  unfold assertRequirementsSatisfied in H. simpl in H.
  rewrite Hs1, S2, S1 in H.
  apply bind_inv in H as [(u & op3 & H3 & H) | [(e & H3 & ->) | (H3 & ->)]];
    apply lift_inv in H3 as [Hc ->].
  2,3: subst op2; eapply run_gate; eauto; rewrite <- Hc; simpl; auto.
  rewrite (bind_ok _ _ _ _ _ (own_handler_eq _ _ _ _ Hg2)) in H.
  destruct (provisioned pid (handlers (service p) (scope op)) op2)
    as [provs op3] eqn:Eprov. simpl in H.
  destruct (provisioned_static pid (handlers (service p) (scope op)) op2)
    as (P3 & S3 & R3 & F3). rewrite Eprov in P3, S3, R3, F3. simpl in *.
  assert (Hg3 : get pid (provisionables op3) = Some (with_requirements reqs p1))
    by now rewrite P3.
  rewrite (bind_ok _ _ _ _ _ (update_eq _ (with_registered provs) _ _ Hg3)) in H.
  pose proof (assigned_self _ (with_registered provs) _ _ Hg3) as Hg4.
  destruct (assigned_static pid (with_registered provs) op3) as (S4 & R4 & F4 & _).
  unfold bind at 1, this at 1 in H. rewrite F4, F3, F2, F1 in H.
  apply bind_inv in H as [(effects & op5 & H5 & H) | [(e & H5 & ->) | (H5 & ->)]].
  2,3: subst op2; destruct u; eapply run_effects_failed; eauto; simpl; auto.
  pose proof (registerAssociated_evolves _ _ _ _ _ _ _ _ H5) as E5.
  destruct (evolves_get _ _ _ _ E5 Hg4) as (p5 & Hg5 & _).
  rewrite (bind_ok _ _ _ _ _ (update_eq _ (with_sideEffects effects) _ _ Hg5)) in H.
  pose proof (assigned_self _ (with_sideEffects effects) _ _ Hg5) as Hg6.
  unfold bind at 1 in H. rewrite deref_eq, Hg6 in H.
  apply ret_inv in H as [-> ->]. destruct u. subst op2.
  eapply run_done; eauto.
Qed.

Lemma register_run_det w fuel pid op r1 o1 r2 o2 :
  register_run w fuel pid op r1 o1 -> register_run w fuel pid op r2 o2 ->
  r1 = r2 /\ o1 = o2.
Proof.
  intros H1 H2.
  destruct H1; destruct H2;
    repeat match goal with
      | A : ?x = _, B : ?x = _ |- _ =>
          rewrite A in B; inversion B; subst; clear B
      | A : failed _ _ |- _ => red in A
      | A : ?x = _, B : context [match ?x with _ => _ end] |- _ =>
          rewrite A in B
      end;
    simpl in *; try contradiction; subst; try discriminate; auto;
    repeat match goal with
      | A : match ?x with _ => _ end |- _ => destruct x
      end;
    try contradiction; subst; auto.
Qed.

Lemma register_run_complete w fuel pid op r op' :
  register_run w fuel pid op r op' -> register w (S fuel) pid op = (r, op').
Proof.
  intros H. destruct (register w (S fuel) pid op) as [r0 op0] eqn:E.
  apply register_run_sound in E.
  destruct (register_run_det _ _ _ _ _ _ _ _ E H) as [-> ->]. reflexivity.
Qed.

(** ** Acyclic graphs: every scope handler runs once *)

Lemma scope_calls_app q l l' :
  scope_calls q (l ++ l') = scope_calls q l + scope_calls q l'.
Proof. unfold scope_calls. now rewrite filter_app, length_app. Qed.

Lemma scope_calls_after_assoc q st phase o n t op :
  scope_calls q (calls (after_call st (AssocCall phase o n t) op))
  = scope_calls q (calls op).
Proof. simpl. rewrite scope_calls_app. unfold scope_calls at 2. simpl. lia. Qed.

Lemma scope_calls_after_scope q st pid op :
  scope_calls q (calls (after_call st (ScopeCall pid) op))
  = scope_calls q (calls op) + (if pid =? q then 1 else 0).
Proof.
  simpl. rewrite scope_calls_app. unfold scope_calls at 2. simpl.
  now destruct (pid =? q).
Qed.

Lemma acyclicb_evolves rank a b :
  evolves a b -> acyclicb rank b = acyclicb rank a.
Proof.
  intros (_ & R & E & _ & K & _). unfold acyclicb. now rewrite R, E, K.
Qed.

Lemma acyclicb_edge rank op pid p link :
  acyclicb rank op = true ->
  get pid (provisionables op) = Some p ->
  In link (requirementsMap op pid) \/ In link (sideEffectsMap op pid) ->
  rank (l_target link) < rank pid.
Proof.
  unfold acyclicb. intros H Hg Hin.
  rewrite forallb_forall in H. specialize (H pid (get_Some_in_keys _ _ _ Hg)).
  rewrite forallb_forall in H. apply Nat.ltb_lt, H, in_or_app, Hin.
Qed.

Lemma respects_refl rank k a : respects rank k a a.
Proof.
  intros _. split; [apply evolves_refl|]. split; [|auto]. intros q _. auto.
Qed.

Lemma respects_trans rank k a b c :
  respects rank k a b -> respects rank k b c -> respects rank k a c.
Proof.
  intros H1 H2 Ha. destruct (H1 Ha) as (E1 & U1 & O1).
  assert (Hb : acyclicb rank b = true) by now rewrite (acyclicb_evolves _ _ _ E1).
  destruct (H2 Hb) as (E2 & U2 & O2).
  split; [eapply evolves_trans; eauto|]. split; [|auto].
  intros q Hq. destruct (U1 q Hq) as [A1 B1]. destruct (U2 q Hq) as [A2 B2].
  split; congruence.
Qed.

Lemma once_after_assoc st phase o n t op :
  once op -> once (after_call st (AssocCall phase o n t) op).
Proof.
  intros H pid p Hg. rewrite scope_calls_after_assoc. now apply H.
Qed.

Lemma respects_after_assoc rank k st phase o n t a :
  respects rank k a (after_call st (AssocCall phase o n t) a).
Proof.
  intros _. split; [apply evolves_after_call, evolves_refl|].
  split; [|apply once_after_assoc].
  intros q _. split; [reflexivity|apply scope_calls_after_assoc].
Qed.

Lemma untouched_but_from rank t k a b :
  rank t < k -> untouched_but rank t a b -> untouched_from rank k a b.
Proof.
  intros Hlt H q Hq. apply H; [|lia]. intros ->. lia.
Qed.

Lemma untouched_from_but rank pid a b :
  untouched_from rank (rank pid) a b -> untouched_but rank pid a b.
Proof. intros H q _ Hq. now apply H. Qed.

Lemma assigned_keys pid f op :
  map fst (provisionables (assigned pid f op)) = map fst (provisionables op).
Proof.
  unfold assigned. destruct (get pid (provisionables op)) eqn:E; auto.
  simpl. eapply keys_set_present; eauto.
Qed.

Lemma acyclicb_assigned rank pid f op :
  acyclicb rank (assigned pid f op) = acyclicb rank op.
Proof.
  unfold acyclicb. rewrite assigned_keys.
  destruct (assigned_static pid f op) as (_ & -> & -> & _). reflexivity.
Qed.

Lemma acyclicb_provisioned rank pid h op :
  acyclicb rank (snd (provisioned pid h op)) = acyclicb rank op.
Proof.
  unfold acyclicb.
  destruct (provisioned_static pid h op) as (-> & _ & -> & ->). reflexivity.
Qed.

Lemma provisioned_calls pid h op q :
  scope_calls q (calls (snd (provisioned pid h op)))
  = scope_calls q (calls op)
    + match h, get pid (provisionables op) with
      | Some _, Some _ => if pid =? q then 1 else 0
      | _, _ => 0
      end.
Proof.
  unfold provisioned. destruct h; destruct (get pid (provisionables op));
    try (simpl; lia). apply scope_calls_after_scope.
Qed.

Lemma untouched_but_refl rank pid a : untouched_but rank pid a a.
Proof. intros q _ _. auto. Qed.

Lemma untouched_but_trans rank pid a b c :
  untouched_but rank pid a b -> untouched_but rank pid b c ->
  untouched_but rank pid a c.
Proof.
  intros H1 H2 q Hq Hr. destruct (H1 q Hq Hr), (H2 q Hq Hr). split; congruence.
Qed.

Lemma untouched_but_assigned rank pid f a :
  untouched_but rank pid a (assigned pid f a).
Proof.
  intros q Hq _. rewrite (assigned_other _ _ _ _ Hq).
  destruct (assigned_static pid f a) as (_ & _ & _ & -> & _). auto.
Qed.

Lemma untouched_but_provisioned rank pid h a :
  untouched_but rank pid a (snd (provisioned pid h a)).
Proof.
  intros q Hq _. destruct (provisioned_static pid h a) as (-> & _).
  split; [reflexivity|]. rewrite provisioned_calls.
  apply String.eqb_neq in Hq. rewrite String.eqb_sym in Hq. rewrite Hq.
  destruct h; destruct (get pid (provisionables a)); lia.
Qed.

(** An assignment that changes neither flag nor service keeps the log in
    step. *)
Lemma once_assigned pid f op :
  (forall p, registered (f p) = registered p /\ service (f p) = service p) ->
  once op -> once (assigned pid f op).
Proof.
  intros Hf Ho q pq Hq.
  destruct (assigned_static pid f op) as (-> & _ & _ & -> & _).
  destruct (String.eqb_spec q pid) as [->|Hne].
  - destruct (get pid (provisionables op)) as [p|] eqn:Hp.
    + rewrite (assigned_self _ _ _ _ Hp) in Hq. inversion Hq; subst pq.
      destruct (Hf p) as [Hr Hs]. rewrite (Ho _ _ Hp), Hr.
      unfold handled. now rewrite Hs.
    + unfold assigned in Hq. rewrite Hp in Hq. congruence.
  - rewrite (assigned_other _ _ _ _ Hne) in Hq. now apply Ho.
Qed.

(** The node's own provisioning, followed by the assignment of the
    provisions and of the flag. *)
Lemma once_provisioned pid op p provs op3 :
  once op -> get pid (provisionables op) = Some p -> registered p = false ->
  provisioned pid (handlers (service p) (scope op)) op = (provs, op3) ->
  once (assigned pid (with_registered provs) op3).
Proof.
  intros Ho Hp Hr Hpr q pq Hq.
  pose proof (provisioned_static pid (handlers (service p) (scope op)) op) as Hs.
  pose proof (provisioned_calls pid (handlers (service p) (scope op)) op q) as Hc.
  rewrite Hpr in Hs, Hc. simpl in Hs, Hc. destruct Hs as (P3 & S3 & _).
  destruct (assigned_static pid (with_registered provs) op3)
    as (-> & _ & _ & -> & _).
  rewrite Hc, Hp, S3.
  assert (Hp3 : get pid (provisionables op3) = Some p) by now rewrite P3.
  destruct (String.eqb_spec q pid) as [->|Hne].
  - rewrite (assigned_self _ _ _ _ Hp3) in Hq. inversion Hq; subst pq.
    simpl. rewrite (Ho _ _ Hp), Hr, String.eqb_refl. unfold handled. simpl.
    now destruct (handlers (service p) (scope op)).
  - rewrite (assigned_other _ _ _ _ Hne), P3 in Hq. rewrite (Ho _ _ Hq).
    apply String.eqb_neq in Hne. rewrite String.eqb_sym in Hne. rewrite Hne.
    destruct (handlers (service p) (scope op)); lia.
Qed.

Lemma flag_requirements r p :
  registered (with_requirements r p) = registered p
  /\ service (with_requirements r p) = service p.
Proof. split; reflexivity. Qed.

Lemma flag_sideEffects r p :
  registered (with_sideEffects r p) = registered p
  /\ service (with_sideEffects r p) = service p.
Proof. split; reflexivity. Qed.

(** The heart of the memoisation argument: in an acyclic graph a call of
    [register] on a node leaves every other node of the same or a higher
    rank alone, and keeps the log in step with the flags. *)
Lemma register_respects w rank fuel :
  forall pid op r op',
    register w fuel pid op = (r, op') ->
    acyclicb rank op = true ->
    untouched_but rank pid op op' /\ (once op -> once op').
Proof.
  induction fuel as [|fuel IH]; intros pid op r op' H Hac.
  { inversion H; subst. split; [|auto]. intros q _ _. auto. }
  assert (Hphase : forall phase links a r1 b p,
             get pid (provisionables a) = Some p ->
             (forall link, In link links ->
                In link (requirementsMap a pid) \/ In link (sideEffectsMap a pid)) ->
             registerAssociated (register w fuel) phase pid links a = (r1, b) ->
             acyclicb rank a = true ->
             evolves a b /\ untouched_from rank (rank pid) a b
             /\ (once a -> once b)).
  { intros phase links a r1 b p Hg Hl Hr Ha0. unfold registerAssociated in Hr.
    assert (Hrank : forall link, In link links -> rank (l_target link) < rank pid)
      by (intros link Hin;
          exact (acyclicb_edge rank a pid p link Ha0 Hg (Hl _ Hin))).
    revert Ha0.
    eapply (registerLinks_rel (respects rank (rank pid))); try exact Hr.
    - apply respects_refl.
    - apply respects_trans.
    - intros; apply respects_after_assoc.
    - intros link Hin x rx y Hx Hax.
      destruct (IH _ _ _ _ Hx Hax) as [U O].
      split; [eapply register_evolves; eauto|]. split; [|exact O].
      eapply untouched_but_from; [|exact U]. now apply Hrank. }
  assert (Hown : forall p reqs op1 provs op3,
             get pid (provisionables op) = Some p -> registered p = false ->
             registerAssociated (register w fuel) Requirements pid
               (requirementsMap op pid) op = (Ok reqs, op1) ->
             provisioned pid (handlers (service p) (scope op))
               (assigned pid (with_requirements reqs) op1) = (provs, op3) ->
             let op4 := assigned pid (with_registered provs) op3 in
             untouched_but rank pid op op4 /\ (once op -> once op4)
             /\ acyclicb rank op4 = true
             /\ sideEffectsMap op4 = sideEffectsMap op
             /\ exists p4, get pid (provisionables op4) = Some p4).
  { intros p reqs op1 provs op3 Hp Hr H1 Hpr op4.
    destruct (Hphase _ _ _ _ _ _ Hp (fun l Hl => or_introl Hl) H1 Hac)
      as (E1 & U1 & O1).
    destruct (U1 pid (le_n _)) as [G1 _]. rewrite Hp in G1.
    pose proof (assigned_self _ (with_requirements reqs) _ _ G1) as G2.
    destruct (assigned_static pid (with_requirements reqs) op1) as (S2 & _ & F2 & _).
    destruct E1 as (S1 & _ & F1 & _).
    pose proof (provisioned_static pid (handlers (service p) (scope op))
                  (assigned pid (with_requirements reqs) op1)) as Hs.
    pose proof (untouched_but_provisioned rank pid
                  (handlers (service p) (scope op))
                  (assigned pid (with_requirements reqs) op1)) as U3.
    pose proof (acyclicb_provisioned rank pid (handlers (service p) (scope op))
                  (assigned pid (with_requirements reqs) op1)) as A3.
    rewrite Hpr in Hs, U3, A3. simpl in Hs, U3, A3. destruct Hs as (P3 & S3 & _ & F3).
    assert (G3 : get pid (provisionables op3) = Some (with_requirements reqs p))
      by now rewrite P3.
    destruct (assigned_static pid (with_registered provs) op3) as (_ & _ & F4 & _).
    split; [|split; [|split; [|split]]].
    - apply (untouched_but_trans rank pid op op1);
        [apply untouched_from_but, U1|].
      apply (untouched_but_trans rank pid op1
               (assigned pid (with_requirements reqs) op1));
        [apply untouched_but_assigned|].
      apply (untouched_but_trans rank pid _ op3); [exact U3|].
      apply untouched_but_assigned.
    - intros Ho.
      apply (once_provisioned pid (assigned pid (with_requirements reqs) op1)
               (with_requirements reqs p) provs op3).
      + apply once_assigned; [apply flag_requirements | exact (O1 Ho)].
      + exact G2.
      + exact Hr.
      + simpl. rewrite S2, S1. exact Hpr.
    - unfold op4. rewrite acyclicb_assigned, A3, acyclicb_assigned.
      now rewrite (acyclicb_evolves rank op op1)
        by (eapply registerAssociated_evolves; eauto).
    - unfold op4. congruence.
    - exists (with_registered provs (with_requirements reqs p)).
      now apply assigned_self. }
  apply register_run_sound in H.
  destruct H as [Hp | p Hp Hr | p r Hp Hr Hv | p v r1 op1 r Hp Hr Hv H1 Hf
                | p v reqs op1 r Hp Hr Hv H1 Hc
                | p v reqs op1 provs op3 r5 op5 r Hp Hr Hv H1 Hc Hpr H5 Hf
                | p v reqs op1 provs op3 effects op5 final Hp Hr Hv H1 Hc Hpr H5 Hfin];
    try (split; [intros q _ _; auto | auto]; fail).
  - (* the requirements failed *)
    destruct (Hphase _ _ _ _ _ _ Hp (fun l Hl => or_introl Hl) H1 Hac)
      as (_ & U & O).
    split; [now apply untouched_from_but | exact O].
  - (* the gate *)
    destruct (Hphase _ _ _ _ _ _ Hp (fun l Hl => or_introl Hl) H1 Hac)
      as (E1 & U1 & O1).
    split.
    + eapply untouched_but_trans; [apply untouched_from_but, U1|].
      apply untouched_but_assigned.
    + intros Ho. apply once_assigned; [apply flag_requirements|auto].
  - (* the side effects failed *)
    destruct (Hown _ _ _ _ _ Hp Hr H1 Hpr) as (U4 & O4 & A4 & F4 & p4 & G4).
    assert (Hl : forall link, In link (sideEffectsMap op pid) ->
                 In link (requirementsMap (assigned pid (with_registered provs) op3) pid)
                 \/ In link (sideEffectsMap (assigned pid (with_registered provs) op3) pid))
      by (intros link Hin; right; now rewrite F4).
    destruct (Hphase _ _ _ _ _ _ G4 Hl H5 A4) as (_ & U5 & O5).
    split; [|auto].
    eapply untouched_but_trans; [exact U4 | apply untouched_from_but, U5].
  - (* done *)
    destruct (Hown _ _ _ _ _ Hp Hr H1 Hpr) as (U4 & O4 & A4 & F4 & p4 & G4).
    assert (Hl : forall link, In link (sideEffectsMap op pid) ->
                 In link (requirementsMap (assigned pid (with_registered provs) op3) pid)
                 \/ In link (sideEffectsMap (assigned pid (with_registered provs) op3) pid))
      by (intros link Hin; right; now rewrite F4).
    destruct (Hphase _ _ _ _ _ _ G4 Hl H5 A4) as (_ & U5 & O5).
    split.
    + eapply untouched_but_trans; [exact U4|].
      eapply untouched_but_trans; [apply untouched_from_but, U5|].
      apply untouched_but_assigned.
    + intros Ho. apply once_assigned; [apply flag_sideEffects|auto].
Qed.

Lemma failed_not_ok {A B : Type} (r1 : Outcome A) (v : B) : ~ failed r1 (Ok v).
Proof. destruct r1; simpl; auto; discriminate. Qed.

(** A call that returns leaves the node registered, holding what was
    returned. *)
Lemma register_ok_registered w fuel pid op v op' :
  register w fuel pid op = (Ok v, op') ->
  exists p', get pid (provisionables op') = Some p'
             /\ registered p' = true /\ provisions p' = v.
Proof.
  destruct fuel as [|fuel]; [discriminate|]. intros H.
  apply register_run_sound in H.
  inversion H as [Hp | p Hp Hr | p r Hp Hr Hv | p v0 r1 op1 r Hp Hr Hv H1 Hf
                | p v0 reqs op1 r Hp Hr Hv H1 Hc
                | p v0 reqs op1 provs op3 r5 op5 r Hp Hr Hv H1 Hc Hpr H5 Hf
                | p v0 reqs op1 provs op3 effects op5 final Hp Hr Hv H1 Hc Hpr H5 Hfin];
    subst; try (exfalso; eapply failed_not_ok; eassumption).
  - eauto.
  - exists final. split; [exact Hfin|]. split; [|reflexivity].
    pose proof (registerAssociated_evolves _ _ _ _ _ _ _ _ H1) as E1.
    destruct (evolves_get _ _ _ _ E1 Hp) as (p1 & G1 & _).
    pose proof (assigned_self _ (with_requirements reqs) _ _ G1) as G2.
    pose proof (provisioned_static pid (handlers (service p) (scope op))
                  (assigned pid (with_requirements reqs) op1)) as Hs.
    rewrite Hpr in Hs. simpl in Hs. destruct Hs as (P3 & _).
    rewrite <- P3 in G2.
    pose proof (assigned_self _ (with_registered provs) _ _ G2) as G4.
    pose proof (registerAssociated_evolves _ _ _ _ _ _ _ _ H5) as E5.
    pose proof (evolves_frozen _ _ _ _ E5 G4 eq_refl) as G5.
    rewrite (assigned_self _ (with_sideEffects effects) _ _ G5) in Hfin.
    inversion Hfin; subst final. reflexivity.
Qed.

Lemma registerAll_inv w fuel pids :
  forall op r op',
    registerAll w fuel pids op = (r, op') ->
    evolves op op'
    /\ (forall rank, acyclicb rank op = true -> once op -> once op')
    /\ (r = Ok tt ->
        forall pid, In pid pids ->
                    exists p', get pid (provisionables op') = Some p'
                               /\ registered p' = true).
Proof.
  induction pids as [|pid rest IH]; intros op r op' H; simpl in H.
  - apply ret_inv in H as [-> ->]. split; [apply evolves_refl|].
    split; [auto|]. intros _ pid [].
  - apply bind_inv in H as [(v & op1 & H1 & H) | [(e & H1 & ->) | (H1 & ->)]].
    + pose proof (register_evolves _ _ _ _ _ _ H1) as E1.
      destruct (IH _ _ _ H) as (E2 & O2 & R2).
      split; [eapply evolves_trans; eauto|]. split.
      * intros rank Hac Ho. apply (O2 rank).
        -- now rewrite (acyclicb_evolves _ _ _ E1).
        -- eapply register_respects; eauto.
      * intros -> q [<-|Hq]; [|now apply R2].
        destruct (register_ok_registered _ _ _ _ _ _ H1) as (p1 & G1 & Hr1 & _).
        exists p1. split; [|exact Hr1]. eapply evolves_frozen; eauto.
    + split; [eapply register_evolves; eauto|]. split; [|discriminate].
      intros rank Hac Ho. eapply register_respects; eauto.
    + split; [eapply register_evolves; eauto|]. split; [|discriminate].
      intros rank Hac Ho. eapply register_respects; eauto.
Qed.


Lemma process_inv w fuel op r op' :
  process w fuel op = (r, op') ->
  (validateEnvironment (environment op) (process_env w) = Ok tt
   /\ exists r1, registerAll w fuel (map fst (provisionables op)) op = (r1, op')
                 /\ match r1 with
                    | Ok _ => r = Ok (stack op')
                    | Throw e => r = Throw e
                    | Diverge => r = Diverge
                    end)
  \/ (failed (validateEnvironment (environment op) (process_env w)) r /\ op' = op).
Proof.
  unfold process. unfold bind at 1, this at 1.
  intros H.
  apply bind_inv in H as [(u & op1 & H1 & H) | [(e & H1 & ->) | (H1 & ->)]];
    apply lift_inv in H1 as [Hv ->].
  2,3: right; rewrite <- Hv; simpl; auto.
  left. destruct u. split; [auto|].
  apply bind_inv in H as [(u & op1 & H1 & H) | [(e & H1 & ->) | (H1 & ->)]].
  - inversion H; subst. exists (Ok u). auto.
  - exists (Throw e). auto.
  - exists Diverge. auto.
Qed.


Lemma validate_converges a s d u : fst (validate a s d u) <> Diverge.
Proof.
  unfold validate. destruct (s =? ""); simpl; [discriminate|].
  destruct (a s); simpl; [|discriminate].
  destruct (negb _ && negb _); simpl; discriminate.
Qed.







(** ** C1: memoisation *)

Lemma register_memo w fuel pid op p :
  get pid (provisionables op) = Some p -> registered p = true ->
  register w (S fuel) pid op = (Ok (provisions p), op).
Proof. intros Hg Hr. apply register_run_complete. now apply run_memo. Qed.





(** ** C3: the requirement gate *)



(** The keys of the collected output are names of links. *)
Lemma registerLinks_keys reg phase pid links :
  forall out op out' op' k,
    registerLinks reg phase pid links out op = (Ok out', op') ->
    (forall link, In link links -> l_name link <> k) ->
    get k out' = get k out.
Proof.
  induction links as [|link rest IH]; intros out op out' op' k H Hk; simpl in H.
  - apply ret_inv in H as [[= ->] _]. reflexivity.
  - apply bind_inv in H as [(v & op1 & H1 & H) | [(e & _ & [=]) | (_ & [=])]].
    apply bind_inv in H as [(o & op2 & H2 & H) | [(e & _ & [=]) | (_ & [=])]].
    rewrite (IH _ _ _ _ k H) by (intros l Hl; apply Hk; now right).
    apply get_set_other. intros ->. now apply (Hk link (or_introl eq_refl)).
Qed.










(** ** C10: several edges under one association name *)

Lemma registerLinks_app reg phase pid links1 :
  forall links2 out op,
    registerLinks reg phase pid (links1 ++ links2) out op
    = bind (registerLinks reg phase pid links1 out)
        (fun out1 => registerLinks reg phase pid links2 out1) op.
Proof.
  induction links1 as [|link rest IH]; intros links2 out op; simpl.
  - reflexivity.
  - unfold bind. destruct (reg (l_target link) op) as [[v|e|] op1]; auto.
    destruct (callAssociation phase pid link v op1) as [[o|e|] op2]; auto.
Qed.

(** What happened when the loop over a list of links has completed: every
    link had its handler called, and every target is registered. *)
Lemma registerLinks_all w fuel phase pid links :
  forall out op out' op',
    registerLinks (register w fuel) phase pid links out op = (Ok out', op') ->
    evolves op op'
    /\ exists evs,
        calls op' = (calls op ++ evs)%list
        /\ forall link,
            In link links ->
            In (AssocCall phase pid (l_name link) (l_target link)) evs
            /\ exists p', get (l_target link) (provisionables op') = Some p'
                          /\ registered p' = true.
Proof.
  induction links as [|link rest IH]; intros out op out' op' H; simpl in H.
  - apply ret_inv in H as [_ ->]. split; [apply evolves_refl|].
    exists []. rewrite app_nil_r. split; [reflexivity|intros l []].
  - apply bind_inv in H as [(v & op1 & H1 & H) | [(e & _ & [=]) | (_ & [=])]].
    apply bind_inv in H as [(o & op2 & H2 & H) | [(e & _ & [=]) | (_ & [=])]].
    pose proof (register_evolves _ _ _ _ _ _ H1) as E1.
    destruct (register_ok_registered _ _ _ _ _ _ H1) as (p1 & G1 & R1 & _).
    apply callAssociation_inv in H2 as [(t & ow & _ & _ & _ & ->) | (_ & e & [=])].
    destruct (IH _ _ _ _ H) as (E2 & evs & Hc & Hl).
    assert (E12 : evolves op1 op')
      by (eapply evolves_trans; [apply evolves_after_call, evolves_refl|exact E2]).
    split; [eapply evolves_trans; eauto|].
    destruct E1 as (_ & _ & _ & (l1 & Hc1) & _).
    exists (l1 ++ AssocCall phase pid (l_name link) (l_target link) :: evs)%list.
    split.
    + rewrite Hc. simpl. rewrite Hc1. rewrite <- !app_assoc. reflexivity.
    + intros l [<-|Hin].
      * split; [apply in_or_app; right; now left|].
        exists p1. split; [|exact R1]. eapply evolves_frozen; eauto.
      * destruct (Hl l Hin) as [He Hp]. split; [|exact Hp].
        apply in_or_app. right. now right.
Qed.

(** C10.  When the links of a phase have all been resolved, the slot of an
    association name in the collected output holds what the handler of the
    last link of that name returned, called on the target with the provisions
    its registration returned; every link has had its handler called and
    every target is registered.  The outputs of the two phases are what a
    completed [register] leaves in [requirements] and [sideEffects]. *)
Theorem C10_last_edge_wins :
  (forall w fuel phase pid links1 link links2 op output op',
      registerAssociated (register w fuel) phase pid
        (links1 ++ link :: links2) op = (Ok output, op') ->
      (forall l, In l links2 -> l_name l <> l_name link) ->
      (exists out1 op1 provs op2 target owner,
          registerAssociated (register w fuel) phase pid links1 op = (Ok out1, op1)
          /\ register w fuel (l_target link) op1 = (Ok provs, op2)
          /\ get (l_target link) (provisionables op2) = Some target
          /\ get pid (provisionables op2) = Some owner
          /\ get (l_name link) output
             = Some (fst (l_handler link (view (with_provisions provs target))
                            (stack op2) (view owner))))
      /\ exists evs,
          calls op' = (calls op ++ evs)%list
          /\ forall l,
              In l (links1 ++ link :: links2) ->
              In (AssocCall phase pid (l_name l) (l_target l)) evs
              /\ exists p', get (l_target l) (provisionables op') = Some p'
                            /\ registered p' = true)
  /\ (forall w fuel pid op p v op',
         get pid (provisionables op) = Some p -> registered p = false ->
         register w (S fuel) pid op = (Ok v, op') ->
         exists reqs op1 effects op4 op5 final,
           registerAssociated (register w fuel) Requirements pid
             (requirementsMap op pid) op = (Ok reqs, op1)
           /\ registerAssociated (register w fuel) SideEffects pid
                (sideEffectsMap op pid) op4 = (Ok effects, op5)
           /\ get pid (provisionables op') = Some final
           /\ requirements final = reqs /\ sideEffects final = effects).
Proof.
  split.
  - intros w fuel phase pid links1 link links2 op output op' H Hlast.
    unfold registerAssociated in *. split; [|eapply registerLinks_all; eauto].
    rewrite registerLinks_app in H.
    apply bind_inv in H as [(out1 & op1 & H1 & H) | [(e & _ & [=]) | (_ & [=])]].
    simpl in H.
    apply bind_inv in H as [(provs & op2 & H2 & H) | [(e & _ & [=]) | (_ & [=])]].
    apply bind_inv in H as [(o & op3 & H3 & H) | [(e & _ & [=]) | (_ & [=])]].
    apply callAssociation_inv in H3
      as [(t & ow & Gt & Go & [= ->] & ->) | (_ & e & [=])].
    exists out1, op1, provs, op2, t, ow. repeat split; auto.
    rewrite (registerLinks_keys _ _ _ _ _ _ _ _ (l_name link) H) by exact Hlast.
    apply get_set_same.
  - intros w fuel pid op p v op' Hp Hr H. apply register_run_sound in H.
    inversion H as [Hp' | p' Hp' Hr' | p' r0 Hp' Hr' Hv | p' v0 r1 op1 r0 Hp' Hr' Hv H1 Hf
                  | p' v0 reqs op1 r0 Hp' Hr' Hv H1 Hc
                  | p' v0 reqs op1 provs op3 r5 op5 r0 Hp' Hr' Hv H1 Hc Hpr H5 Hf
                  | p' v0 reqs op1 provs op3 effects op5 final Hp' Hr' Hv H1 Hc Hpr H5 Hfin];
      subst; try (exfalso; eapply failed_not_ok; eassumption); try congruence.
    exists reqs, op1, effects, (assigned pid (with_registered provs) op3), op5, final.
    split; [exact H1|]. split; [exact H5|]. split; [exact Hfin|].
    pose proof (registerAssociated_evolves _ _ _ _ _ _ _ _ H1) as E1.
    destruct (evolves_get _ _ _ _ E1 Hp') as (p1 & G1 & _).
    pose proof (assigned_self _ (with_requirements reqs) _ _ G1) as G2.
    pose proof (provisioned_static pid (handlers (service p') (scope op))
                  (assigned pid (with_requirements reqs) op1)) as Hs.
    rewrite Hpr in Hs. simpl in Hs. destruct Hs as (P3 & _).
    rewrite <- P3 in G2.
    pose proof (assigned_self _ (with_registered provs) _ _ G2) as G4.
    pose proof (registerAssociated_evolves _ _ _ _ _ _ _ _ H5) as E5.
    pose proof (evolves_frozen _ _ _ _ E5 G4 eq_refl) as G5.
    rewrite (assigned_self _ (with_sideEffects effects) _ _ G5) in Hfin.
    inversion Hfin; subst final. split; reflexivity.
Qed.

Lemma C10_last_edge_wins_witness :
  (exists op',
      registerAssociated (register fanout_world 1) SideEffects
        watch_id [alert_on db1_id; alert_on db2_id] fanout
      = (Ok [("alerts",
               VObj [("linked",
                       VObj [("resource", VStr "db"); ("position", VNum 1)])])],
         op')
      /\ calls op'
         = [ScopeCall db1_id;
            AssocCall SideEffects watch_id "alerts"
              db1_id;
            ScopeCall db2_id;
            AssocCall SideEffects watch_id "alerts"
              db2_id])
  /\ exists final,
      get watch_id
        (provisionables
           (snd (register fanout_world 2 watch_id fanout)))
      = Some final
      /\ sideEffects final
         = [("alerts",
              VObj [("linked",
                      VObj [("resource", VStr "db"); ("position", VNum 2)])])].
Proof.
  destruct C10_last_edge_wins as [Hlast Hstored].
  split.
  - exists (snd (registerAssociated (register fanout_world 1) SideEffects
                   watch_id
                   [alert_on db1_id; alert_on db2_id] fanout)).
    assert (Hrun : registerAssociated (register fanout_world 1) SideEffects
                     watch_id
                     ([alert_on db1_id] ++ alert_on db2_id :: []) fanout
                   = (Ok [("alerts",
                            VObj [("linked",
                                    VObj [("resource", VStr "db");
                                          ("position", VNum 1)])])],
                      snd (registerAssociated (register fanout_world 1) SideEffects
                             watch_id
                             [alert_on db1_id; alert_on db2_id] fanout)))
      by (vm_compute; reflexivity).
    destruct (Hlast _ _ _ _ _ _ _ _ _ _ Hrun ltac:(intros l []))
      as [(out1 & op1 & provs & op2 & target & owner & _ & _ & _ & _ & Hslot) _].
    split; [exact Hrun|]. vm_compute. reflexivity.
  - destruct (get watch_id (provisionables fanout))
      as [p|] eqn:G; [|vm_compute in G; discriminate].
    destruct (Hstored fanout_world 1 watch_id fanout p
                (VObj [("resource", VStr "monitoring"); ("position", VNum 0)])
                (snd (register fanout_world 2 watch_id fanout))
                G)
      as (reqs & op1 & effects & op4 & op5 & final & _ & _ & Hfin & _ & _).
    + vm_compute in G. injection G as <-. reflexivity.
    + vm_compute. reflexivity.
    + exists final. split; [exact Hfin|].
      vm_compute in Hfin. injection Hfin as <-. reflexivity.
Defined.

(** ** C5: validation inside [register] *)


Lemma parseErrors_sound errs d :
  In d (parseErrors errs) -> exists e, In e errs /\ d = descriptor_of e.
Proof.
  intros H. apply uniqBy_In, in_map_iff in H as (e & <- & H).
  apply filter_In in H as [H _]. eauto.
Qed.









(** ** C6: the environment check of [process] *)







(** ** C4: the association resolver *)

Lemma link_spec owner name a op linked :
  link owner name a op linked
  = if applies owner a linked then
      let edge := {| l_name := name; l_target := id linked;
                     l_handler := a_handler a |} in
      if a_requirement a then
        set_requirementsMap
          (mapping_set (requirementsMap op) (id owner)
             (requirementsMap op (id owner) ++ [edge])%list) op
      else
        set_sideEffectsMap
          (mapping_set (sideEffectsMap op) (id owner)
             (sideEffectsMap op (id owner) ++ [edge])%list) op
    else op.
Proof.
  unfold link, applies.
  destruct (a_with a) as [t|]; simpl.
  - destruct (t =? ""); simpl.
    + destruct (a_where a) as [f|]; simpl; [|reflexivity].
      now destruct (f (config owner) (config linked)).
    + destruct (type (service linked) =? t); simpl; [|reflexivity].
      destruct (a_where a) as [f|]; simpl; [|reflexivity].
      now destruct (f (config owner) (config linked)).
  - destruct (a_where a) as [f|]; simpl; [|reflexivity].
    now destruct (f (config owner) (config linked)).
Qed.

Lemma link_static owner name a op linked :
  provisionables (link owner name a op linked) = provisionables op
  /\ scope (link owner name a op linked) = scope op
  /\ calls (link owner name a op linked) = calls op
  /\ stack (link owner name a op linked) = stack op.
Proof.
  rewrite link_spec. destruct (applies owner a linked); [|auto].
  destruct (a_requirement a); simpl; auto.
Qed.

Lemma fold_link_static cs :
  forall op,
    provisionables (fold_left link_candidate cs op) = provisionables op
    /\ scope (fold_left link_candidate cs op) = scope op
    /\ calls (fold_left link_candidate cs op) = calls op
    /\ stack (fold_left link_candidate cs op) = stack op.
Proof.
  induction cs as [|[[owner entry] linked] cs IH]; intros op; simpl; [auto|].
  destruct (IH (link owner (fst entry) (snd entry) op linked)) as (-> & -> & -> & ->).
  apply link_static.
Qed.

(** The three nested loops are one pass over the candidates. *)
Lemma setupAssociations_candidates op :
  setupAssociations op
  = fold_left link_candidate
      (candidates (values (provisionables op)) (scope op)) op.
Proof.
  unfold setupAssociations, candidates.
  generalize (values (provisionables op)) at 1 3 as owners.
  assert (Hgen : forall owners op0,
             provisionables op0 = provisionables op -> scope op0 = scope op ->
             fold_left
               (fun op1 provisionable =>
                  fold_left
                    (fun op2 entry =>
                       fold_left (link provisionable (fst entry) (snd entry))
                         (values (provisionables op2)) op2)
                    (associations (service provisionable) (scope op1)) op1)
               owners op0
             = fold_left link_candidate
                 (flat_map
                    (fun owner =>
                       flat_map
                         (fun entry =>
                            map (fun linked => (owner, entry, linked))
                              (values (provisionables op)))
                         (associations (service owner) (scope op)))
                    owners) op0).
  { induction owners as [|owner owners IH]; intros op0 Hp Hs; simpl; [reflexivity|].
    rewrite fold_left_app.
    assert (Hin : forall entries op1,
               provisionables op1 = provisionables op ->
               fold_left
                 (fun op2 entry =>
                    fold_left (link owner (fst entry) (snd entry))
                      (values (provisionables op2)) op2) entries op1
               = fold_left link_candidate
                   (flat_map
                      (fun entry =>
                         map (fun linked => (owner, entry, linked))
                           (values (provisionables op))) entries) op1).
    { induction entries as [|entry entries IHe]; intros op1 Hp1; simpl;
        [reflexivity|].
      rewrite fold_left_app, Hp1.
      assert (Hl : forall nodes op2,
                 fold_left (link owner (fst entry) (snd entry)) nodes op2
                 = fold_left link_candidate
                     (map (fun linked => (owner, entry, linked)) nodes) op2)
        by (induction nodes as [|n nodes IHn]; intros op2; simpl; auto).
      rewrite Hl. apply IHe.
      destruct (fold_link_static
                  (map (fun linked => (owner, entry, linked))
                     (values (provisionables op))) op1) as (-> & _).
      exact Hp1. }
    rewrite Hs, (Hin _ _ Hp). apply IH.
    - destruct (fold_link_static
                  (flat_map
                     (fun entry =>
                        map (fun linked => (owner, entry, linked))
                          (values (provisionables op)))
                     (associations (service owner) (scope op))) op0) as (-> & _).
      exact Hp.
    - destruct (fold_link_static
                  (flat_map
                     (fun entry =>
                        map (fun linked => (owner, entry, linked))
                          (values (provisionables op)))
                     (associations (service owner) (scope op))) op0)
        as (_ & -> & _).
      exact Hs. }
  intros owners. now apply Hgen.
Qed.

(** What one pass over a list of candidates leaves in the two maps. *)
Lemma fold_link_maps cs :
  forall op pid,
    requirementsMap (fold_left link_candidate cs op) pid
    = (requirementsMap op pid ++ map edge_of (filter (selected true pid) cs))%list
    /\ sideEffectsMap (fold_left link_candidate cs op) pid
       = (sideEffectsMap op pid ++ map edge_of (filter (selected false pid) cs))%list.
Proof.
  induction cs as [|[[owner entry] linked] cs IH]; intros op pid; simpl.
  - now rewrite !app_nil_r.
  - destruct (IH (link owner (fst entry) (snd entry) op linked) pid) as [-> ->].
    rewrite link_spec. unfold mapping_set.
    destruct (applies owner (snd entry) linked) eqn:Ea;
      [|rewrite !andb_false_r; simpl; auto].
    rewrite !andb_true_r.
    destruct (a_requirement (snd entry)) eqn:Er; simpl;
      rewrite (String.eqb_sym (id owner) pid);
      destruct (pid =? id owner) eqn:Ep; simpl;
      try (apply String.eqb_eq in Ep; subst pid);
      rewrite <- ?app_assoc; auto.
Qed.

Lemma set_In {A : Type} k (v : A) o k' v' :
  In (k', v') (set k v o) -> (k', v') = (k, v) \/ In (k', v') o.
Proof.
  induction o as [|[k2 v2] o IH]; simpl.
  - intros [H|[]]. left. now symmetry.
  - destruct (k =? k2) eqn:E; simpl.
    + intros [H|H]; [left; now symmetry|right; now right].
    + intros [H|H]; [right; now left|]. destruct (IH H); auto.
Qed.

Lemma set_keys_NoDup {A : Type} k (v : A) o :
  NoDup (map fst o) -> NoDup (map fst (set k v o)).
Proof.
  intros H. destruct (get k o) as [x|] eqn:E.
  - now rewrite (keys_set_present _ v _ _ E).
  - apply get_None_notin in E. revert E H.
    induction o as [|[k2 v2] o IH]; simpl; intros E H.
    + constructor; [auto|constructor].
    + destruct (k =? k2) eqn:E2.
      * apply String.eqb_eq in E2. subst. tauto.
      * simpl. inversion H; subst. constructor.
        -- intros Hin. apply in_map_iff in Hin as ([k3 v3] & <- & Hin).
           apply set_In in Hin as [[= -> ->]|Hin].
           ++ apply E. now left.
           ++ apply H2. now apply (in_map fst) in Hin.
        -- apply IH; auto.
Qed.

Lemma addProvisionables_spec w services :
  forall op op',
    addProvisionables w services op = Ok op' ->
    scope op' = scope op /\ stack op' = stack op /\ calls op' = calls op
    /\ requirementsMap op' = requirementsMap op
    /\ sideEffectsMap op' = sideEffectsMap op
    /\ (keyed (provisionables op) -> keyed (provisionables op')).
Proof.
  induction services as [|cfg rest IH]; intros op op' H; simpl in H.
  - inversion H; subst. tauto.
  - unfold getProvisionable in H. destruct (registry w cfg) as [svc|]; [|discriminate].
    apply IH in H as (-> & -> & -> & -> & -> & Hk). simpl.
    split; [|split; [|split; [|split; [|split]]]]; auto.
    intros [Hnd Hin]. apply Hk. split.
    + simpl. now apply set_keys_NoDup.
    + simpl. intros k p Hkp. apply set_In in Hkp as [[= -> ->]|Hkp]; auto.
Qed.

Lemma keyed_ids ps : keyed ps -> map id (values ps) = map fst ps.
Proof.
  intros [_ H]. unfold values. rewrite map_map. apply map_ext_in.
  intros [k p] Hin. simpl. symmetry. now apply H.
Qed.

Lemma new_StageOperation_spec w services st sc op :
  new_StageOperation w services st sc = Ok op ->
  scope op = sc /\ calls op = [] /\ keyed (provisionables op)
  /\ forall pid,
      requirementsMap op pid
      = map edge_of (filter (selected true pid)
                       (candidates (values (provisionables op)) sc))
      /\ sideEffectsMap op pid
         = map edge_of (filter (selected false pid)
                          (candidates (values (provisionables op)) sc)).
Proof.
  unfold new_StageOperation, setupProvisionables.
  destruct (addProvisionables w services _) as [op1| |] eqn:E; try discriminate.
  intros [= <-]. apply addProvisionables_spec in E as (S & _ & C & R & F & K).
  simpl in *. rewrite setupAssociations_candidates.
  destruct (fold_link_static (candidates (values (provisionables op1)) (scope op1)) op1)
    as (-> & -> & -> & _).
  split; [exact S|]. split; [exact C|]. split.
  - apply K. split; [constructor|intros k p []].
  - intros pid.
    destruct (fold_link_maps (candidates (values (provisionables op1)) (scope op1))
                op1 pid) as [-> ->].
    now rewrite R, F, S.
Qed.

Lemma candidates_In nodes sc owner entry linked :
  In (owner, entry, linked) (candidates nodes sc) <->
  In owner nodes /\ In entry (associations (service owner) sc) /\ In linked nodes.
Proof.
  unfold candidates. rewrite in_flat_map. split.
  - intros (o & Ho & H). apply in_flat_map in H as (e & He & H).
    apply in_map_iff in H as (l & [= -> -> ->] & Hl). auto.
  - intros (Ho & He & Hl). exists owner. split; [exact Ho|].
    apply in_flat_map. exists entry. split; [exact He|].
    apply in_map_iff. eauto.
Qed.

Lemma applies_spec owner a linked :
  applies owner a linked = true <->
  (a_with a = None \/ a_with a = Some "" \/ a_with a = Some (type (service linked)))
  /\ (forall f, a_where a = Some f -> f (config owner) (config linked) = true).
Proof.
  unfold applies. rewrite andb_true_iff. split.
  - intros [Ht Hp]. split.
    + destruct (a_with a) as [t|]; [|auto]. right.
      apply orb_true_iff in Ht as [Ht|Ht]; apply String.eqb_eq in Ht; subst; auto.
    + intros f Hf. now rewrite Hf in Hp.
  - intros [Ht Hp]. split.
    + destruct Ht as [->|[->| ->]]; auto.
      now rewrite String.eqb_refl, orb_true_r.
    + destruct (a_where a) as [f|]; auto.
Qed.

Lemma NoDup_map_inj {A B : Type} (f : A -> B) (l : list A) x y :
  NoDup (map f l) -> In x l -> In y l -> f x = f y -> x = y.
Proof.
  induction l as [|z l IH]; simpl; [tauto|]. intros Hn.
  inversion Hn; subst. intros [->|Hx] [->|Hy] E; auto.
  - exfalso. apply H1. rewrite E. now apply in_map.
  - exfalso. apply H1. rewrite <- E. now apply in_map.
Qed.

(** The edges of a node under an association name, in an operation as the
    constructor leaves it. *)
Lemma edges_spec w services st sc op owner name a linked (requirement : bool) :
  new_StageOperation w services st sc = Ok op ->
  In owner (values (provisionables op)) ->
  In linked (values (provisionables op)) ->
  In (name, a) (associations (service owner) sc) ->
  NoDup (map fst (associations (service owner) sc)) ->
  (exists l, In l ((if requirement then requirementsMap op else sideEffectsMap op)
                     (id owner))
             /\ l_name l = name /\ l_target l = id linked)
  <-> applies owner a linked = true /\ a_requirement a = requirement.
Proof.
  intros Hnew Ho Hl Ha Hnd.
  destruct (new_StageOperation_spec _ _ _ _ _ Hnew) as (_ & _ & K & Hm).
  pose proof (keyed_ids _ K) as Hids. destruct K as [Hk _].
  rewrite <- Hids in Hk.
  assert (Hsame : forall x y, In x (values (provisionables op)) ->
                              In y (values (provisionables op)) ->
                              id x = id y -> x = y).
  { intros x y. now apply NoDup_map_inj. }
  destruct (Hm (id owner)) as [Hr Hs].
  assert (Hedges : (if requirement then requirementsMap op else sideEffectsMap op)
                     (id owner)
                   = map edge_of
                       (filter (selected requirement (id owner))
                          (candidates (values (provisionables op)) sc)))
    by (destruct requirement; assumption).
  rewrite Hedges. clear Hedges Hr Hs. split.
  - intros (l & Hin & Hn & Ht).
    apply in_map_iff in Hin as ([[o [n' a']] m] & <- & Hin).
    apply filter_In in Hin as [Hc Hsel]. apply candidates_In in Hc as (Ho' & He & Hm').
    simpl in Hn, Ht, Hsel, He. subst n'.
    apply andb_true_iff in Hsel as [Hsel Hq]. apply andb_true_iff in Hsel as [Hid Hap].
    apply String.eqb_eq in Hid. apply Bool.eqb_prop in Hq.
    assert (o = owner) by now apply Hsame. subst o.
    assert (m = linked) by now apply Hsame. subst m.
    assert (a' = a).
    { apply (NoDup_get name a') in He; [|exact Hnd].
      apply (NoDup_get name a) in Ha; [|exact Hnd]. congruence. }
    subst a'. auto.
  - intros [Hap Hq]. exists (edge_of (owner, (name, a), linked)).
    split; [|split; reflexivity].
    apply in_map, filter_In. split; [now apply candidates_In|].
    simpl. rewrite String.eqb_refl, Hap, Hq. simpl. now destruct requirement.
Qed.

(** C4.  In the operation the constructor builds, for a node [N], an
    association [A] declared under [name] for the scope in the service of [N]
    and a node [M] of the set (another node, or [N] itself: the loop does not
    skip the owner), there is an edge from [N] to [M] under [name] in the set
    [A] belongs to (requirements if [A] is a requirement, side effects
    otherwise) exactly when the type filter of [A] is unset (or empty) or is
    the type of the service of [M], and the predicate of [A], when it has
    one, holds of the two configurations; the other set has no such edge. *)
Theorem C4_association_edges w services st sc op N name A M :
  new_StageOperation w services st sc = Ok op ->
  In N (values (provisionables op)) ->
  In M (values (provisionables op)) ->
  In (name, A) (associations (service N) sc) ->
  NoDup (map fst (associations (service N) sc)) ->
  ((exists l, In l ((if a_requirement A then requirementsMap op
                     else sideEffectsMap op) (id N))
              /\ l_name l = name /\ l_target l = id M)
   <-> (a_with A = None \/ a_with A = Some ""
        \/ a_with A = Some (type (service M)))
       /\ (forall f, a_where A = Some f -> f (config N) (config M) = true))
  /\ ~ (exists l, In l ((if a_requirement A then sideEffectsMap op
                         else requirementsMap op) (id N))
                  /\ l_name l = name /\ l_target l = id M).
Proof.
  intros Hnew HN HM HA Hnd. split.
  - rewrite <- applies_spec.
    rewrite (edges_spec w services st sc op N name A M (a_requirement A)
               Hnew HN HM HA Hnd).
    tauto.
  - intros H.
    assert (H' : exists l,
               In l ((if negb (a_requirement A) then requirementsMap op
                      else sideEffectsMap op) (id N))
               /\ l_name l = name /\ l_target l = id M)
      by (destruct (a_requirement A); exact H).
    apply (edges_spec w services st sc op N name A M (negb (a_requirement A))
             Hnew HN HM HA Hnd) in H' as [_ H'].
    now destruct (a_requirement A).
Qed.

Lemma C4_association_edges_witness :
  exists l,
    In l (sideEffectsMap fanout watch_id)
    /\ l_name l = "alerts" /\ l_target l = db2_id.
Proof.
  destruct (get watch_id (provisionables fanout))
    as [N|] eqn:GN; [|vm_compute in GN; discriminate].
  destruct (get db2_id (provisionables fanout))
    as [M|] eqn:GM; [|vm_compute in GM; discriminate].
  pose proof (get_In _ _ _ GN) as HN. apply (in_map snd) in HN.
  pose proof (get_In _ _ _ GM) as HM. apply (in_map snd) in HM.
  vm_compute in GN, GM. injection GN as <-. injection GM as <-.
  destruct (C4_association_edges fanout_world
              fanout_configs [] deployable fanout _ "alerts"
              (affects "db") _ ltac:(vm_compute; reflexivity) HN HM
              ltac:(left; reflexivity)
              ltac:(repeat constructor; simpl; tauto)) as [Hiff _].
  apply Hiff. split.
  - right. right. reflexivity.
  - intros f [=].
Defined.

(** ** C9: a node without a handler for the scope *)

(** C9.  A node whose service has no handler for the scope is registered like
    any other: when its configuration is valid, its requirements resolve and
    are satisfied and its side effects resolve, [register] returns the empty
    output, the node holds it and is flagged registered, and nothing was
    logged between the two phases.  The resolver never looks at handlers: an
    association that applies to such a node gets its edge. *)
Theorem C9_scope_optionality :
  (forall w fuel pid op p v reqs op1 effects op5,
      get pid (provisionables op) = Some p -> registered p = false ->
      handlers (service p) (scope op) = None ->
      fst (validate (ajv w) (schemaId (service p)) (VObj (config p)) true) = Ok v ->
      registerAssociated (register w fuel) Requirements pid
        (requirementsMap op pid) op = (Ok reqs, op1) ->
      check_requirements (type (service p)) reqs
        (associations (service p) (scope op)) = Ok tt ->
      registerAssociated (register w fuel) SideEffects pid (sideEffectsMap op pid)
        (assigned pid (with_registered (VObj []))
           (assigned pid (with_requirements reqs) op1)) = (Ok effects, op5) ->
      exists final,
        register w (S fuel) pid op
        = (Ok (VObj []), assigned pid (with_sideEffects effects) op5)
        /\ get pid (provisionables (assigned pid (with_sideEffects effects) op5))
           = Some final
        /\ provisions final = VObj [] /\ registered final = true
        /\ calls (assigned pid (with_registered (VObj []))
                    (assigned pid (with_requirements reqs) op1)) = calls op1)
  /\ (forall w services st sc op N name A M,
         new_StageOperation w services st sc = Ok op ->
         In N (values (provisionables op)) ->
         In M (values (provisionables op)) ->
         In (name, A) (associations (service N) sc) ->
         NoDup (map fst (associations (service N) sc)) ->
         handlers (service M) sc = None ->
         applies N A M = true ->
         exists l, In l ((if a_requirement A then requirementsMap op
                          else sideEffectsMap op) (id N))
                   /\ l_name l = name /\ l_target l = id M).
Proof.
  split.
  - intros w fuel pid op p v reqs op1 effects op5 Hp Hr Hh Hv H1 Hc H5.
    pose proof (registerAssociated_evolves _ _ _ _ _ _ _ _ H1) as E1.
    destruct (evolves_get _ _ _ _ E1 Hp) as (p1 & G1 & _).
    pose proof (assigned_self _ (with_requirements reqs) _ _ G1) as G2.
    pose proof (assigned_self _ (with_registered (VObj [])) _ _ G2) as G4.
    pose proof (registerAssociated_evolves _ _ _ _ _ _ _ _ H5) as E5.
    pose proof (evolves_frozen _ _ _ _ E5 G4 eq_refl) as G5.
    pose proof (assigned_self _ (with_sideEffects effects) _ _ G5) as G6.
    eexists. split; [|split; [exact G6|]].
    + apply (register_run_complete w fuel pid op
               (Ok (provisions (with_sideEffects effects
                                  (with_registered (VObj [])
                                     (with_requirements reqs p1)))))).
      eapply run_done; eauto.
      rewrite Hh. unfold provisioned. reflexivity.
    + split; [reflexivity|]. split; [reflexivity|].
      destruct (assigned_static pid (with_registered (VObj []))
                  (assigned pid (with_requirements reqs) op1))
        as (_ & _ & _ & -> & _).
      now destruct (assigned_static pid (with_requirements reqs) op1)
        as (_ & _ & _ & -> & _).
  - intros w services st sc op N name A M Hnew HN HM HA Hnd _ Hap.
    apply (edges_spec w services st sc op N name A M (a_requirement A)
             Hnew HN HM HA Hnd). auto.
Qed.

Lemma C9_scope_optionality_witness :
  fst (register silent_world 1 state_id silent) = Ok (VObj [])
  /\ exists l,
      In l (requirementsMap silent web_id)
      /\ l_name l = "state" /\ l_target l = state_id.
Proof.
  destruct C9_scope_optionality as [Hreg Hedge].
  destruct (get state_id (provisionables silent))
    as [M|] eqn:GM; [|vm_compute in GM; discriminate].
  destruct (get web_id (provisionables silent))
    as [N|] eqn:GN; [|vm_compute in GN; discriminate].
  pose proof (get_In _ _ _ GN) as HN. apply (in_map snd) in HN.
  pose proof (get_In _ _ _ GM) as HM. apply (in_map snd) in HM.
  split.
  - destruct (Hreg silent_world 0 state_id silent M
                (VObj (config_of "project-state" "state")) [] silent []
                (assigned state_id (with_registered (VObj []))
                   (assigned state_id (with_requirements []) silent)) GM)
      as (final & Hrun & _).
    + vm_compute in GM. injection GM as <-. reflexivity.
    + vm_compute in GM. injection GM as <-. reflexivity.
    + vm_compute in GM. injection GM as <-. reflexivity.
    + vm_compute. reflexivity.
    + vm_compute in GM. injection GM as <-. reflexivity.
    + vm_compute. reflexivity.
    + now rewrite Hrun.
  - vm_compute in GN, GM. injection GN as <-. injection GM as <-.
    apply (Hedge silent_world silent_configs [] deployable silent _ "state"
             (requires "state") _ ltac:(vm_compute; reflexivity) HN HM
             ltac:(left; reflexivity)
             ltac:(repeat constructor; simpl; tauto) eq_refl eq_refl).
Defined.

(** ** C2: the identity of a provisionable *)

Lemma stringify_undefined v : Hash.stringify v = None <-> v = VUndefined.
Proof. destruct v; simpl; split; intros H; try discriminate; auto. Qed.

(** Members that are [undefined] leave no trace in the JSON text. *)
Lemma stringify_object_printed o :
  Hash.stringify_object o = Hash.stringify_object (printed o).
Proof.
  unfold Hash.stringify_object. simpl. do 3 f_equal.
  induction o as [|[k v] o IH]; simpl; [reflexivity|].
  destruct v; simpl; rewrite ?IH; reflexivity.
Qed.

(** The digest is MD5 (RFC 1321, test suite). *)
Example hashString_abc : Hash.hashString "abc" = "900150983cd24fb0d6963f7d28e17f72".
Proof. vm_compute. reflexivity. Qed.

Example hashString_alphabet :
  Hash.hashString "abcdefghijklmnopqrstuvwxyz" = "c3fcd3d76192e4007dfb496cca67e13b".
Proof. vm_compute. reflexivity. Qed.

(** C2 (as stated, refuted).  Two configurations with the same members, two
    keys swapped, get different ids. *)
Lemma C2_key_order_changes_the_id :
  Permutation (config_of "db1" "db") reordered
  /\ match getProvisionable plain_world (config_of "db1" "db"),
           getProvisionable plain_world reordered with
     | Ok p1, Ok p2 => id p1 <> id p2
     | _, _ => False
     end.
Proof.
  split; [apply perm_swap|]. vm_compute. discriminate.
Qed.

(** C2 (amended).  The id is the MD5 digest of the JSON text of the
    configuration, members in their order: it is the same for two
    configurations that have the same members in the same order, members
    whose value is [undefined] apart. *)
Theorem C2_identity w c1 c2 p1 p2 :
  getProvisionable w c1 = Ok p1 -> getProvisionable w c2 = Ok p2 ->
  printed c1 = printed c2 ->
  id p1 = Hash.hashString (Hash.stringify_object c1) /\ id p1 = id p2.
Proof.
  unfold getProvisionable. intros H1 H2 Hp.
  destruct (registry w c1); [|discriminate].
  destruct (registry w c2); [|discriminate].
  inversion H1; inversion H2; subst; simpl. split; [reflexivity|].
  unfold Hash.hashObject.
  now rewrite (stringify_object_printed c1), (stringify_object_printed c2), Hp.
Qed.

Lemma C2_identity_witness :
  match getProvisionable plain_world (config_of "db1" "db"),
        getProvisionable plain_world with_undefined_region with
  | Ok p1, Ok p2 => id p1 = db1_id /\ id p1 = id p2
  | _, _ => False
  end.
Proof.
  destruct (getProvisionable plain_world (config_of "db1" "db")) as [p1| |] eqn:E1;
    try (vm_compute in E1; discriminate).
  destruct (getProvisionable plain_world with_undefined_region) as [p2| |] eqn:E2;
    try (vm_compute in E2; discriminate).
  destruct (C2_identity plain_world _ _ p1 p2 E1 E2 eq_refl) as [Hid Hsame].
  split; [|exact Hsame]. rewrite Hid. vm_compute. reflexivity.
Defined.

(** ** C7: automatically generated attributes *)

Import Project.

(** [Object.assign] and object literals: the source's members win, the
    target's fill the rest. *)
Lemma get_assign (k : string) (t s : obj) :
  NoDup (map fst s) ->
  get k (assign t s) = match get k s with Some v => Some v | None => get k t end.
Proof.
  unfold assign. revert t.
  induction s as [|[k' v] s IH]; intros t Hnd; simpl; [reflexivity|].
  inversion Hnd as [|? ? Hnotin Hnd']; subst.
  rewrite (IH _ Hnd'), get_set.
  destruct (k =? k') eqn:E; [|reflexivity].
  apply String.eqb_eq in E; subst.
  apply get_None_notin in Hnotin. now rewrite Hnotin.
Qed.

Lemma assign_keys_NoDup (t s : obj) :
  NoDup (map fst t) -> NoDup (map fst (assign t s)).
Proof.
  unfold assign. revert t.
  induction s as [|[k v] s IH]; intros t H; simpl; [exact H|].
  apply IH. now apply set_keys_NoDup.
Qed.

Lemma literal_keys_NoDup members : NoDup (map fst (literal members)).
Proof. apply assign_keys_NoDup. constructor. Qed.

(** What every generator of the spreading revision returns is an object:
    no key twice. *)
Lemma spreading_generated_NoDup lib type gen project environment associated g :
  Spreading.ATTRIBUTE_GENERATOR lib type = Some gen ->
  gen project environment associated = Some g ->
  NoDup (map fst g).
Proof.
  unfold Spreading.ATTRIBUTE_GENERATOR. intros Hgen Hg.
  repeat match type of Hgen with
         | (if ?c then _ else _) = _ => destruct c
         end; inversion Hgen; subst; clear Hgen;
    unfold Spreading.domainCopy, Spreading.state, Spreading.cluster in Hg;
    try (destruct (hasDomain associated); [|discriminate]);
    injection Hg as <-; try apply literal_keys_NoDup.
  repeat apply set_keys_NoDup. apply assign_keys_NoDup. constructor.
Qed.

Ltac key_cases k :=
  simpl;
  repeat match goal with
         | |- context [k =? ?s] => destruct (k =? s) eqn:?
         end; try reflexivity; try discriminate.

(** C7 (as stated, refuted).  In the revision that returns the generator's
    result, the certificate derived for a service with a domain has no
    region, although the fallback fields have one. *)
Lemma C7_certificate_without_region :
  Returning.ssl library shop "production" (Some web_with_domain) <> None
  /\ option_map (get "region")
       (Returning.getAutoGeneratedAttributes library SSL shop "production"
          (Some web_with_domain)) = Some None
  /\ get "region" (fallback library SSL shop (Some web_with_domain))
     = Some (VStr "eu-west-1").
Proof. vm_compute. repeat split. discriminate. Qed.

(** C7 (amended).  A generator returned [g].  The revision that spreads it
    over the fallback fields derives their union, [g] first; the revision
    that returns it derives [g] itself, which is that union for every type
    but the certificate, whose [g] has no region. *)
Theorem C7_auto_attributes lib type project environment associated :
  (forall gen g,
      Spreading.ATTRIBUTE_GENERATOR lib type = Some gen ->
      gen project environment associated = Some g ->
      forall k,
        get k (Spreading.getAutoGeneratedAttributes lib type project environment
                 associated)
        = match get k g with
          | Some v => Some v
          | None => get k (fallback lib type project associated)
          end)
  /\ (forall gen g,
         Returning.ATTRIBUTE_GENERATOR lib type = Some gen ->
         gen project environment associated = Some g ->
         Returning.getAutoGeneratedAttributes lib type project environment associated
         = Some g
         /\ (forall k,
                type <> SSL \/ k <> "region" ->
                get k g = match get k g with
                          | Some v => Some v
                          | None => get k (fallback lib type project associated)
                          end)
         /\ (type = SSL -> get "region" g = None)).
Proof.
  split.
  - intros gen g Hgen Hg k.
    unfold Spreading.getAutoGeneratedAttributes. rewrite Hgen, Hg.
    apply get_assign. eapply spreading_generated_NoDup; eauto.
  - intros gen g Hgen Hg.
    unfold Returning.getAutoGeneratedAttributes. rewrite Hgen.
    split; [exact Hg|].
    assert (Hfb : forall k, get k g <> None \/ (k =? "name") = false /\ (k =? "provider") = false
                            /\ (k =? "type") = false /\ (k =? "region") = false ->
                  get k g = match get k g with
                          | Some v => Some v
                          | None => get k (fallback lib type project associated)
                          end).
    { intros k [H|(H1 & H2 & H3 & H4)].
      - destruct (get k g); [reflexivity|congruence].
      - destruct (get k g); [reflexivity|].
        unfold fallback, literal. rewrite get_assign.
        + simpl. now rewrite H1, H2, H3, H4.
        + simpl. repeat constructor; simpl; intuition discriminate. }
    unfold Returning.ATTRIBUTE_GENERATOR in Hgen.
    destruct (type =? DNS) eqn:Edns.
    { injection Hgen as <-. unfold Returning.dns in Hg.
      destruct (hasDomain associated); [|discriminate]; injection Hg as <-.
      split.
      - intros k _. apply Hfb. unfold literal. rewrite get_assign.
        + key_cases k; auto; left; discriminate.
        + simpl. repeat constructor; simpl; intuition discriminate.
      - intros ->. discriminate. }
    destruct (type =? SSL) eqn:Essl.
    { injection Hgen as <-. unfold Returning.ssl in Hg.
      destruct (hasDomain associated); [|discriminate]; injection Hg as <-.
      apply String.eqb_eq in Essl.
      split.
      - intros k [H|H]; [contradiction|].
        apply String.eqb_neq in H.
        apply Hfb. unfold literal. rewrite get_assign.
        + key_cases k; auto; left; discriminate.
        + simpl. repeat constructor; simpl; intuition discriminate.
      - intros _. reflexivity. }
    assert (Hnot : type = SSL -> False).
    { intros ->. discriminate. }
    destruct (type =? STATE) eqn:Estate.
    { injection Hgen as <-. unfold Returning.state in Hg.
      injection Hg as <-.
      split; [|intros H; destruct (Hnot H)].
      intros k _. apply Hfb. unfold assign at 1. simpl fold_left.
      rewrite !get_set. key_cases k; auto; left; discriminate. }
    destruct (type =? CLUSTER lib) eqn:Ecluster; [|discriminate].
    injection Hgen as <-. unfold Returning.cluster in Hg.
    injection Hg as <-.
    split; [|intros H; destruct (Hnot H)].
    intros k _. apply Hfb. unfold literal. rewrite get_assign.
    + key_cases k; auto; left; discriminate.
    + simpl. repeat constructor; simpl; intuition discriminate.
Qed.

Lemma C7_auto_attributes_witness :
  get "name"
    (Spreading.getAutoGeneratedAttributes library DNS shop "production"
       (Some web_with_domain)) = Some (VStr "shop-production")
  /\ get "region"
       (Spreading.getAutoGeneratedAttributes library STATE shop "production" None)
     = Some (VStr "eu-central-1")
  /\ Returning.getAutoGeneratedAttributes library DNS shop "production"
       (Some web_with_domain)
     = Returning.dns library shop "production" (Some web_with_domain).
Proof.
  destruct (C7_auto_attributes library DNS shop "production" (Some web_with_domain))
    as [Hspread Hreturn].
  destruct (C7_auto_attributes library STATE shop "production" None)
    as [Hstate _].
  split; [|split].
  - rewrite (Hspread (Spreading.domainCopy library)
               [("type", VStr "dns"); ("provider", VStr "aws");
                ("region", VStr "eu-west-1"); ("domain", VStr "example.com");
                ("name", VStr "shop-production")] eq_refl eq_refl "name").
    reflexivity.
  - rewrite (Hstate (Spreading.state library)
               [("type", VStr "state"); ("bucket", VStr "shop-state");
                ("provider", VStr "aws"); ("name", VStr "project-state")]
               eq_refl eq_refl "region").
    reflexivity.
  - destruct (Hreturn (Returning.dns library)
                [("type", VStr "dns"); ("provider", VStr "aws");
                 ("region", VStr "eu-west-1"); ("domain", VStr "example.com");
                 ("name", VStr "example-com-dns")] eq_refl eq_refl) as [H _].
    rewrite H. reflexivity.
Defined.

(** ** C8: composition of schemas *)

Import Schema.

(** Induction on values, through arrays and objects. *)
Lemma value_rect' (P : value -> Prop) :
  P VUndefined -> P VNull -> (forall b, P (VBool b)) -> (forall n, P (VNum n)) ->
  (forall s, P (VStr s)) ->
  (forall items, Forall P items -> P (VArr items)) ->
  (forall props, Forall (fun member => P (snd member)) props -> P (VObj props)) ->
  forall v, P v.
Proof.
  intros Hu Hn Hb Hz Hs Ha Ho.
  fix IH 1.
  intros [| |b|n|s|items|props];
    [exact Hu|exact Hn|apply Hb|apply Hz|apply Hs| |].
  - apply Ha. induction items as [|x items IHitems]; constructor.
    + apply IH.
    + exact IHitems.
  - apply Ho. induction props as [|[k x] props IHprops]; constructor.
    + simpl. apply IH.
    + exact IHprops.
Qed.

Lemma distinct_NoDup keys : distinct keys = true -> NoDup keys.
Proof.
  induction keys as [|k keys IH]; simpl; [constructor|].
  intros H. apply andb_true_iff in H as [Hk Hrest].
  constructor; [|auto].
  intros Hin. apply negb_true_iff in Hk.
  assert (existsb (String.eqb k) keys = true); [|congruence].
  apply existsb_exists. exists k. split; [exact Hin|apply String.eqb_refl].
Qed.

Lemma wellformed_keys props : wellformed (VObj props) = true -> NoDup (map fst props).
Proof.
  simpl. intros H. apply andb_true_iff in H as [H _]. now apply distinct_NoDup.
Qed.

Lemma wellformed_member props k x :
  wellformed (VObj props) = true -> get k props = Some x -> wellformed x = true.
Proof.
  simpl. intros H Hget. apply andb_true_iff in H as [_ H].
  rewrite forallb_forall in H. apply get_In in Hget. exact (H _ Hget).
Qed.

(** Merging a plain object into what is there is [baseMerge] on the two. *)
Lemma mergeValue_object objValue src :
  mergeValue objValue (VObj src)
  = match objValue with
    | Some (VArr a) => VArr a
    | Some (VObj o) => VObj (baseMerge o src)
    | _ => VObj (baseMerge [] src)
    end.
Proof.
  assert (H : forall base,
             (fix mergeProps (base : obj) (src : list (string * value)) : obj :=
                match src with
                | [] => base
                | (k, x) :: src' =>
                    mergeProps (set k (mergeValue (get k base) x) base) src'
                end) base src = baseMerge base src).
  { induction src as [|[k x] src IH]; intros base; simpl; [reflexivity|apply IH]. }
  simpl. destruct objValue as [[| | | | |a|o]|]; try rewrite H; reflexivity.
Qed.

Lemma get_baseMerge k object source :
  NoDup (map fst source) ->
  get k (baseMerge object source)
  = match get k source with
    | Some x => Some (mergeValue (get k object) x)
    | None => get k object
    end.
Proof.
  revert object.
  induction source as [|[k' x] source IH]; intros object Hnd; simpl; [reflexivity|].
  inversion Hnd as [|? ? Hnotin Hnd']; subst.
  rewrite (IH _ Hnd'), get_set.
  destruct (k =? k') eqn:E; [|reflexivity].
  apply String.eqb_eq in E; subst.
  apply get_None_notin in Hnotin. now rewrite Hnotin.
Qed.

Lemma set_fresh k (v : value) o : get k o = None -> set k v o = (o ++ [(k, v)])%list.
Proof.
  induction o as [|[k' x] o IH]; simpl; [reflexivity|].
  destruct (k =? k'); [discriminate|]. intros H. now rewrite IH.
Qed.

Lemma baseMerge_fresh source : forall object,
  NoDup (map fst source) ->
  (forall k, In k (map fst source) -> get k object = None) ->
  Forall (fun member => mergeValue None (snd member) = snd member) source ->
  baseMerge object source = (object ++ source)%list.
Proof.
  induction source as [|[k x] source IH]; intros object Hnd Hfresh Hclone; simpl.
  - now rewrite app_nil_r.
  - inversion Hnd as [|? ? Hnotin Hnd']; subst.
    inversion Hclone as [|? ? Hx Hrest]; subst. simpl in Hx.
    rewrite (Hfresh k (or_introl eq_refl)), Hx, set_fresh
      by (apply Hfresh; now left).
    rewrite IH; auto.
    + now rewrite <- app_assoc.
    + intros k' Hin. 
      assert (Hne : k' <> k) by (intros ->; contradiction).
      apply get_None_notin. rewrite map_app, in_app_iff. simpl.
      intros [H|[H|[]]]; [|congruence].
      apply (proj1 (get_None_notin k' object)); [|exact H].
      apply Hfresh. now right.
Qed.

(** Merging into nothing copies. *)
Lemma mergeValue_clone v : wellformed v = true -> mergeValue None v = v.
Proof.
  induction v as [| |b|n|s|items IH|props IH] using value_rect'; try reflexivity.
  - simpl. intros Hwf. f_equal.
    induction items as [|x items IHitems]; [reflexivity|].
    simpl in Hwf. apply andb_true_iff in Hwf as [Hx Hrest].
    inversion IH as [|? ? IHx IHrest]; subst.
    rewrite (IHx Hx). f_equal. now apply IHitems.
  - intros Hwf. rewrite mergeValue_object. f_equal.
    rewrite baseMerge_fresh; [reflexivity| | |].
    + now apply wellformed_keys.
    + reflexivity.
    + simpl in Hwf. apply andb_true_iff in Hwf as [_ Hwf].
      rewrite forallb_forall in Hwf. rewrite Forall_forall in *.
      intros member Hin. apply IH; auto.
Qed.

Lemma mergeValue_scalar objValue v : scalar v = true -> mergeValue objValue v = v.
Proof. destruct v; simpl; intros H; try discriminate; reflexivity. Qed.

(** An array of scalars merged into an array replaces its first items. *)
Lemma mergeValue_array a b :
  forallb scalar b = true ->
  mergeValue (Some (VArr a)) (VArr b) = VArr (b ++ skipn (List.length b) a).
Proof.
  intros H. simpl. f_equal. revert a.
  induction b as [|x b IH]; intros a; [reflexivity|].
  simpl in H. apply andb_true_iff in H as [Hx Hb].
  destruct a as [|y a].
  - rewrite (mergeValue_scalar _ _ Hx). simpl. f_equal.
    rewrite (IH Hb []). now destruct b.
  - rewrite (mergeValue_scalar _ _ Hx). simpl. f_equal. apply IH, Hb.
Qed.

Lemma get_merge k (a b : option obj) :
  let sp := match a with Some o => o | None => [] end in
  let tp := match b with Some o => o | None => [] end in
  wellformed (VObj sp) = true -> wellformed (VObj tp) = true ->
  get k (merge a b)
  = match get k sp, get k tp with
    | Some s, Some t => Some (mergeValue (Some s) t)
    | None, Some t => Some t
    | s, None => s
    end.
Proof.
  intros sp tp Hsp Htp. unfold merge. cbv zeta.
  set (first := match a with Some _ => _ | None => _ end).
  assert (Hfirst : get k first = get k sp).
  { subst first sp. destruct a as [o|]; [|reflexivity].
    rewrite get_baseMerge by now apply wellformed_keys.
    destruct (get k o) as [x|] eqn:E; [|reflexivity].
    simpl get. f_equal. apply mergeValue_clone.
    exact (wellformed_member _ _ _ Hsp E). }
  clearbody first. destruct b as [o|]; subst tp.
  - rewrite get_baseMerge by now apply wellformed_keys.
    rewrite Hfirst.
    destruct (get k o) as [t|] eqn:Et; [|now destruct (get k sp)].
    destruct (get k sp); [reflexivity|].
    f_equal. apply mergeValue_clone. exact (wellformed_member _ _ _ Htp Et).
  - rewrite Hfirst. simpl. now destruct (get k sp).
Qed.

(** C8 (as stated, refuted).  Both fragments define [size] and [links].  The
    composed definition of [size] is not the addition's: it keeps the base's
    [type] and [enum].  The composed default of [links] is neither
    fragment's: the addition's one item followed by the base's second. *)
Lemma C8_default_of_neither_fragment :
  let composed := properties_of (mergeJsonSchemas base_schema addition_schema) in
  field "size" composed <> field "size" (properties_of addition_schema)
  /\ prop "default" (field "links" (properties_of base_schema))
     = VArr [VStr "db"; VStr "cache"]
  /\ prop "default" (field "links" (properties_of addition_schema))
     = VArr [VStr "queue"]
  /\ prop "default" (field "links" composed) = VArr [VStr "queue"; VStr "cache"].
Proof. vm_compute. repeat split. discriminate. Qed.

(** C8 (amended).  The composed [required] list is the union of the two, no
    name twice.  The composed properties are a deep merge: a property one
    fragment defines is taken from it; a property both define has the
    keywords of both definitions, where a keyword only one defines is taken
    from it, a scalar of the addition replaces the base's value, and an array
    of scalars of the addition replaces the first items of the base's
    array. *)
Theorem C8_schema_composition source target :
  wellformed (VObj (properties_of source)) = true ->
  wellformed (VObj (properties_of target)) = true ->
  let composed := mergeJsonSchemas source target in
  (NoDup (required_of composed)
   /\ forall x, In x (required_of composed)
                <-> In x (required_of source) \/ In x (required_of target))
  /\ (forall k, get k (properties_of target) = None ->
                get k (properties_of composed) = get k (properties_of source))
  /\ (forall k t, get k (properties_of source) = None ->
                  get k (properties_of target) = Some t ->
                  get k (properties_of composed) = Some t)
  /\ (forall k t, get k (properties_of target) = Some t -> scalar t = true ->
                  get k (properties_of composed) = Some t)
  /\ (forall k sd td,
         get k (properties_of source) = Some (VObj sd) ->
         get k (properties_of target) = Some (VObj td) ->
         exists md,
           get k (properties_of composed) = Some (VObj md)
           /\ (forall d, get d td = None -> get d md = get d sd)
           /\ (forall d t, get d sd = None -> get d td = Some t -> get d md = Some t)
           /\ (forall d t, get d td = Some t -> scalar t = true -> get d md = Some t)
           /\ (forall d a b,
                  get d sd = Some (VArr a) -> get d td = Some (VArr b) ->
                  forallb scalar b = true ->
                  get d md = Some (VArr (b ++ skipn (List.length b) a)))).
Proof.
  intros Hsp Htp composed.
  assert (Hprops : forall k,
             get k (properties_of composed)
             = match get k (properties_of source), get k (properties_of target) with
               | Some s, Some t => Some (mergeValue (Some s) t)
               | None, Some t => Some t
               | s, None => s
               end).
  { intros k. exact (get_merge k (properties source) (properties target) Hsp Htp). }
  split; [|split; [|split; [|split]]].
  - unfold composed, required_of at 1 2. simpl. split.
    + apply uniq_NoDup.
    + intros x. rewrite uniq_In, in_app_iff. reflexivity.
  - intros k Ht. rewrite Hprops, Ht. now destruct (get k (properties_of source)).
  - intros k t Hs Ht. now rewrite Hprops, Hs, Ht.
  - intros k t Ht Hscalar. rewrite Hprops, Ht.
    destruct (get k (properties_of source)); [|reflexivity].
    f_equal. now apply mergeValue_scalar.
  - intros k sd td Hs Ht. exists (baseMerge sd td).
    assert (Htd : wellformed (VObj td) = true)
      by exact (wellformed_member _ _ _ Htp Ht).
    assert (Hget : forall d,
               get d (baseMerge sd td)
               = match get d td with
                 | Some x => Some (mergeValue (get d sd) x)
                 | None => get d sd
                 end).
    { intros d. apply get_baseMerge. now apply wellformed_keys. }
    split; [|split; [|split; [|split]]].
    + now rewrite Hprops, Hs, Ht, mergeValue_object.
    + intros d Hd. now rewrite Hget, Hd.
    + intros d t Hd Hdt. rewrite Hget, Hdt, Hd. f_equal.
      apply mergeValue_clone. exact (wellformed_member _ _ _ Htd Hdt).
    + intros d t Hdt Hscalar. rewrite Hget, Hdt. f_equal.
      now apply mergeValue_scalar.
    + intros d a b Hda Hdb Hb. rewrite Hget, Hdb, Hda. f_equal.
      now apply mergeValue_array.
Qed.

Lemma C8_schema_composition_witness :
  let composed := mergeJsonSchemas base_schema addition_schema in
  NoDup (required_of composed)
  /\ get "nodes" (properties_of composed) = get "nodes" (properties_of base_schema)
  /\ get "engine" (properties_of composed) = Some (VObj [("type", VStr "string")]).
Proof.
  destruct (C8_schema_composition base_schema addition_schema eq_refl eq_refl)
    as ((Hnd & _) & Hbase & Haddition & _).
  split; [exact Hnd|]. split.
  - apply Hbase. reflexivity.
  - apply Haddition; reflexivity.
Defined.

(* ================================================================== *)
(** * Further properties of the engine *)
(* ================================================================== *)

(** ** The operation: what [process] and [register] leave behind *)

(** X1.  When [process] completes it returns the stack of the final state,
    the node set has the keys it had, in the same order, and every node is
    registered, with the configuration, the service and the id it had. *)
Theorem process_registers_every_node w fuel op st op' :
  process w fuel op = (Ok st, op') ->
  st = stack op'
  /\ map fst (provisionables op') = map fst (provisionables op)
  /\ forall pid p,
      get pid (provisionables op) = Some p ->
      exists p', get pid (provisionables op') = Some p'
                 /\ registered p' = true
                 /\ config p' = config p /\ service p' = service p
                 /\ id p' = id p /\ resourceId p' = resourceId p.
Proof.
  intros H. apply process_inv in H as [(_ & r1 & Hall & Hr)|[Hf _]].
  - destruct r1 as [[]| |]; try discriminate. injection Hr as ->.
    apply registerAll_inv in Hall as (Hev & _ & Hreg).
    split; [reflexivity|]. split; [apply Hev|].
    intros pid p Hg.
    destruct (Hreg eq_refl pid (get_Some_in_keys _ _ _ Hg)) as (p' & Hg' & Hr').
    destruct Hev as (_ & _ & _ & _ & _ & Hobj).
    destruct (Hobj _ _ Hg) as (p'' & Hg'' & Hs & Hc & Hi & Hres & _).
    rewrite Hg' in Hg''. injection Hg'' as <-.
    exists p'. repeat split; assumption.
  - destruct (validateEnvironment _ _); simpl in Hf; [contradiction|discriminate..].
Qed.

Lemma process_registers_every_node_witness :
  exists p',
    get web_id (provisionables (snd (process diamond_world 3 diamond))) = Some p'
    /\ registered p' = true
    /\ config p' = config_of "web" "app".
Proof.
  destruct (get web_id (provisionables diamond)) as [p|] eqn:G;
    [|vm_compute in G; discriminate].
  destruct (process_registers_every_node diamond_world 3 diamond
              [VStr "provider"; VStr "db"; VStr "cache"; VStr "app"]
              (snd (process diamond_world 3 diamond))
              ltac:(rewrite (surjective_pairing (process diamond_world 3 diamond))
                      at 1; f_equal; vm_compute; reflexivity))
    as (_ & _ & Hall).
  destruct (Hall web_id p G) as (p' & Hg & Hr & Hc & _).
  exists p'. split; [exact Hg|]. split; [exact Hr|].
  rewrite Hc. vm_compute in G. injection G as <-. reflexivity.
Defined.

(** X2.  Whatever a call of [register] or of [process] does, and however it
    ends, a node that was registered when the call started is afterwards
    the very object it was, and the log of the start is a prefix of the
    log of the end. *)
Theorem registered_nodes_are_final w fuel op :
  (forall pid r op',
      register w fuel pid op = (r, op') ->
      (exists l, calls op' = (calls op ++ l)%list)
      /\ forall q p, get q (provisionables op) = Some p -> registered p = true ->
                     get q (provisionables op') = Some p)
  /\ (forall r op',
         process w fuel op = (r, op') ->
         (exists l, calls op' = (calls op ++ l)%list)
         /\ forall q p, get q (provisionables op) = Some p -> registered p = true ->
                        get q (provisionables op') = Some p).
Proof.
  split.
  - intros pid r op' H. apply register_evolves in H.
    split; [apply H|]. intros q p Hg Hr. eapply evolves_frozen; eauto.
  - intros r op' H. apply process_inv in H as [(_ & r1 & Hall & _)|[_ ->]].
    + apply registerAll_inv in Hall as (Hev & _).
      split; [apply Hev|]. intros q p Hg Hr. eapply evolves_frozen; eauto.
    + split; [exists []; now rewrite app_nil_r|auto].
Qed.

Lemma registered_nodes_are_final_witness :
  let op1 := snd (register diamond_world 3 aws_id diamond) in
  get aws_id (provisionables (snd (process diamond_world 3 op1)))
  = get aws_id (provisionables op1).
Proof.
  intros op1.
  destruct (registered_nodes_are_final diamond_world 3 op1) as [_ Hprocess].
  destruct (Hprocess (fst (process diamond_world 3 op1))
              (snd (process diamond_world 3 op1))
              (surjective_pairing _)) as [_ Hkeep].
  destruct (get aws_id (provisionables op1)) as [p|] eqn:Hg;
    [|vm_compute in Hg; discriminate].
  apply Hkeep; [exact Hg|].
  vm_compute in Hg. injection Hg as <-. reflexivity.
Defined.




(** ** The operation: failures *)

Lemma registerLinks_stops reg phase pid links1 link links2 :
  forall out op out1 op1 e op2,
    registerLinks reg phase pid links1 out op = (Ok out1, op1) ->
    reg (l_target link) op1 = (Throw e, op2) ->
    registerLinks reg phase pid (links1 ++ link :: links2) out op = (Throw e, op2).
Proof.
  intros out op out1 op1 e op2 H1 H2.
  rewrite registerLinks_app. unfold bind at 1. rewrite H1.
  simpl. unfold bind at 1. now rewrite H2.
Qed.

(** X4.  When registering the target of a requirement edge throws, the
    call on the node throws the same error in the state that failure left:
    the association handler of that edge, the edges after it, the node's
    own handler and its side effects are not run. *)
Theorem requirement_failure_aborts w fuel pid op p v0 links1 link links2
  out1 op1 e op2 :
  get pid (provisionables op) = Some p -> registered p = false ->
  fst (validate (ajv w) (schemaId (service p)) (VObj (config p)) true) = Ok v0 ->
  requirementsMap op pid = (links1 ++ link :: links2)%list ->
  registerAssociated (register w fuel) Requirements pid links1 op = (Ok out1, op1) ->
  register w fuel (l_target link) op1 = (Throw e, op2) ->
  register w (S fuel) pid op = (Throw e, op2)
  /\ exists l1 l2, calls op1 = (calls op ++ l1)%list
                   /\ calls op2 = (calls op1 ++ l2)%list.
Proof.
  intros Hg Hr Hv Hlinks H1 H2. split.
  - apply register_run_complete.
    eapply run_requirements_failed with (r1 := Throw e); eauto; [|reflexivity].
    rewrite Hlinks. unfold registerAssociated in *.
    eapply registerLinks_stops; eauto.
  - apply registerAssociated_evolves in H1. apply register_evolves in H2.
    destruct H1 as (_ & _ & _ & [l1 Hl1] & _).
    destruct H2 as (_ & _ & _ & [l2 Hl2] & _). eauto.
Qed.

Lemma requirement_failure_aborts_witness :
  register fragile_world 2 web_id fragile
  = (Throw (ValidationError "Error while validating schema services/aws/db"
              two_descriptors), fragile).
Proof.
  destruct (get web_id (provisionables fragile)) as [p|] eqn:G;
    [|vm_compute in G; discriminate].
  refine (proj1 (requirement_failure_aborts fragile_world 1 web_id fragile p
                   (VObj (config_of "web" "app")) []
                   {| l_name := "database"; l_target := db1_id;
                      l_handler := provisions_of_linked |} []
                   [] fragile _ fragile G _ _ _ _ _));
    try (vm_compute in G; injection G as <-); reflexivity.
Defined.

(** X5.  When resolving the side effects of a node throws, the call on the
    node throws the same error, yet the node stays registered with the
    provisions of its own handler: a later call on it returns them and
    does not resolve the side effects again. *)
Theorem side_effect_failure_keeps_registration w fuel pid op p v0 reqs op1
  provs op3 e op5 :
  get pid (provisionables op) = Some p -> registered p = false ->
  fst (validate (ajv w) (schemaId (service p)) (VObj (config p)) true) = Ok v0 ->
  registerAssociated (register w fuel) Requirements pid
    (requirementsMap op pid) op = (Ok reqs, op1) ->
  check_requirements (type (service p)) reqs
    (associations (service p) (scope op)) = Ok tt ->
  provisioned pid (handlers (service p) (scope op))
    (assigned pid (with_requirements reqs) op1) = (provs, op3) ->
  registerAssociated (register w fuel) SideEffects pid
    (sideEffectsMap op pid) (assigned pid (with_registered provs) op3)
  = (Throw e, op5) ->
  register w (S fuel) pid op = (Throw e, op5)
  /\ (exists p', get pid (provisionables op5) = Some p'
                 /\ registered p' = true /\ provisions p' = provs)
  /\ forall fuel', register w (S fuel') pid op5 = (Ok provs, op5).
Proof.
  intros Hg Hr Hv Hreqs Hcheck Hown Heff.
  assert (Hnode : exists p', get pid (provisionables op5) = Some p'
                             /\ registered p' = true /\ provisions p' = provs).
  { pose proof (registerAssociated_evolves _ _ _ _ _ _ _ _ Hreqs) as Hev1.
    destruct (evolves_get _ _ _ _ Hev1 Hg) as (p1 & Hg1 & _).
    pose proof (assigned_self _ (with_requirements reqs) _ _ Hg1) as Hg2.
    assert (Hg3 : exists p3, get pid (provisionables op3) = Some p3).
    { destruct (provisioned_static pid (handlers (service p) (scope op))
                  (assigned pid (with_requirements reqs) op1)) as (Hp & _).
      rewrite Hown in Hp. simpl in Hp. rewrite Hp. eauto. }
    destruct Hg3 as (p3 & Hg3).
    pose proof (assigned_self _ (with_registered provs) _ _ Hg3) as Hg4.
    apply registerAssociated_evolves in Heff.
    exists (with_registered provs p3). split; [|split; reflexivity].
    eapply evolves_frozen; eauto. }
  split; [|split; [exact Hnode|]].
  - apply register_run_complete.
    eapply run_effects_failed with (r5 := Throw e); eauto. reflexivity.
  - intros fuel'. destruct Hnode as (p' & Hg' & Hr' & <-).
    now apply register_memo.
Qed.

Lemma side_effect_failure_keeps_registration_witness :
  let op5 := snd (register brittle_world 2 watch_id brittle) in
  fst (register brittle_world 2 watch_id brittle)
  = Throw (ValidationError "Error while validating schema services/aws/db"
             two_descriptors)
  /\ register brittle_world 1 watch_id op5
     = (Ok (VObj [("resource", VStr "monitoring"); ("position", VNum 0)]), op5).
Proof.
  intros op5.
  destruct (get watch_id (provisionables brittle)) as [p|] eqn:G;
    [|vm_compute in G; discriminate].
  destruct (side_effect_failure_keeps_registration brittle_world 1 watch_id
              brittle p (VObj (config_of "watch" "monitoring")) [] brittle
              (VObj [("resource", VStr "monitoring"); ("position", VNum 0)])
              (snd (provisioned watch_id (Some (declare "monitoring"))
                      (assigned watch_id (with_requirements []) brittle)))
              (ValidationError "Error while validating schema services/aws/db"
                 two_descriptors)
              op5 G)
    as (Hthrow & _ & Hagain);
    try (vm_compute in G; injection G as <-; vm_compute; reflexivity).
  split.
  - change 2 with (S 1). rewrite Hthrow. reflexivity.
  - apply Hagain.
Defined.

(** ** The constructor *)

Lemma setupAssociations_static op :
  provisionables (setupAssociations op) = provisionables op
  /\ scope (setupAssociations op) = scope op
  /\ calls (setupAssociations op) = calls op
  /\ stack (setupAssociations op) = stack op.
Proof. rewrite setupAssociations_candidates. apply fold_link_static. Qed.

Lemma uniq_from_seen l :
  forall seen seen',
    (forall x, In x seen <-> In x seen') -> uniq_from seen l = uniq_from seen' l.
Proof.
  induction l as [|x l IH]; intros seen seen' H; simpl; [reflexivity|].
  assert (E : existsb (String.eqb x) seen = existsb (String.eqb x) seen').
  { apply eq_true_iff_eq. rewrite !existsb_exists. split.
    - intros (y & Hy & Hxy). exists y. split; [now apply H|exact Hxy].
    - intros (y & Hy & Hxy). exists y. split; [now apply H|exact Hxy]. }
  rewrite E. destruct (existsb (String.eqb x) seen').
  - now apply IH.
  - f_equal. apply IH. intros y. simpl. now rewrite H.
Qed.

Lemma set_keys_fresh {A : Type} k (v : A) o :
  get k o = None -> map fst (set k v o) = (map fst o ++ [k])%list.
Proof.
  induction o as [|[k' x] o IH]; simpl; [reflexivity|].
  destruct (k =? k'); [discriminate|]. intros H. simpl. now rewrite IH.
Qed.

Lemma existsb_eqb_keys k (l : list string) :
  existsb (String.eqb k) l = true <-> In k l.
Proof.
  rewrite existsb_exists. split.
  - intros (y & Hy & E). apply String.eqb_eq in E. now subst.
  - intros H. exists k. split; [exact H|apply String.eqb_refl].
Qed.

Lemma addProvisionables_keys w services :
  forall op op',
    addProvisionables w services op = Ok op' ->
    map fst (provisionables op')
    = (map fst (provisionables op)
         ++ uniq_from (map fst (provisionables op))
              (map Hash.hashObject services))%list.
Proof.
  induction services as [|c rest IH]; intros op op' H; simpl in H.
  - injection H as <-. simpl. now rewrite app_nil_r.
  - unfold getProvisionable in H.
    destruct (registry w c) as [svc|]; [|discriminate].
    apply IH in H. rewrite H. clear H IH. cbn [id provisionables set_provisionables map uniq_from].
    destruct (get (Hash.hashObject c) (provisionables op)) as [old|] eqn:E.
    + rewrite (keys_set_present _ _ _ _ E).
      assert (Hin : existsb (String.eqb (Hash.hashObject c))
                      (map fst (provisionables op)) = true).
      { apply existsb_eqb_keys. eapply get_Some_in_keys; eauto. }
      now rewrite Hin.
    + rewrite (set_keys_fresh _ _ _ E).
      assert (Hin : existsb (String.eqb (Hash.hashObject c))
                      (map fst (provisionables op)) = false).
      { apply not_true_is_false. rewrite existsb_eqb_keys.
        now apply get_None_notin. }
      rewrite Hin, <- app_assoc. simpl. do 2 f_equal.
      apply uniq_from_seen. intros x. rewrite in_app_iff. simpl. tauto.
Qed.

Lemma addProvisionables_nodes w services :
  forall op op',
    addProvisionables w services op = Ok op' ->
    forall pid p,
      In (pid, p) (provisionables op') ->
      In (pid, p) (provisionables op)
      \/ exists c, In c services /\ getProvisionable w c = Ok p
                   /\ pid = Hash.hashObject c.
Proof.
  induction services as [|c rest IH]; intros op op' H pid p Hin; simpl in H.
  - injection H as <-. now left.
  - destruct (getProvisionable w c) as [node| |] eqn:E; try discriminate.
    destruct (IH _ _ H _ _ Hin) as [Hold|(c' & Hc' & Hp & ->)].
    + cbn [provisionables set_provisionables] in Hold.
      apply set_In in Hold as [[= -> ->]|Hold]; [|now left].
      right. exists c. split; [now left|]. split; [exact E|].
      unfold getProvisionable in E. destruct (registry w c); [|discriminate].
      now injection E as <-.
    + right. exists c'. split; [now right|]. auto.
Qed.

(** X6.  The constructor keeps one node per distinct id, in the order in
    which the ids first occur among the configurations: configurations
    with the same JSON text share a node.  Every node is the fresh
    provisionable [getProvisionable] builds for one of the configurations,
    stored under the hash of that configuration, and every configuration
    has the node of its hash. *)
Theorem constructor_nodes w services st sc op :
  new_StageOperation w services st sc = Ok op ->
  map fst (provisionables op) = uniq (map Hash.hashObject services)
  /\ (forall pid p,
         get pid (provisionables op) = Some p ->
         exists c, In c services /\ getProvisionable w c = Ok p
                   /\ pid = Hash.hashObject c)
  /\ (forall c, In c services ->
                exists p, get (Hash.hashObject c) (provisionables op) = Some p).
Proof.
  unfold new_StageOperation, setupProvisionables.
  destruct (addProvisionables w services _) as [op1| |] eqn:E; try discriminate.
  intros [= <-]. destruct (setupAssociations_static op1) as (-> & _).
  pose proof (addProvisionables_keys _ _ _ _ E) as Hkeys. simpl in Hkeys.
  split; [exact Hkeys|]. split.
  - intros pid p Hg. apply get_In in Hg.
    destruct (addProvisionables_nodes _ _ _ _ E _ _ Hg) as [[]|H]. exact H.
  - intros c Hc. apply in_keys_get. rewrite Hkeys. apply uniq_In.
    now apply in_map.
Qed.

Lemma constructor_nodes_witness :
  map fst (provisionables
             (operation_of plain_world
                [config_of "db1" "db"; with_undefined_region; config_of "db2" "db"]))
  = [db1_id; db2_id].
Proof.
  destruct (new_StageOperation plain_world
              [config_of "db1" "db"; with_undefined_region; config_of "db2" "db"]
              [] deployable) as [op| |] eqn:E;
    try (vm_compute in E; discriminate).
  unfold operation_of. rewrite E.
  destruct (constructor_nodes _ _ _ _ _ E) as (-> & _).
  vm_compute. reflexivity.
Defined.

(** ** The edges of a node, in order *)

Lemma filter_flat_map {A B : Type} (f : B -> bool) (g : A -> list B) l :
  filter f (flat_map g l) = flat_map (fun x => filter f (g x)) l.
Proof.
  induction l as [|x l IH]; simpl; [reflexivity|].
  now rewrite filter_app, IH.
Qed.

Lemma map_flat_map {A B C : Type} (f : B -> C) (g : A -> list B) l :
  map f (flat_map g l) = flat_map (fun x => map f (g x)) l.
Proof.
  induction l as [|x l IH]; simpl; [reflexivity|].
  now rewrite map_app, IH.
Qed.

Lemma flat_map_nil {A B : Type} (g : A -> list B) l :
  (forall x, In x l -> g x = []) -> flat_map g l = [].
Proof.
  induction l as [|x l IH]; simpl; intros H; [reflexivity|].
  rewrite (H x (or_introl eq_refl)). apply IH. auto.
Qed.

Lemma filter_map_comm {A B : Type} (f : B -> bool) (g : A -> B) l :
  filter f (map g l) = map g (filter (fun x => f (g x)) l).
Proof.
  induction l as [|x l IH]; simpl; [reflexivity|].
  destruct (f (g x)); simpl; now rewrite IH.
Qed.

Lemma filter_none {A : Type} (f : A -> bool) l :
  (forall x, In x l -> f x = false) -> filter f l = [].
Proof.
  induction l as [|x l IH]; simpl; intros H; [reflexivity|].
  rewrite (H x (or_introl eq_refl)). apply IH. auto.
Qed.

(** What the triple loop leaves for one owner. *)
Lemma selected_of_owner nodes sc (requirement : bool) owner :
  map edge_of
    (filter (selected requirement (id owner))
       (flat_map (fun entry => map (fun linked => (owner, entry, linked)) nodes)
          (associations (service owner) sc)))
  = links_of nodes sc requirement owner.
Proof.
  unfold links_of.
  induction (associations (service owner) sc) as [|entry entries IH];
    simpl; [reflexivity|].
  rewrite filter_app, map_app, IH. clear IH.
  rewrite filter_map_comm, map_map. cbn [selected].
  rewrite String.eqb_refl. cbn [andb].
  destruct (Bool.eqb (a_requirement (snd entry)) requirement) eqn:E; simpl.
  - f_equal. f_equal. apply filter_ext. intros linked. now rewrite andb_true_r.
  - rewrite filter_none; [reflexivity|].
    intros linked _. now rewrite andb_false_r.
Qed.

Lemma selected_of_other nodes sc (requirement : bool) pid owner :
  id owner <> pid ->
  filter (selected requirement pid)
    (flat_map (fun entry => map (fun linked => (owner, entry, linked)) nodes)
       (associations (service owner) sc)) = [].
Proof.
  intros Hne. apply String.eqb_neq in Hne.
  rewrite filter_flat_map. apply flat_map_nil. intros entry _.
  rewrite filter_map_comm. cbn [selected]. rewrite Hne. simpl.
  rewrite filter_none; [reflexivity|]. auto.
Qed.

Lemma edges_of_owner all sc (requirement : bool) nodes :
  NoDup (map id nodes) ->
  forall owner,
    map edge_of
      (filter (selected requirement (id owner))
         (flat_map
            (fun o =>
               flat_map (fun entry => map (fun linked => (o, entry, linked)) all)
                 (associations (service o) sc))
            nodes))
    = if existsb (fun o => id o =? id owner) nodes
      then links_of all sc requirement
             (match find (fun o => id o =? id owner) nodes with
              | Some o => o
              | None => owner
              end)
      else [].
Proof.
  induction nodes as [|o nodes IH]; intros Hnd owner; simpl; [reflexivity|].
  inversion Hnd as [|? ? Hnotin Hnd']; subst.
  rewrite filter_app, map_app.
  destruct (id o =? id owner) eqn:E.
  - apply String.eqb_eq in E. rewrite <- E at 1. rewrite selected_of_owner.
    rewrite (IH Hnd' owner).
    assert (Hno : existsb (fun o0 => id o0 =? id owner) nodes = false).
    { apply not_true_is_false. rewrite existsb_exists.
      intros (o' & Hin & Eo). apply String.eqb_eq in Eo.
      apply Hnotin. rewrite E, <- Eo. now apply in_map. }
    rewrite Hno. simpl. now rewrite app_nil_r.
  - apply String.eqb_neq in E.
    rewrite (selected_of_other all sc requirement _ _ E). simpl.
    apply (IH Hnd' owner).
Qed.

(** X7.  In the operation the constructor builds, the requirement edges
    and the side-effect edges of a node are, in this order: for each of
    its associations of that kind, in declaration order, one edge to every
    node the association applies to, in the order of the node set.  An id
    that is no node of the set has no edges. *)
Theorem constructor_edges w services st sc op :
  new_StageOperation w services st sc = Ok op ->
  (forall owner,
      In owner (values (provisionables op)) ->
      requirementsMap op (id owner)
      = links_of (values (provisionables op)) sc true owner
      /\ sideEffectsMap op (id owner)
         = links_of (values (provisionables op)) sc false owner)
  /\ (forall pid,
         ~ In pid (map fst (provisionables op)) ->
         requirementsMap op pid = [] /\ sideEffectsMap op pid = []).
Proof.
  intros H. apply new_StageOperation_spec in H as (_ & _ & Hk & Hmaps).
  pose proof (keyed_ids _ Hk) as Hids.
  assert (Hnd : NoDup (map id (values (provisionables op))))
    by (rewrite Hids; apply Hk).
  assert (Hfind : forall owner,
             In owner (values (provisionables op)) ->
             existsb (fun o => id o =? id owner) (values (provisionables op)) = true
             /\ find (fun o => id o =? id owner) (values (provisionables op))
                = Some owner).
  { intros owner Hin. split.
    - apply existsb_exists. exists owner. split; [exact Hin|apply String.eqb_refl].
    - revert Hnd Hin. generalize (values (provisionables op)).
      induction l as [|o l IH]; simpl; [intros _ []|].
      intros Hnd [->|Hin]; [now rewrite String.eqb_refl|].
      inversion Hnd as [|? ? Hnotin Hnd']; subst.
      destruct (id o =? id owner) eqn:E; [|now apply IH].
      apply String.eqb_eq in E. exfalso. apply Hnotin. rewrite E.
      now apply in_map. }
  split.
  - intros owner Hin. destruct (Hmaps (id owner)) as [-> ->].
    unfold candidates. rewrite !(edges_of_owner _ _ _ _ Hnd).
    destruct (Hfind owner Hin) as [-> ->]. auto.
  - intros pid Hnot. destruct (Hmaps pid) as [-> ->].
    assert (Hnone : forall (requirement : bool),
               filter (selected requirement pid)
                 (candidates (values (provisionables op)) sc) = []).
    { intros requirement. unfold candidates. rewrite filter_flat_map.
      apply flat_map_nil. intros o Ho. apply selected_of_other.
      intros <-. apply Hnot. rewrite <- Hids. now apply in_map. }
    now rewrite !Hnone.
Qed.

Lemma constructor_edges_witness :
  map l_target (sideEffectsMap fanout watch_id) = [db1_id; db2_id]
  /\ requirementsMap fanout watch_id = [].
Proof.
  destruct (constructor_edges fanout_world fanout_configs [] deployable fanout
              ltac:(vm_compute; reflexivity)) as [Hedges _].
  destruct (get watch_id (provisionables fanout)) as [p|] eqn:G;
    [|vm_compute in G; discriminate].
  assert (Hin : In p (values (provisionables fanout))).
  { apply get_In in G. now apply (in_map snd) in G. }
  assert (Hid : id p = watch_id).
  { apply get_In in G.
    destruct (new_StageOperation_spec fanout_world fanout_configs [] deployable
                fanout ltac:(vm_compute; reflexivity)) as (_ & _ & [_ Hk] & _).
    symmetry. apply (Hk _ _ G). }
  destruct (Hedges p Hin) as [Hr He]. rewrite Hid in Hr, He.
  rewrite Hr, He. vm_compute in G. injection G as <-.
  split; vm_compute; reflexivity.
Defined.

(** ** The collected output of a phase *)




(** ** Requirement cycles *)



(** ** Validation: error reports *)

Lemma slashes_to_dots_app s t :
  slashes_to_dots (s ++ t) = slashes_to_dots s ++ slashes_to_dots t.
Proof. induction s as [|c s IH]; simpl; [reflexivity|now rewrite IH]. Qed.

Lemma slashes_to_dots_slashless s : slashless (slashes_to_dots s) = true.
Proof.
  unfold slashless. induction s as [|c s IH]; simpl; [reflexivity|].
  rewrite IH, andb_true_r. destruct (Ascii.eqb c "/") eqn:E; [reflexivity|].
  now rewrite E.
Qed.

Lemma slashes_to_dots_id s : slashless s = true -> slashes_to_dots s = s.
Proof.
  unfold slashless. induction s as [|c s IH]; simpl; [reflexivity|].
  intros H. apply andb_true_iff in H as [Hc Hs]. apply negb_true_iff in Hc.
  now rewrite Hc, IH.
Qed.

Lemma strip_leading_dot_slashless s :
  slashless s = true -> slashless (strip_leading_dot s) = true.
Proof.
  unfold slashless. destruct s as [|c s]; simpl; [reflexivity|].
  intros H. destruct (Ascii.eqb c "."); [|exact H].
  now apply andb_true_iff in H as [_ H].
Qed.

Lemma append_empty s : s ++ "" = s.
Proof. induction s as [|c s IH]; simpl; [reflexivity|now rewrite IH]. Qed.

Lemma string_app_nonempty s t : s <> "" -> s ++ t <> "".
Proof. destruct s; [congruence|discriminate]. Qed.

Lemma descriptor_message e : message (descriptor_of e) <> "".
Proof.
  unfold descriptor_of. simpl.
  assert (Hd : "Property " ++ error_path (instancePath e) ++ " is invalid" <> "")
    by discriminate.
  destruct (ajv_message e) as [m|]; [|exact Hd].
  destruct (m =? "") eqn:E; [exact Hd|]. now apply String.eqb_neq.
Qed.

Lemma uniqBy_nil {A : Type} (l : list A) key : uniqBy l key = [] <-> l = [].
Proof.
  unfold uniqBy. destruct l as [|x l]; simpl; split; auto; discriminate.
Qed.

(** X10.  Every descriptor of an error report comes from an Ajv error that
    is no [if] or [then] error, has a message that is not empty (the one
    Ajv gave, or the default one) and a path without a slash; and the
    report is empty exactly when every Ajv error is an [if] or a [then]
    error. *)
Theorem parseErrors_descriptors errs :
  (forall d, In d (parseErrors errs) ->
             message d <> "" /\ slashless (path d) = true
             /\ exists e, In e errs /\ conditional e = false
                          /\ d = descriptor_of e)
  /\ (parseErrors errs = [] <-> forall e, In e errs -> conditional e = true).
Proof.
  split.
  - intros d Hd. unfold parseErrors in Hd. apply uniqBy_In in Hd.
    apply in_map_iff in Hd as (e & <- & He). apply filter_In in He as [He Hk].
    split; [apply descriptor_message|]. split.
    + simpl. apply strip_leading_dot_slashless, slashes_to_dots_slashless.
    + exists e. split; [exact He|]. split; [|reflexivity].
      now apply negb_true_iff in Hk.
  - unfold parseErrors. rewrite uniqBy_nil. split.
    + intros H e He. destruct (conditional e) eqn:E; [reflexivity|].
      apply map_eq_nil in H.
      assert (Hin : In e (filter (fun e => negb (conditional e)) errs))
        by (apply filter_In; split; [exact He|now rewrite E]).
      unfold conditional in Hin at 1. rewrite H in Hin. destruct Hin.
    + intros H. rewrite filter_none; [reflexivity|].
      intros e He. fold (conditional e). now rewrite (H e He).
Qed.

Lemma parseErrors_descriptors_witness :
  parseErrors [conditional_error] = []
  /\ message {| path := "region"; message := "Property region is invalid" |} <> "".
Proof.
  destruct (parseErrors_descriptors [conditional_error]) as [_ [_ Hempty]].
  destruct (parseErrors_descriptors two_errors) as [Hall _].
  split.
  - apply Hempty. intros e [<-|[]]. reflexivity.
  - apply (Hall {| path := "region"; message := "Property region is invalid" |}).
    vm_compute. right. left. reflexivity.
Defined.

Lemma dotted_tail rest :
  forallb slashless rest = true ->
  forall s, s ++ slashes_to_dots (pointer rest) = join "." (s :: rest).
Proof.
  induction rest as [|t rest IH]; intros H s.
  - simpl. apply append_empty.
  - simpl in H. apply andb_true_iff in H as [Ht Hrest].
    cbn [pointer]. change ("/" ++ t ++ pointer rest)
      with (String "/" (t ++ pointer rest)).
    cbn [slashes_to_dots]. rewrite Ascii.eqb_refl.
    rewrite slashes_to_dots_app, (slashes_to_dots_id _ Ht), (IH Hrest t).
    reflexivity.
Qed.

(** X11.  The path of a descriptor is the dotted form of the JSON pointer
    Ajv reports: the property names of the pointer joined by dots, the
    empty path for the root. *)
Theorem error_path_of_pointer segments :
  forallb slashless segments = true ->
  error_path (pointer segments) = join "." segments.
Proof.
  unfold error_path. destruct segments as [|s rest]; [reflexivity|].
  intros H. simpl in H. apply andb_true_iff in H as [Hs Hrest].
  cbn [pointer]. change ("/" ++ s ++ pointer rest)
    with (String "/" (s ++ pointer rest)).
  cbn [slashes_to_dots]. rewrite Ascii.eqb_refl. cbn [strip_leading_dot].
  rewrite Ascii.eqb_refl.
  rewrite slashes_to_dots_app, (slashes_to_dots_id _ Hs).
  now apply dotted_tail.
Qed.

Lemma error_path_of_pointer_witness :
  error_path "/stages/0/services/1/size" = "stages.0.services.1.size".
Proof.
  exact (error_path_of_pointer ["stages"; "0"; "services"; "1"; "size"] eq_refl).
Defined.

(** ** Validation: lists of services and profile overrides *)

Import Checks.

Lemma validateServiceConfig_converges w cfg : validateServiceConfig w cfg <> Diverge.
Proof.
  unfold validateServiceConfig. destruct (registry w cfg); [|discriminate].
  apply validate_converges.
Qed.

(** X12.  [validateServices] validates the configurations in order: it
    returns the validated copy of every one of them, in the same order, or
    throws what the first configuration that fails threw, every
    configuration before it being valid. *)
Theorem validateServices_first_failure w services :
  match validateServices w services with
  | Ok copies =>
      Forall2 (fun cfg copy => validateServiceConfig w cfg = Ok copy)
        services copies
  | Throw e =>
      exists before cfg after,
        services = (before ++ cfg :: after)%list
        /\ validateServiceConfig w cfg = Throw e
        /\ Forall (fun c => is_ok (validateServiceConfig w c) = true) before
  | Diverge => False
  end.
Proof.
  induction services as [|cfg rest IH]; simpl; [constructor|].
  destruct (validateServiceConfig w cfg) as [v|e|] eqn:E.
  - destruct (validateServices w rest) as [vs|e|].
    + now constructor.
    + destruct IH as (before & c & after & -> & Hc & Hb).
      exists (cfg :: before), c, after. split; [reflexivity|]. split; [exact Hc|].
      constructor; [now rewrite E|exact Hb].
    + exact IH.
  - exists [], cfg, rest. auto.
  - now apply validateServiceConfig_converges in E.
Qed.

Lemma difference_nil l excluded :
  difference l excluded = [] <-> forall k, In k l -> In k excluded.
Proof.
  unfold difference. split.
  - intros H k Hk. destruct (existsb (String.eqb k) excluded) eqn:E.
    + now apply existsb_eqb_keys.
    + assert (Hin : In k (filter (fun x => negb (existsb (String.eqb x) excluded)) l))
        by (apply filter_In; split; [exact Hk|now rewrite E]).
      rewrite H in Hin. destruct Hin.
  - intros H. apply filter_none. intros k Hk.
    apply negb_false_iff, existsb_eqb_keys, H, Hk.
Qed.

(** X13.  The [overrides] of a service block are accepted exactly when the
    block has a provider (its own, or the one of the root) and a type, the
    profile of the block (or the default profile) exists, and every key of
    the overrides is a key of that profile.  [undefined] and [null]
    overrides are refused, and overrides are never accepted when the
    profile they override is not. *)
Theorem overrides_stay_within_the_profile
  (getServiceProfile : value -> value -> value -> option obj) dataCxt :
  let type := get_or (parent_of dataCxt) "type" VUndefined in
  let provider := get_or (parent_of dataCxt) "provider"
                    (get_or (root_of dataCxt) "provider" VNull) in
  let profile := get_or (parent_of dataCxt) "profile" (VStr DEFAULT_PROFILE_NAME) in
  (forall o,
      validateServiceProfileOverrides getServiceProfile (VObj o) dataCxt = true
      <-> truthy provider = true /\ truthy type = true
          /\ exists attributes,
              getServiceProfile provider type profile = Some attributes
              /\ forall k, In k (map fst o) -> In k (map fst attributes))
  /\ validateServiceProfileOverrides getServiceProfile VUndefined dataCxt = false
  /\ validateServiceProfileOverrides getServiceProfile VNull dataCxt = false
  /\ (forall overrides,
         validateServiceProfileOverrides getServiceProfile overrides dataCxt = true ->
         validateServiceProfile getServiceProfile profile dataCxt = true).
Proof.
  intros type provider profile.
  unfold validateServiceProfileOverrides, validateServiceProfile.
  fold type provider profile.
  destruct (truthy provider), (truthy type); simpl;
    try (repeat split; try reflexivity; try discriminate;
         intros; try discriminate;
         match goal with H : _ /\ _ |- _ => destruct H as (? & ? & _); discriminate end).
  destruct (getServiceProfile provider type profile) as [attributes|].
  - split; [|split; [reflexivity|split; [reflexivity|reflexivity]]].
    intros o. simpl.
    destruct (difference (map fst o) (map fst attributes)) eqn:E.
    + pose proof (proj1 (difference_nil _ _) E) as Hsub. split; [|reflexivity].
      intros _. split; [reflexivity|]. split; [reflexivity|]. eauto.
    + split; [discriminate|]. intros (_ & _ & attrs & [= <-] & Hsub).
      pose proof (proj2 (difference_nil _ _) Hsub). congruence.
  - repeat split; try reflexivity; try discriminate.
    intros (_ & _ & attrs & Hnone & _). discriminate.
Qed.

Lemma overrides_stay_within_the_profile_witness :
  validateServiceProfileOverrides profiles (VObj [("storage", VNum 50)])
    (Some db_block) = true
  /\ validateServiceProfileOverrides profiles (VObj [("nodes", VNum 3)])
       (Some db_block) = false.
Proof.
  destruct (overrides_stay_within_the_profile profiles (Some db_block))
    as (Hiff & _).
  split.
  - apply Hiff. split; [reflexivity|]. split; [reflexivity|].
    exists [("size", VStr "db.t3.micro"); ("storage", VNum 30)].
    split; [reflexivity|]. intros k [<-|[]]. right. left. reflexivity.
  - apply not_true_is_false. intros H. apply Hiff in H as (_ & _ & attrs & Ha & Hsub).
    vm_compute in Ha. injection Ha as <-.
    destruct (Hsub "nodes" (or_introl eq_refl)) as [H|[H|[]]]; discriminate.
Defined.

(** ** Identifiers *)

Lemma hex_digit_hex n : hex_char (Hash.hex_digit n) = true.
Proof.
  assert (H : forall c, In c (list_ascii_of_string "0123456789abcdef") ->
                        hex_char c = true).
  { intros c Hc. simpl in Hc.
    repeat (destruct Hc as [<-|Hc]; [reflexivity|]). destruct Hc. }
  unfold Hash.hex_digit.
  destruct (nth_in_or_default (Z.to_nat n)
              (list_ascii_of_string "0123456789abcdef") "0"%char) as [Hin|E].
  - now apply H.
  - rewrite E. reflexivity.
Qed.

Lemma list_ascii_app s t :
  list_ascii_of_string (s ++ t)
  = (list_ascii_of_string s ++ list_ascii_of_string t)%list.
Proof. induction s as [|c s IH]; simpl; [reflexivity|now rewrite IH]. Qed.

Lemma hex_string_app s t :
  hex_string (s ++ t) = hex_string s && hex_string t.
Proof. unfold hex_string. now rewrite list_ascii_app, forallb_app. Qed.

Lemma hex_word_le_hex w :
  String.length (Hash.hex_word_le w) = 8 /\ hex_string (Hash.hex_word_le w) = true.
Proof.
  unfold Hash.hex_word_le, Hash.hex_byte. split; [reflexivity|].
  unfold hex_string. cbn [append list_ascii_of_string forallb].
  now rewrite !hex_digit_hex.
Qed.

Lemma string_length_app s t :
  String.length (s ++ t) = String.length s + String.length t.
Proof. induction s as [|c s IH]; simpl; [reflexivity|now rewrite IH]. Qed.

(** X14.  A digest is 32 characters long, each a digit or a letter from
    [a] to [f]: so is the id of every provisionable. *)
Theorem ids_are_hex_digests :
  (forall str, String.length (Hash.hashString str) = 32
               /\ hex_string (Hash.hashString str) = true)
  /\ (forall w config p,
         getProvisionable w config = Ok p ->
         String.length (id p) = 32 /\ hex_string (id p) = true).
Proof.
  assert (H : forall msg, String.length (Hash.md5 msg) = 32
                          /\ hex_string (Hash.md5 msg) = true).
  { intros msg. unfold Hash.md5.
    destruct (fold_left Hash.process_chunk _ _) as [[[a b] c] d].
    split.
    - rewrite !string_length_app.
      now rewrite !(proj1 (hex_word_le_hex _)).
    - rewrite !hex_string_app. now rewrite !(proj2 (hex_word_le_hex _)). }
  split.
  - intros str. apply H.
  - intros w config p Hp. unfold getProvisionable in Hp.
    destruct (registry w config); [|discriminate]. injection Hp as <-.
    apply H.
Qed.

Lemma ids_are_hex_digests_witness :
  String.length db1_id = 32 /\ hex_string db1_id = true.
Proof.
  destruct ids_are_hex_digests as [_ H].
  destruct (getProvisionable plain_world (config_of "db1" "db")) as [p| |] eqn:E;
    try (vm_compute in E; discriminate).
  destruct (H _ _ _ E) as [Hl Hh].
  vm_compute in E. injection E as <-. exact (conj Hl Hh).
Defined.

(** ** Schemas: laws of composition *)

Lemma set_same {A : Type} k (x : A) o : get k o = Some x -> set k x o = o.
Proof.
  induction o as [|[k' y] o IH]; simpl; [discriminate|].
  destruct (k =? k') eqn:E.
  - apply String.eqb_eq in E. subst. now intros [= ->].
  - intros H. now rewrite IH.
Qed.

Lemma baseMerge_same source : forall object,
  (forall k x, In (k, x) source ->
               get k object = Some x /\ mergeValue (Some x) x = x) ->
  baseMerge object source = object.
Proof.
  induction source as [|[k x] source IH]; intros object H; simpl; [reflexivity|].
  destruct (H k x (or_introl eq_refl)) as [Hg Hx].
  rewrite Hg, Hx, (set_same _ _ _ Hg). apply IH. intros k' x' Hin.
  apply H. now right.
Qed.

(** Merging a value into itself changes nothing. *)
Lemma mergeValue_same v : wellformed v = true -> mergeValue (Some v) v = v.
Proof.
  induction v as [| |b|n|s|items IH|props IH] using value_rect'; try reflexivity.
  - simpl. intros Hwf. f_equal.
    induction items as [|x items IHitems]; [reflexivity|].
    simpl in Hwf. apply andb_true_iff in Hwf as [Hx Hrest].
    inversion IH as [|? ? IHx IHrest]; subst.
    rewrite (IHx Hx). f_equal. now apply IHitems.
  - intros Hwf. rewrite mergeValue_object. f_equal.
    apply baseMerge_same. intros k x Hin. split.
    + apply NoDup_get; [now apply wellformed_keys|exact Hin].
    + rewrite Forall_forall in IH. apply (IH (k, x) Hin).
      simpl in Hwf. apply andb_true_iff in Hwf as [_ Hwf].
      rewrite forallb_forall in Hwf. apply (Hwf (k, x) Hin).
Qed.

Lemma baseMerge_clone o : wellformed (VObj o) = true -> baseMerge [] o = o.
Proof.
  intros H. pose proof (mergeValue_clone (VObj o) H) as Hc.
  rewrite mergeValue_object in Hc. now injection Hc.
Qed.

Lemma baseMerge_self o : wellformed (VObj o) = true -> baseMerge o o = o.
Proof.
  intros H. pose proof (mergeValue_same (VObj o) H) as Hc.
  rewrite mergeValue_object in Hc. now injection Hc.
Qed.

Lemma uniq_from_covered l2 :
  forall seen, (forall x, In x l2 -> In x seen) -> uniq_from seen l2 = [].
Proof.
  induction l2 as [|x l2 IH]; intros seen H; simpl; [reflexivity|].
  rewrite (proj2 (existsb_eqb_keys x seen) (H x (or_introl eq_refl))).
  apply IH. intros y Hy. apply H. now right.
Qed.

Lemma uniq_from_app_covered l1 l2 :
  forall seen,
    (forall x, In x l2 -> In x seen \/ In x l1) ->
    uniq_from seen (l1 ++ l2) = uniq_from seen l1.
Proof.
  induction l1 as [|x l1 IH]; intros seen H; simpl.
  - apply uniq_from_covered. intros y Hy. destruct (H y Hy) as [Hs|[]]. exact Hs.
  - destruct (existsb (String.eqb x) seen) eqn:E.
    + apply IH. intros y Hy. destruct (H y Hy) as [Hs|[<-|Hl]]; auto.
      left. now apply existsb_eqb_keys.
    + f_equal. apply IH. intros y Hy.
      destruct (H y Hy) as [Hs|[<-|Hl]]; simpl; auto.
Qed.

(** X15.  Composing a schema with itself, or with the empty schema on
    either side, gives the schema back: the same properties, the same
    other keywords, and its [required] list without repetition. *)
Theorem schema_composition_laws schema :
  wellformed (VObj (properties_of schema)) = true ->
  wellformed (VObj (keywords schema)) = true ->
  mergeJsonSchemas schema schema = normalised schema
  /\ mergeJsonSchemas schema empty_schema = normalised schema
  /\ mergeJsonSchemas empty_schema schema = normalised schema.
Proof.
  intros Hp Hk. unfold mergeJsonSchemas, normalised, merge, properties_of, required_of.
  unfold properties_of in Hp.
  split; [|split]; simpl; f_equal.
  - destruct (properties schema) as [o|]; [|reflexivity].
    now rewrite (baseMerge_clone _ Hp), (baseMerge_self _ Hp).
  - f_equal. unfold uniq. apply uniq_from_app_covered. auto.
  - now rewrite (baseMerge_clone _ Hk), (baseMerge_self _ Hk).
  - destruct (properties schema) as [o|]; [|reflexivity].
    now rewrite (baseMerge_clone _ Hp).
  - now rewrite app_nil_r.
  - now rewrite (baseMerge_clone _ Hk).
  - destruct (properties schema) as [o|]; [|reflexivity].
    now rewrite (baseMerge_clone _ Hp).
  - now rewrite (baseMerge_clone _ Hk).
Qed.

Lemma schema_composition_laws_witness :
  mergeJsonSchemas base_schema base_schema = base_schema
  /\ mergeJsonSchemas empty_schema addition_schema = addition_schema.
Proof.
  destruct (schema_composition_laws base_schema eq_refl eq_refl) as (Hself & _).
  destruct (schema_composition_laws addition_schema eq_refl eq_refl)
    as (_ & _ & Hleft).
  split.
  - rewrite Hself. reflexivity.
  - rewrite Hleft. reflexivity.
Defined.

(** ** Generated attributes: when no generator applies *)




Lemma hasDomain_none associated :
  hasDomain associated = None <->
  match associated with
  | None => True
  | Some config =>
      match get "domain" config with
      | Some (VStr d) => d = ""
      | _ => True
      end
  end.
Proof.
  unfold hasDomain. destruct associated as [config|]; [|tauto].
  destruct (get "domain" config) as [[| | | |d| |]|]; try tauto.
  destruct (d =? "") eqn:E.
  - apply String.eqb_eq in E. tauto.
  - apply String.eqb_neq in E. split; [discriminate|contradiction].
Qed.

(** X17.  When the associated configuration has no domain (none is given,
    or its [domain] is missing, empty or no string), the DNS and SSL
    generators decline.  The revision that returns the generator's result
    then derives nothing at all; the revision that spreads it derives the
    fallback configuration. *)
Theorem attributes_without_domain lib type project environment associated :
  type = DNS \/ type = SSL ->
  match associated with
  | None => True
  | Some config =>
      match get "domain" config with
      | Some (VStr d) => d = ""
      | _ => True
      end
  end ->
  Returning.getAutoGeneratedAttributes lib type project environment associated
  = None
  /\ Spreading.getAutoGeneratedAttributes lib type project environment associated
     = fallback lib type project associated.
Proof.
  intros Ht Hd. apply hasDomain_none in Hd.
  unfold Returning.getAutoGeneratedAttributes,
    Spreading.getAutoGeneratedAttributes,
    Returning.ATTRIBUTE_GENERATOR, Spreading.ATTRIBUTE_GENERATOR.
  destruct Ht as [-> | ->]; simpl;
    unfold Returning.dns, Returning.ssl, Spreading.domainCopy;
    rewrite Hd; split; reflexivity.
Qed.

Lemma attributes_without_domain_witness :
  Returning.getAutoGeneratedAttributes library DNS shop "production"
    (Some (config_of "db1" "db")) = None
  /\ Spreading.getAutoGeneratedAttributes library DNS shop "production"
       (Some (config_of "db1" "db"))
     = [("name", VStr "aws-dns-service"); ("provider", VStr "aws");
        ("type", VStr "dns"); ("region", VStr "eu-central-1")].
Proof.
  exact (attributes_without_domain library DNS shop "production"
           (Some (config_of "db1" "db")) (or_introl eq_refl) I).
Defined.

(** X18.  The state configuration the returning revision derives is the
    [state] block of the project with its type set to [state] and its
    name to [project-state]: every other field of the block, the provider
    and the region apart, is kept; the environment and the associated
    configuration play no part. *)
Theorem state_attributes lib project environment associated :
  NoDup (map fst (p_state project)) ->
  exists derived,
    Returning.getAutoGeneratedAttributes lib STATE project environment associated
    = Some derived
    /\ get "type" derived = Some (VStr STATE)
    /\ get "name" derived = Some (VStr "project-state")
    /\ (forall k, k <> "type" -> k <> "provider" -> k <> "name" -> k <> "region" ->
                  get k derived = get k (p_state project))
    /\ forall environment' associated',
        Returning.getAutoGeneratedAttributes lib STATE project environment'
          associated' = Some derived.
Proof.
  intros Hnd. eexists. split; [reflexivity|].
  assert (Hlist : NoDup (map fst
            [("type", VStr STATE);
             ("provider",
               or_else (field "provider" (p_state project))
                 (or_else (p_provider project) (VStr (DEFAULT_PROVIDER lib))));
             ("name", VStr "project-state");
             ("region",
               or_else (field "region" (p_state project))
                 (or_else (p_region project)
                    (DEFAULT_REGION lib
                       (toString
                          (or_else (field "provider" (p_state project))
                             (or_else (p_provider project)
                                (VStr (DEFAULT_PROVIDER lib)))))))) ]))
    by (simpl; repeat constructor; simpl; intuition discriminate).
  split; [|split; [|split]].
  - rewrite (get_assign _ _ _ Hlist). reflexivity.
  - rewrite (get_assign _ _ _ Hlist). reflexivity.
  - intros k H1 H2 H3 H4. apply String.eqb_neq in H1, H2, H3, H4.
    rewrite (get_assign _ _ _ Hlist). simpl. rewrite H1, H2, H3, H4.
    rewrite (get_assign _ _ _ Hnd). now destruct (get k (p_state project)).
  - reflexivity.
Qed.

Lemma state_attributes_witness :
  exists derived,
    Returning.getAutoGeneratedAttributes library STATE shop "production" None
    = Some derived
    /\ get "bucket" derived = Some (VStr "shop-state").
Proof.
  destruct (state_attributes library shop "production" None)
    as (derived & Hd & _ & _ & Hkeep & _).
  - simpl. repeat constructor; simpl; intuition discriminate.
  - exists derived. split; [exact Hd|].
    rewrite Hkeep by discriminate. reflexivity.
Defined.

(** X19.  In the revision that spreads the generator's result, the DNS and
    the SSL type share one generator, which sets the type to [dns]: for a
    service with a domain the configuration derived for the SSL type is
    the one derived for the DNS type, type included. *)
Theorem certificate_attributes_are_dns lib project environment associated domain :
  hasDomain associated = Some domain ->
  Spreading.getAutoGeneratedAttributes lib SSL project environment associated
  = Spreading.getAutoGeneratedAttributes lib DNS project environment associated
  /\ get "type"
       (Spreading.getAutoGeneratedAttributes lib SSL project environment associated)
     = Some (VStr DNS)
  /\ get "domain"
       (Spreading.getAutoGeneratedAttributes lib SSL project environment associated)
     = Some (VStr (getTopLevelDomain lib domain)).
Proof.
  intros Hd.
  unfold Spreading.getAutoGeneratedAttributes, Spreading.ATTRIBUTE_GENERATOR.
  simpl. unfold Spreading.domainCopy. rewrite Hd.
  repeat split; reflexivity.
Qed.

Lemma certificate_attributes_are_dns_witness :
  get "type"
    (Spreading.getAutoGeneratedAttributes library SSL shop "production"
       (Some web_with_domain)) = Some (VStr "dns").
Proof.
  exact (proj1 (proj2 (certificate_attributes_are_dns library shop "production"
                         (Some web_with_domain) "app.example.com" eq_refl))).
Defined.

(** ** Building a service *)

Import Builders.

Lemma scope_eqb_eq a b : scope_eqb a b = true <-> a = b.
Proof. destruct a, b; unfold scope_eqb; simpl; split; congruence. Qed.

(** X20.  [withHandler] never replaces a handler: on a service that has a
    handler for the scope it throws, and otherwise it returns the service
    with the handler under that scope and everything else as it was, on
    which registering a handler for the same scope again throws. *)
Theorem withHandler_never_overrides scope handler service :
  match withHandler scope handler service with
  | Ok built =>
      handlers service scope = None
      /\ handlers built scope = Some handler
      /\ (forall s, s <> scope -> handlers built s = handlers service s)
      /\ provider built = provider service /\ type built = type service
      /\ schemaId built = schemaId service
      /\ Service.environment built = Service.environment service
      /\ associations built = associations service
      /\ forall other, is_ok (withHandler scope other built) = false
  | Throw e =>
      handlers service scope <> None
      /\ e = Err ("There already is a handler for the “" ++ scope_name scope
                    ++ "” scope for the “" ++ type service ++ "” "
                    ++ provider service ++ " service")
  | Diverge => False
  end.
Proof.
  unfold withHandler at 1.
  destruct (handlers service scope) as [h|] eqn:E.
  - split; [discriminate|reflexivity].
  - simpl. assert (Hs : scope_eqb scope scope = true) by now apply scope_eqb_eq.
    rewrite Hs. repeat split.
    + intros s Hne. destruct (scope_eqb s scope) eqn:Es; [|reflexivity].
      now apply scope_eqb_eq in Es.
    + intros other. unfold withHandler. simpl. now rewrite Hs.
Qed.

(** ** JSON texts determine the value *)































(** ** Association handlers run once per edge *)

Lemma owned_app q l l' : owned q (l ++ l') = (owned q l ++ owned q l')%list.
Proof. unfold owned. apply filter_app. Qed.

Lemma owned_after_scope q st pid op :
  owned q (calls (after_call st (ScopeCall pid) op)) = owned q (calls op).
Proof. simpl. rewrite owned_app. simpl. now rewrite app_nil_r. Qed.

Lemma owned_after_assoc q st phase o n t op :
  owned q (calls (after_call st (AssocCall phase o n t) op))
  = (owned q (calls op)
       ++ if o =? q then [AssocCall phase o n t] else [])%list.
Proof. simpl. rewrite owned_app. simpl. now destruct (o =? q). Qed.

Lemma owned_assigned q pid f op :
  owned q (calls (assigned pid f op)) = owned q (calls op).
Proof. now destruct (assigned_static pid f op) as (_ & _ & _ & -> & _). Qed.

Lemma owned_provisioned q pid h op :
  owned q (calls (snd (provisioned pid h op))) = owned q (calls op).
Proof.
  unfold provisioned. destruct h; destruct (get pid (provisionables op));
    try reflexivity. apply owned_after_scope.
Qed.

Lemma calm_refl rank k pid a : calm rank k pid a a.
Proof. intros q _ _. reflexivity. Qed.

Lemma calm_trans rank k pid a b c :
  calm rank k pid a b -> calm rank k pid b c -> calm rank k pid a c.
Proof. intros H1 H2 q Hq Hk. now rewrite (H2 q Hq Hk), (H1 q Hq Hk). Qed.

Lemma calm_lower rank t k pid a b :
  rank t < k -> calm rank (rank t) t a b -> calm rank k pid a b.
Proof. intros Hlt H q _ Hk. apply H; [intros ->; lia|lia]. Qed.

(** A phase of [pid] in an acyclic graph, the calls on the targets being
    calm: nothing is logged for the other nodes of its rank and above, and
    for [pid] one call per link, in order. *)
Lemma phase_calm w rank fuel phase pid :
  (forall t op r op',
      register w fuel t op = (r, op') -> acyclicb rank op = true ->
      calm rank (rank t) t op op') ->
  forall links a out r b p,
    get pid (provisionables a) = Some p ->
    (forall link, In link links ->
       In link (requirementsMap a pid) \/ In link (sideEffectsMap a pid)) ->
    registerLinks (register w fuel) phase pid links out a = (r, b) ->
    acyclicb rank a = true ->
    calm rank (rank pid) pid a b
    /\ (is_ok r = true ->
        owned pid (calls b)
        = (owned pid (calls a) ++ map (edge_event phase pid) links)%list).
Proof.
  intros IH. induction links as [|link rest IHl];
    intros a out r b p Hg Hl H Hac; simpl in H.
  - apply ret_inv in H as [-> ->]. split; [apply calm_refl|].
    intros _. simpl. now rewrite app_nil_r.
  - assert (Hrank : rank (l_target link) < rank pid)
      by exact (acyclicb_edge rank a pid p link Hac Hg (Hl _ (or_introl eq_refl))).
    apply bind_inv in H as [(v & a1 & H1 & H) | [(e & H1 & ->) | (H1 & ->)]].
    + pose proof (register_evolves _ _ _ _ _ _ H1) as E1.
      pose proof (IH _ _ _ _ H1 Hac) as C1.
      assert (Hac1 : acyclicb rank a1 = true)
        by now rewrite (acyclicb_evolves _ _ _ E1).
      assert (Hpid1 : owned pid (calls a1) = owned pid (calls a))
        by (apply C1; [intros ->; lia|lia]).
      apply bind_inv in H as [(o & a2 & H2 & H) | [(e & H2 & ->) | (H2 & ->)]].
      * apply callAssociation_inv in H2
          as [(target & owner & Gt & Go & _ & ->)|[-> [e [=]]]].
        set (a2 := after_call _ _ a1) in *.
        assert (E2 : evolves a1 a2) by (apply evolves_after_call, evolves_refl).
        assert (Hac2 : acyclicb rank a2 = true)
          by now rewrite (acyclicb_evolves _ _ _ E2).
        destruct (evolves_get _ _ _ _ (evolves_trans _ _ _ E1 E2) Hg)
          as (p2 & Hg2 & _).
        assert (Hl2 : forall l, In l rest ->
                  In l (requirementsMap a2 pid) \/ In l (sideEffectsMap a2 pid)).
        { intros l Hin.
          destruct (evolves_trans _ _ _ E1 E2) as (_ & -> & -> & _).
          apply Hl. now right. }
        destruct (IHl _ _ _ _ _ Hg2 Hl2 H Hac2) as [C3 O3].
        split.
        -- apply (calm_trans _ _ _ a a1);
             [eapply calm_lower; eauto|].
           apply (calm_trans _ _ _ a1 a2); [|exact C3].
           intros q Hq _. unfold a2. rewrite owned_after_assoc.
           apply String.eqb_neq in Hq. rewrite String.eqb_sym in Hq.
           rewrite Hq. now rewrite app_nil_r.
        -- intros Hok. rewrite (O3 Hok). unfold a2.
           rewrite owned_after_assoc, String.eqb_refl, Hpid1.
           now rewrite <- app_assoc.
      * apply callAssociation_inv in H2
          as [(target & owner & _ & _ & [=] & _)|[-> _]].
        split; [eapply calm_lower; eauto|discriminate].
      * apply callAssociation_inv in H2
          as [(target & owner & _ & _ & [=] & _)|[-> [e [=]]]].
    + split; [eapply calm_lower; eauto|discriminate].
    + split; [eapply calm_lower; eauto|discriminate].
Qed.

Lemma calm_assigned rank k pid q f a : calm rank k q a (assigned pid f a).
Proof. intros x _ _. apply owned_assigned. Qed.

Lemma calm_provisioned rank k pid q h a :
  calm rank k q a (snd (provisioned pid h a)).
Proof. intros x _ _. apply owned_provisioned. Qed.

(** The states a registration goes through keep the node, the edges and
    the absence of cycles. *)
Lemma own_step_static rank pid p reqs op1 provs op3 (h : option ProvisionHandler) :
  get pid (provisionables op1) = Some p ->
  provisioned pid h (assigned pid (with_requirements reqs) op1) = (provs, op3) ->
  let op4 := assigned pid (with_registered provs) op3 in
  acyclicb rank op4 = acyclicb rank op1
  /\ requirementsMap op4 = requirementsMap op1
  /\ sideEffectsMap op4 = sideEffectsMap op1
  /\ (exists p4, get pid (provisionables op4) = Some p4)
  /\ (forall q, owned q (calls op4) = owned q (calls op1)).
Proof.
  intros Hg Hpr op4.
  pose proof (provisioned_static pid h (assigned pid (with_requirements reqs) op1))
    as Hs.
  pose proof (acyclicb_provisioned rank pid h
                (assigned pid (with_requirements reqs) op1)) as Ha.
  assert (Ho : forall q, owned q (calls op3)
                         = owned q (calls (assigned pid (with_requirements reqs) op1)))
    by (intros q;
        pose proof (owned_provisioned q pid h
                      (assigned pid (with_requirements reqs) op1)) as Hq;
        now rewrite Hpr in Hq).
  rewrite Hpr in Hs, Ha. simpl in Hs, Ha. destruct Hs as (P3 & _ & R3 & F3).
  destruct (assigned_static pid (with_requirements reqs) op1)
    as (_ & R2 & F2 & _).
  destruct (assigned_static pid (with_registered provs) op3)
    as (_ & R4 & F4 & _).
  pose proof (assigned_self _ (with_requirements reqs) _ _ Hg) as G2.
  rewrite <- P3 in G2.
  split; [|split; [|split; [|split]]].
  - unfold op4. now rewrite acyclicb_assigned, Ha, acyclicb_assigned.
  - unfold op4. congruence.
  - unfold op4. congruence.
  - eexists. unfold op4. apply (assigned_self _ _ _ _ G2).
  - intros q. unfold op4. now rewrite owned_assigned, Ho, owned_assigned.
Qed.

(** In an acyclic graph a call on a node logs no association call for any
    other node of its rank or above; and a call that registers the node
    logs one call per edge of the node, requirements first, in order. *)
Lemma register_owned w rank fuel :
  forall pid op r op',
    register w fuel pid op = (r, op') ->
    acyclicb rank op = true ->
    calm rank (rank pid) pid op op'
    /\ (forall p, is_ok r = true ->
                  get pid (provisionables op) = Some p -> registered p = false ->
                  owned pid (calls op')
                  = (owned pid (calls op) ++ edge_events op pid)%list).
Proof.
  induction fuel as [|fuel IH]; intros pid op r op' H Hac.
  { inversion H; subst. split; [apply calm_refl|discriminate]. }
  assert (IHcalm : forall t a r1 b,
             register w fuel t a = (r1, b) -> acyclicb rank a = true ->
             calm rank (rank t) t a b)
    by (intros t a r1 b Ht Ha; exact (proj1 (IH _ _ _ _ Ht Ha))).
  apply register_run_sound in H.
  destruct H as [Hp | p Hp Hr | p r Hp Hr Hv | p v r1 op1 r Hp Hr Hv H1 Hf
                | p v reqs op1 r Hp Hr Hv H1 Hc
                | p v reqs op1 provs op3 r5 op5 r Hp Hr Hv H1 Hc Hpr H5 Hf
                | p v reqs op1 provs op3 effects op5 final Hp Hr Hv H1 Hc Hpr H5 Hfin].
  - split; [apply calm_refl|discriminate].
  - split; [apply calm_refl|]. intros p0 _ Hg0 Hr0. congruence.
  - split; [apply calm_refl|].
    intros p0 Hok. destruct (fst (validate _ _ _ _)); simpl in Hv;
      try contradiction; subst; discriminate.
  - destruct (phase_calm w rank fuel Requirements pid IHcalm _ _ _ _ _ _ Hp
                (fun l Hl => or_introl Hl) H1 Hac) as [C1 _].
    split; [exact C1|].
    intros p0 Hok. destruct r1; simpl in Hf; try contradiction; subst; discriminate.
  - destruct (phase_calm w rank fuel Requirements pid IHcalm _ _ _ _ _ _ Hp
                (fun l Hl => or_introl Hl) H1 Hac) as [C1 _].
    split; [eapply calm_trans; [exact C1|apply calm_assigned]|].
    intros p0 Hok. destruct (check_requirements _ _ _); simpl in Hc;
      try contradiction; subst; discriminate.
  - destruct (phase_calm w rank fuel Requirements pid IHcalm _ _ _ _ _ _ Hp
                (fun l Hl => or_introl Hl) H1 Hac) as [C1 _].
    pose proof (registerAssociated_evolves _ _ _ _ _ _ _ _ H1) as E1.
    destruct (evolves_get _ _ _ _ E1 Hp) as (p1 & Hg1 & _).
    destruct (own_step_static rank pid p1 reqs op1 provs op3 _ Hg1 Hpr)
      as (A4 & R4 & F4 & (p4 & G4) & O4).
    assert (Hac4 : acyclicb rank (assigned pid (with_registered provs) op3) = true)
      by now rewrite A4, (acyclicb_evolves _ _ _ E1).
    assert (Hl : forall link, In link (sideEffectsMap op pid) ->
                 In link (requirementsMap (assigned pid (with_registered provs) op3) pid)
                 \/ In link (sideEffectsMap (assigned pid (with_registered provs) op3) pid)).
    { intros link Hin. right. rewrite F4.
      destruct E1 as (_ & _ & -> & _). exact Hin. }
    destruct (phase_calm w rank fuel SideEffects pid IHcalm _ _ _ _ _ _ G4
                Hl H5 Hac4) as [C5 _].
    split.
    + apply (calm_trans _ _ _ op op1); [exact C1|].
      apply (calm_trans _ _ _ op1 (assigned pid (with_registered provs) op3));
        [|exact C5].
      intros q _ _. apply O4.
    + intros p0 Hok. destruct r5; simpl in Hf; try contradiction;
        subst; discriminate.
  - destruct (phase_calm w rank fuel Requirements pid IHcalm _ _ _ _ _ _ Hp
                (fun l Hl => or_introl Hl) H1 Hac) as [C1 O1].
    pose proof (registerAssociated_evolves _ _ _ _ _ _ _ _ H1) as E1.
    destruct (evolves_get _ _ _ _ E1 Hp) as (p1 & Hg1 & _).
    destruct (own_step_static rank pid p1 reqs op1 provs op3 _ Hg1 Hpr)
      as (A4 & R4 & F4 & (p4 & G4) & O4).
    assert (Hac4 : acyclicb rank (assigned pid (with_registered provs) op3) = true)
      by now rewrite A4, (acyclicb_evolves _ _ _ E1).
    assert (Hl : forall link, In link (sideEffectsMap op pid) ->
                 In link (requirementsMap (assigned pid (with_registered provs) op3) pid)
                 \/ In link (sideEffectsMap (assigned pid (with_registered provs) op3) pid)).
    { intros link Hin. right. rewrite F4.
      destruct E1 as (_ & _ & -> & _). exact Hin. }
    destruct (phase_calm w rank fuel SideEffects pid IHcalm _ _ _ _ _ _ G4
                Hl H5 Hac4) as [C5 O5].
    split.
    + apply (calm_trans _ _ _ op op1); [exact C1|].
      apply (calm_trans _ _ _ op1 (assigned pid (with_registered provs) op3));
        [intros q _ _; apply O4|].
      apply (calm_trans _ _ _ _ op5); [exact C5|apply calm_assigned].
    + intros p0 _ _ _. rewrite owned_assigned, (O5 eq_refl), O4, (O1 eq_refl).
      unfold edge_events. now rewrite <- app_assoc.
Qed.

Lemma edge_events_evolves a b pid :
  evolves a b -> edge_events b pid = edge_events a pid.
Proof. intros (_ & R & E & _). unfold edge_events. now rewrite R, E. Qed.

Lemma tidy_lower rank k' k a : k' <= k -> tidy rank k a -> tidy rank k' a.
Proof. intros Hle H q p Hq. apply H. lia. Qed.

Lemma tidy_same rank k a b :
  (forall q, rank q < k ->
             get q (provisionables b) = get q (provisionables a)
             /\ owned q (calls b) = owned q (calls a)
             /\ edge_events b q = edge_events a q) ->
  tidy rank k a -> tidy rank k b.
Proof.
  intros Hs H q p Hq Hg. destruct (Hs q Hq) as (G & O & Ev).
  rewrite O, Ev. apply H; [exact Hq|]. now rewrite <- G.
Qed.

Lemma fresh_tidy rank k op : fresh op -> tidy rank k op.
Proof.
  intros [Hc Hf] pid p _ Hg. rewrite Hc. rewrite forallb_forall in Hf.
  specialize (Hf _ (get_In _ _ _ Hg)). simpl in Hf.
  apply negb_true_iff in Hf. now rewrite Hf.
Qed.

(** A phase of [pid] whose target calls keep the log tidy keeps it tidy
    below the rank of [pid]. *)
Lemma phase_tidy w rank fuel phase pid :
  (forall t a v b,
      register w fuel t a = (Ok v, b) -> acyclicb rank a = true ->
      forall k, tidy rank k a -> tidy rank k b) ->
  forall links a out o b,
    registerLinks (register w fuel) phase pid links out a = (Ok o, b) ->
    acyclicb rank a = true ->
    forall k, k <= rank pid -> tidy rank k a -> tidy rank k b.
Proof.
  intros IH. induction links as [|link rest IHl];
    intros a out o b H Hac k Hk Ht; simpl in H.
  - apply ret_inv in H as [_ ->]. exact Ht.
  - apply bind_inv in H as [(v & a1 & H1 & H) | [(e & H1 & [=]) | (H1 & [=])]].
    pose proof (register_evolves _ _ _ _ _ _ H1) as E1.
    assert (Hac1 : acyclicb rank a1 = true)
      by now rewrite (acyclicb_evolves _ _ _ E1).
    pose proof (IH _ _ _ _ H1 Hac k Ht) as T1.
    apply bind_inv in H as [(x & a2 & H2 & H) | [(e & H2 & [=]) | (H2 & [=])]].
    apply callAssociation_inv in H2
      as [(target & owner & Gt & Go & _ & ->)|[-> [e [=]]]].
    set (a2 := after_call _ _ a1) in *.
    assert (E2 : evolves a1 a2) by (apply evolves_after_call, evolves_refl).
    assert (Hac2 : acyclicb rank a2 = true)
      by now rewrite (acyclicb_evolves _ _ _ E2).
    apply (IHl _ _ _ _ H Hac2 k Hk).
    apply (tidy_same rank k a1); [|exact T1].
    intros q Hq. split; [reflexivity|]. split; [|reflexivity].
    unfold a2. rewrite owned_after_assoc.
    assert (Hne : (pid =? q) = false) by (apply String.eqb_neq; intros ->; lia).
    rewrite Hne. apply app_nil_r.
Qed.

(** A call that returns keeps the log tidy. *)
Lemma register_tidy w rank fuel :
  forall pid op v op',
    register w fuel pid op = (Ok v, op') ->
    acyclicb rank op = true ->
    forall k, tidy rank k op -> tidy rank k op'.
Proof.
  induction fuel as [|fuel IH]; intros pid op v0 op' H Hac k Ht.
  { discriminate. }
  pose proof H as H0.
  apply register_run_sound in H.
  inversion H as [Hp | p Hp Hr | p r Hp Hr Hv | p v r1 op1 r Hp Hr Hv H1 Hf
                | p v reqs op1 r Hp Hr Hv H1 Hc
                | p v reqs op1 provs op3 r5 op5 r Hp Hr Hv H1 Hc Hpr H5 Hf
                | p v reqs op1 provs op3 effects op5 final Hp Hr Hv H1 Hc Hpr H5 Hfin];
    subst; try (exfalso; eapply failed_not_ok; eassumption).
  - exact Ht.
  - pose proof (registerAssociated_evolves _ _ _ _ _ _ _ _ H1) as E1.
    destruct (evolves_get _ _ _ _ E1 Hp) as (p1 & Hg1 & _).
    destruct (own_step_static rank pid p1 reqs op1 provs op3 _ Hg1 Hpr)
      as (A4 & R4 & F4 & (p4 & G4) & O4).
    assert (Hac1 : acyclicb rank op1 = true)
      by now rewrite (acyclicb_evolves _ _ _ E1).
    assert (Hac4 : acyclicb rank (assigned pid (with_registered provs) op3) = true)
      by now rewrite A4.
    set (k' := Nat.min k (rank pid)).
    assert (T1 : tidy rank k' op1).
    { apply (phase_tidy w rank fuel Requirements pid IH _ _ _ _ _ H1 Hac);
        [lia|]. apply (tidy_lower rank k' k); [lia|exact Ht]. }
    assert (T4 : tidy rank k' (assigned pid (with_registered provs) op3)).
    { apply (tidy_same rank k' op1); [|exact T1].
      intros q Hq. assert (Hne : q <> pid) by (intros ->; lia).
      split; [|split].
      - rewrite (assigned_other _ _ _ _ Hne).
        pose proof (provisioned_static pid (handlers (service p) (scope op))
                      (assigned pid (with_requirements reqs) op1)) as Hs.
        rewrite Hpr in Hs. simpl in Hs. destruct Hs as (-> & _).
        apply (assigned_other _ _ _ _ Hne).
      - apply O4.
      - unfold edge_events. now rewrite R4, F4. }
    assert (T5 : tidy rank k' op5).
    { apply (phase_tidy w rank fuel SideEffects pid IH _ _ _ _ _ H5 Hac4);
        [lia|exact T4]. }
    assert (T6 : tidy rank k' (assigned pid (with_sideEffects effects) op5)).
    { apply (tidy_same rank k' op5); [|exact T5].
      intros q Hq. assert (Hne : q <> pid) by (intros ->; lia).
      split; [apply (assigned_other _ _ _ _ Hne)|].
      split; [apply owned_assigned|].
      destruct (assigned_static pid (with_sideEffects effects) op5)
        as (_ & R6 & F6 & _).
      unfold edge_events. now rewrite R6, F6. }
    pose proof (register_evolves _ _ _ _ _ _ H0) as E.
    destruct (register_owned w rank _ _ _ _ _ H0 Hac) as [C O].
    destruct (register_respects w rank _ _ _ _ _ H0 Hac) as [U _].
    intros q pq Hq Hgq.
    destruct (Nat.lt_ge_cases (rank q) (rank pid)) as [Hlt|Hge].
    { apply T6; [lia|exact Hgq]. }
    destruct (String.eqb_spec q pid) as [->|Hne].
    + destruct (register_ok_registered _ _ _ _ _ _ H0) as (p' & G' & R' & _).
      rewrite G' in Hgq. inversion Hgq; subst pq. rewrite R'.
      rewrite (O p eq_refl Hp Hr), (Ht _ _ Hq Hp), Hr. simpl.
      symmetry. now apply edge_events_evolves.
    + destruct (U q Hne Hge) as [G _]. rewrite (C q Hne Hge).
      rewrite (edge_events_evolves _ _ q E). apply Ht; [exact Hq|].
      now rewrite <- G.
Qed.

Lemma registerAll_tidy w rank fuel pids :
  forall op op',
    registerAll w fuel pids op = (Ok tt, op') ->
    acyclicb rank op = true ->
    forall k, tidy rank k op -> tidy rank k op'.
Proof.
  induction pids as [|pid rest IH]; intros op op' H Hac k Ht; simpl in H.
  - apply ret_inv in H as [_ ->]. exact Ht.
  - apply bind_inv in H as [(v & op1 & H1 & H) | [(e & H1 & [=]) | (H1 & [=])]].
    pose proof (register_evolves _ _ _ _ _ _ H1) as E1.
    apply (IH _ _ H); [now rewrite (acyclicb_evolves _ _ _ E1)|].
    eapply register_tidy; eauto.
Qed.

(** X22.  In an acyclic graph, a [process] of a fresh operation that completes
    has called, for every node, the handler of each of its edges exactly
    once: those of its requirements in the order of the requirements map,
    then those of its side effects in the order of the side-effects map. *)
Theorem process_calls_each_edge_once w rank fuel op st op' :
  acyclicb rank op = true -> fresh op ->
  process w fuel op = (Ok st, op') ->
  forall pid p,
    get pid (provisionables op) = Some p ->
    owned pid (calls op') = edge_events op pid.
Proof.
  intros Hac Hf H pid p Hg.
  apply process_inv in H as [(_ & r1 & H & Hr) | (Hfail & _)].
  2: { now apply failed_not_ok in Hfail. }
  destruct r1 as [[]| |]; try discriminate.
  destruct (registerAll_inv _ _ _ _ _ _ H) as (E & _ & R).
  destruct (R eq_refl pid (get_Some_in_keys _ _ _ Hg)) as (p' & G' & Hr').
  pose proof (registerAll_tidy w rank fuel _ _ _ H Hac (S (rank pid))
                (fresh_tidy rank _ op Hf) pid p' (Nat.lt_succ_diag_r _) G') as T.
  rewrite T, Hr'. now apply edge_events_evolves.
Qed.

Lemma process_calls_each_edge_once_witness :
  owned web_id (calls (snd (process diamond_world 3 diamond)))
  = [AssocCall Requirements web_id "database" db1_id;
     AssocCall Requirements web_id "cache" redis_id].
Proof.
  assert (Hac : acyclicb diamond_rank diamond = true) by (vm_compute; reflexivity).
  assert (Hfresh : fresh diamond) by (split; vm_compute; reflexivity).
  destruct (get web_id (provisionables diamond)) as [p|] eqn:G;
    [|vm_compute in G; discriminate].
  rewrite (process_calls_each_edge_once diamond_world diamond_rank 3 diamond
             [VStr "provider"; VStr "db"; VStr "cache"; VStr "app"]
             (snd (process diamond_world 3 diamond)) Hac Hfresh
             ltac:(rewrite (surjective_pairing (process diamond_world 3 diamond))
                     at 1; f_equal; vm_compute; reflexivity)
             web_id p G).
  vm_compute. reflexivity.
Defined.
